(** * INDI-HUNTER: the per-frame world simulation of [LevelManager.tsx]

    A shallow embedding of the [LevelManager] component
    (src/components/World/LevelManager.tsx) together with the constants and
    types of [types.ts] (src/unnamed/part_002).

    Conventions of the embedding.
    - A JavaScript [number] that holds a position, a distance, a speed or a
      time is an exact rational ([Q]); integral numbers (level, lane count,
      points, penalties, array indexes) are [Z].  Rounding of binary64 is
      therefore not modelled; comparisons are the boolean tests of the code.
    - The component's [useRef] cells form the record [Refs]; the values that
      the render closure captured from the store form the record [Store].
    - Calls that leave the component (store actions, [window.dispatchEvent],
      the audio object) are recorded, in program order, as a list of [Call].
    - [Math.random()] reads a tape [random : nat -> Q] at a cursor kept in
      the state; [uuidv4()] hands out the next value of a counter.  The
      engine's [Array.prototype.sort] with the random comparator is a
      parameter [randomSort].

    Besides [LevelManager], the development embeds the [Player] component
    and the [ParticleSystem] of the same file, the label of [GameEntity],
    the [ShopScreen] of the HUD (src/unnamed/part_000) and the scenery of
    the environment (src/unnamed/part_001), each in a module of its own. *)

From Stdlib Require Import ZArith QArith Qround Qabs Qminmax Qpower.
From Stdlib Require Import List Bool String Lia Lqa Permutation Sorted.
From Stdlib Require Import DecimalString.
Import ListNotations.
Open Scope Q_scope.

(** ** Numbers *)

Definition Qltb (x y : Q) : bool := negb (Qle_bool y x).
Definition Qgtb (x y : Q) : bool := Qltb y x.
Definition Qgeb (x y : Q) : bool := Qle_bool y x.

Infix "<?" := Qltb (at level 70, no associativity) : Q_scope.
Infix ">?" := Qgtb (at level 70, no associativity) : Q_scope.
Infix ">=?" := Qgeb (at level 70, no associativity) : Q_scope.

(** [arr[i]] for a JavaScript array: [undefined] outside the bounds. *)
Definition arrayGet {A : Type} (arr : list A) (i : Z) : option A :=
  if (i <? 0)%Z then None else nth_error arr (Z.to_nat i).

(** ** types.ts *)

Inductive GameStatus : Set := MENU | PLAYING | SHOP | GAME_OVER | VICTORY.

Inductive ObjectType : Set :=
  | OBSTACLE | GEM | LETTER | SHOP_PORTAL | ALIEN | MISSILE | MONSTER.

Definition GameStatus_eqb (a b : GameStatus) : bool :=
  match a, b with
  | MENU, MENU | PLAYING, PLAYING | SHOP, SHOP
  | GAME_OVER, GAME_OVER | VICTORY, VICTORY => true
  | _, _ => false
  end.

Definition ObjectType_eqb (a b : ObjectType) : bool :=
  match a, b with
  | OBSTACLE, OBSTACLE | GEM, GEM | LETTER, LETTER
  | SHOP_PORTAL, SHOP_PORTAL | ALIEN, ALIEN | MISSILE, MISSILE
  | MONSTER, MONSTER => true
  | _, _ => false
  end.

(** [position: [number, number, number]]. *)
Record Vec3 : Set := mkVec3 { vx : Q; vy : Q; vz : Q }.

Record GameObject : Set := mkObject {
  id : nat;
  type : ObjectType;
  position : Vec3;
  active : bool;
  value : option string;
  color : option string;
  targetIndex : option Z;
  points : option Z;
  hasFired : option bool
}.

Definition LANE_WIDTH : Q := 2.2.
Definition SPAWN_DISTANCE : Q := 120.
Definition REMOVE_DISTANCE : Q := 20.

Definition SCORE_PENALTY_BOAR : Z := 100.
Definition SCORE_PENALTY_MONSTER : Z := 100.
Definition SCORE_PENALTY_OBSTACLE : Z := 10.

Definition HUNTER_COLORS : list string :=
  ["#5d4037"; "#388e3c"; "#fbc02d"; "#e64a19"; "#5d4037"; "#388e3c"]%string.

(** ** LevelManager.tsx: constants and helpers *)

Definition BASE_LETTER_INTERVAL : Q := 150.

Definition getLetterInterval (level : Z) : Q :=
  BASE_LETTER_INTERVAL * Qpower 1.5 (Z.max 0 (level - 1)).

Definition MISSILE_SPEED : Q := 28.

(** ** What the component sees and what it does to the outside *)

(** The store fields destructured by the render whose closures are running. *)
Record Store : Set := mkStore {
  status : GameStatus;
  speed : Q;
  level : Z;
  laneCount : Z;
  collectedLetters : list Z
}.

(** Calls that leave the component. *)
Inductive Call : Set :=
  | openShop
  | takeDamage (penalty : Z)
  | collectGem (amount : Z)
  | collectLetter (index : Z)
  | setDistance (dist : Z)
  | playGemCollect
  | playLetterCollect
  | playerHitEvent
  | particleBurstEvent (at_ : Vec3) (tint : string) (count : Z).

(** The [useRef]/[useState] cells of the component, with the two supplies
    of the model ([uuidCounter] for [uuidv4], [randomCursor] for
    [Math.random]). *)
Record Refs : Set := mkRefs {
  objectsRef : list GameObject;
  renderTrigger : nat;
  prevStatus : GameStatus;
  prevLevel : Z;
  distanceTraveled : Q;
  nextLetterDistance : Q;
  uuidCounter : nat;
  randomCursor : nat
}.

(** ** In-place updates of an entity *)

Definition setZ (obj : GameObject) (z : Q) : GameObject :=
  mkObject (id obj) (type obj)
           (mkVec3 (vx (position obj)) (vy (position obj)) z)
           (active obj) (value obj) (color obj) (targetIndex obj)
           (points obj) (hasFired obj).

Definition setActive (obj : GameObject) (b : bool) : GameObject :=
  mkObject (id obj) (type obj) (position obj) b (value obj) (color obj)
           (targetIndex obj) (points obj) (hasFired obj).

Definition setHasFired (obj : GameObject) (b : bool) : GameObject :=
  mkObject (id obj) (type obj) (position obj) (active obj) (value obj)
           (color obj) (targetIndex obj) (points obj) (Some b).

(** [!obj.hasFired]: true for [undefined] and for [false]. *)
Definition notFired (obj : GameObject) : bool :=
  match hasFired obj with Some true => false | _ => true end.

(** [s || d] on an optional string: the empty string is falsy too. *)
Definition orString (s : option string) (d : string) : string :=
  match s with
  | Some EmptyString | None => d
  | Some t => t
  end.

(** [n || d] on an optional number: 0 is falsy too. *)
Definition orNumber (n : option Z) (d : Z) : Z :=
  match n with
  | Some 0%Z | None => d
  | Some k => k
  end.

(** ** The body of the [for (const obj of currentObjects)] loop *)

Definition isDamageSource (t : ObjectType) : bool :=
  match t with
  | OBSTACLE | ALIEN | MISSILE | MONSTER => true
  | _ => false
  end.

(** [moveAmount]: the scroll distance, plus the charge of a MISSILE. *)
Definition moveAmount (dist safeDelta : Q) (obj : GameObject) : Q :=
  match type obj with
  | MISSILE => dist + MISSILE_SPEED * safeDelta
  | _ => dist
  end.

(** The object pushed to [newSpawns] when an idle boar fires. *)
Definition chargingBoar (uuid : nat) (obj : GameObject) : GameObject :=
  mkObject uuid MISSILE
           (mkVec3 (vx (position obj)) 0.6 (vz (position obj) + 2))
           true None (Some "#5d4037"%string) None None None.

(** Boar aggro logic, on the object already moved: the object afterwards
    and whether it fired in this iteration. *)
Definition aggro (obj : GameObject) : GameObject * bool :=
  if ObjectType_eqb (type obj) ALIEN && active obj && notFired obj then
    if vz (position obj) >? -90 then (setHasFired obj true, true)
    else (obj, false)
  else (obj, false).

(** Outcome of the collision block for one object. *)
Record Collision : Set := mkCollision {
  c_obj : GameObject;
  c_keep : bool;
  c_calls : list Call;
  c_changes : bool
}.

Definition penaltyOf (t : ObjectType) : Z :=
  match t with
  | MISSILE => SCORE_PENALTY_BOAR
  | MONSTER => SCORE_PENALTY_MONSTER
  | _ => SCORE_PENALTY_OBSTACLE
  end.

(** [objBottom, objTop] of a damage source. *)
Definition verticalBand (obj : GameObject) : Q * Q :=
  match type obj with
  | OBSTACLE => (0, 1.0)
  | MISSILE | MONSTER => (0, 1.6)
  | _ => (vy (position obj) - 0.5, vy (position obj) + 0.5)
  end.

Definition damageHit (playerPos : Vec3) (obj : GameObject) : Collision :=
  let playerBottom := vy playerPos in
  let playerTop := vy playerPos + 1.8 in
  let objBottom := fst (verticalBand obj) in
  let objTop := snd (verticalBand obj) in
  let isHit := (playerBottom <? objTop) && (playerTop >? objBottom) in
  if isHit then
    mkCollision (setActive obj false) true
      ([playerHitEvent; takeDamage (penaltyOf (type obj))] ++
       match type obj with
       | MISSILE | MONSTER =>
           [particleBurstEvent (position obj) "#ff0000" 50]
       | _ => []
       end)
      true
  else mkCollision obj true [] false.

Definition collectHit (playerPos : Vec3) (obj : GameObject) : Collision :=
  let dy := Qabs (vy (position obj) - vy playerPos) in
  if dy <? 2.5 then
    mkCollision (setActive obj false) true
      (match type obj with
       | GEM => [collectGem (orNumber (points obj) 50); playGemCollect]
       | _ => []
       end ++
       match type obj, targetIndex obj with
       | LETTER, Some i => [collectLetter i; playLetterCollect]
       | _, _ => []
       end ++
       [particleBurstEvent (position obj) (orString (color obj) "#ffffff") 60])
      true
  else mkCollision obj true [] false.

(** The [if (obj.active) { ... }] block; [prevZ] is the z before the move. *)
Definition collide (playerPos : Vec3) (prevZ : Q) (obj : GameObject)
  : Collision :=
  if active obj then
    let zThreshold := 2.0 in
    let inZZone :=
      (prevZ <? vz playerPos + zThreshold) &&
      (vz (position obj) >? vz playerPos - zThreshold) in
    match type obj with
    | SHOP_PORTAL =>
        let dz := Qabs (vz (position obj) - vz playerPos) in
        if dz <? 2 then mkCollision (setActive obj false) false [openShop] true
        else mkCollision obj true [] false
    | _ =>
        if inZZone then
          let dx := Qabs (vx (position obj) - vx playerPos) in
          if dx <? 0.9 then
            if isDamageSource (type obj) then damageHit playerPos obj
            else collectHit playerPos obj
          else mkCollision obj true [] false
        else mkCollision obj true [] false
    end
  else mkCollision obj true [] false.

(** One iteration of the loop. *)
Record Iteration : Set := mkIteration {
  it_obj : GameObject;          (* the object as the iteration leaves it *)
  it_keep : bool;               (* [keep] at the end of the iteration *)
  it_spawn : list GameObject;   (* what it pushed to [newSpawns] *)
  it_calls : list Call;         (* its outside calls, in order *)
  it_changes : bool;            (* whether it set [hasChanges] *)
  it_uuid : nat                 (* the uuid supply afterwards *)
}.

Definition iteration (playerPos : Vec3) (dist safeDelta : Q) (uuid : nat)
  (obj : GameObject) : Iteration :=
  let prevZ := vz (position obj) in
  let moved := setZ obj (vz (position obj) + moveAmount dist safeDelta obj) in
  let ag := aggro moved in
  let co := collide playerPos prevZ (fst ag) in
  let removed := vz (position (c_obj co)) >? REMOVE_DISTANCE in
  mkIteration
    (c_obj co)
    (c_keep co && negb removed)
    (if snd ag then [chargingBoar uuid (fst ag)] else [])
    (c_calls co)
    (snd ag || c_changes co || removed)
    (if snd ag then S uuid else uuid).

(** ** The two supplies: [Math.random()] and [uuidv4()] *)

Record Supply : Set := mkSupply { sRandom : nat; sUuid : nat }.

Definition Gen (A : Type) : Type := Supply -> A * Supply.

Definition ret {A : Type} (a : A) : Gen A := fun s => (a, s).

Definition bind {A B : Type} (c : Gen A) (k : A -> Gen B) : Gen B :=
  fun s => let (a, s') := c s in k a s'.

Notation "x <- c ;; k" := (bind c (fun x => k))
  (at level 61, c at next level, right associativity).

(** [for (const a of l) { push(...f a) }]: the pushes of a loop, in order. *)
Fixpoint forEach {A B : Type} (f : A -> Gen (list B)) (l : list A)
  : Gen (list B) :=
  match l with
  | [] => ret []
  | a :: rest => bs <- f a ;; cs <- forEach f rest ;; ret (bs ++ cs)
  end.

Definition uuidv4 : Gen nat :=
  fun s => (sUuid s, mkSupply (sRandom s) (S (sUuid s))).

(** [for (let i = -maxLane; i <= maxLane; i++) availableLanes.push(i)]. *)
Definition laneIndexes (maxLane : Z) : list Z :=
  map (fun k => (- maxLane + Z.of_nat k)%Z) (seq 0 (Z.to_nat (2 * maxLane + 1))).

(** [Math.min(...zs)] seeded with a first element. *)
Definition minOf (z : Q) (zs : list Q) : Q := fold_left Qmin zs z.

(** [furthestZ] of the spawning block. *)
Definition furthestZ (kept : list GameObject) : Q :=
  let staticObjects :=
    filter (fun o => negb (ObjectType_eqb (type o) MISSILE)) kept in
  match map (fun o => vz (position o)) staticObjects with
  | [] => -20
  | z :: zs => minOf z zs
  end.

(** [points === 50], [points === 100] on the optional pick. *)
Definition gemColorOf (pts : option Z) : string :=
  match pts with
  | Some 100%Z => "#ffd700"
  | Some 50%Z => "#c0c0c0"
  | _ => "#cd7f32"
  end.

(** [getRandomLane] for the draw [r] of [Math.random()]. *)
Definition laneOf (laneCount : Z) (r : Q) : Z :=
  let max := (laneCount / 2)%Z in
  (Qfloor (r * inject_Z (max * 2 + 1)) - max)%Z.

Definition laneX (lane : Z) : Q := inject_Z lane * LANE_WIDTH.

(** [spawnZ] for the horizon [fz]: a gap that grows with the speed, and
    never nearer than SPAWN_DISTANCE. *)
Definition spawnZOf (store : Store) (fz : Q) : Q :=
  let minGap := 12 + speed store * 0.4 in
  Qmin (fz - minGap) (- SPAWN_DISTANCE).

(** The fallback reward pushed when a letter is due and none is missing. *)
Definition fallbackGem (uuid : nat) (lane : Z) (spawnZ : Q) : GameObject :=
  mkObject uuid GEM (mkVec3 (laneX lane) 1.2 spawnZ) true
           None (Some "#ffd700"%string) None (Some 100%Z) None.

(** [target.map((_, i) => i).filter(i => !collectedLetters.includes(i))]. *)
Definition availableIndicesOf (collected : list Z) : list Z :=
  filter (fun i => negb (existsb (Z.eqb i) collected)) [0; 1; 2; 3; 4; 5]%Z.

(** What the spawning block did: its pushes to [keptObjects], the letter
    threshold afterwards, and whether it set [hasChanges]. *)
Record Spawned : Set := mkSpawned {
  sp_pushed : list GameObject;
  sp_nextLetterDistance : Q;
  sp_changes : bool
}.

(** ** Scenes used to run the model on concrete inputs *)

Definition origin : Vec3 := mkVec3 0 0 0.

(** The penalties of the [takeDamage] calls of a trace, in order. *)
Definition damages (calls : list Call) : list Z :=
  flat_map (fun c => match c with takeDamage p => [p] | _ => [] end) calls.

(** The player-hit events of a trace. *)
Definition playerHits (calls : list Call) : nat :=
  List.length (filter (fun c => match c with playerHitEvent => true
                                        | _ => false end) calls).

(** Who is in a collection: id, type and [active] flag of each entity. *)
Definition roster (objs : list GameObject)
  : list (nat * ObjectType * bool) :=
  map (fun o => (id o, type o, active o)) objs.

(** A rock far beyond the spawn horizon: while it is there the spawning
    block stays behind its gate. *)
Definition farRock : GameObject :=
  mkObject 0 OBSTACLE (mkVec3 0 0.4 (-1000)) true
           None (Some "#546e7a"%string) None None None.

(** An idle boar as the spawning block makes it, about to reach -90. *)
Definition idleBoar : GameObject :=
  mkObject 1 ALIEN (mkVec3 0 0.6 (-91)) true
           None (Some "#4e342e"%string) None None (Some false).

Definition boarScene : Refs :=
  mkRefs [farRock; idleBoar] 0 PLAYING 2 0 150 2 0.

Definition level2Store : Store := mkStore PLAYING 22.5 2 3 [].

Definition level1Store : Store := mkStore PLAYING 22.5 1 3 [].

(** A rock just in front of the player, in the player's lane. *)
Definition nearRock : GameObject :=
  mkObject 2 OBSTACLE (mkVec3 0 0.4 (-0.05)) true
           None (Some "#546e7a"%string) None None None.

Definition rockScene : Refs :=
  mkRefs [farRock; nearRock] 0 PLAYING 1 10 150 3 0.

(** The same rock, already consumed. *)
Definition spentRock : GameObject :=
  mkObject 2 OBSTACLE (mkVec3 0 0.4 0.31) false
           None (Some "#546e7a"%string) None None None.

Definition spentScene : Refs :=
  mkRefs [farRock; spentRock] 1 PLAYING 1 10.36 150 3 0.

(** An idle boar further out, met by a player object that stands at
    z = -91. *)
Definition earlyBoar : GameObject :=
  mkObject 1 ALIEN (mkVec3 0 0.6 (-91.5)) true
           None (Some "#4e342e"%string) None None (Some false).

Definition earlyBoarScene : Refs :=
  mkRefs [farRock; earlyBoar] 0 PLAYING 2 0 150 2 0.

(** A run with every letter collected and the next letter due. *)
Definition allLettersStore : Store :=
  mkStore PLAYING 22.5 1 3 [0; 1; 2; 3; 4; 5]%Z.

Definition gatedScene : Refs :=
  mkRefs [farRock] 0 PLAYING 1 200 150 1 0.

Definition openScene : Refs :=
  mkRefs [] 0 PLAYING 1 200 150 0 0.

(** A tape of [Math.random()] that always answers 0, and a sort that
    leaves the lanes in their order and draws nothing. *)
Definition zeroTape : nat -> Q := fun _ => 0.

Definition keepOrder (lanes : list Z) (cursor : nat) : list Z * nat :=
  (lanes, cursor).

(** ** Predicates used to state the collision properties *)

(** All the tests of the collision block pass for [obj] in a frame that
    moves it by [moveAmount]: the z window around the player (on the z
    before and after the move), the lateral distance, and the vertical test
    of its kind. *)
Definition touches (playerPos : Vec3) (dist safeDelta : Q) (obj : GameObject)
  : Prop :=
  vz (position obj) < vz playerPos + 2
  /\ vz playerPos - 2 < vz (position obj) + moveAmount dist safeDelta obj
  /\ Qabs (vx (position obj) - vx playerPos) < 0.9
  /\ (if isDamageSource (type obj)
      then vy playerPos < snd (verticalBand obj)
           /\ fst (verticalBand obj) < vy playerPos + 1.8
      else Qabs (vy (position obj) - vy playerPos) < 2.5).

(** [obj.type === MISSILE || obj.type === MONSTER]. *)
Definition heavyEnemy (t : ObjectType) : bool :=
  match t with
  | MISSILE | MONSTER => true
  | _ => false
  end.


(** An entity as the spawning block makes them, for the store of the frame
    and the spawn position [spawnZ]: active, at [spawnZ], centred in a
    lane, at the height of its kind; idle boars only on level 2 and not yet
    fired, monsters only on level 3; never a charging boar or a portal. *)
Definition freshlySpawned (store : Store) (spawnZ : Q) (obj : GameObject)
  : Prop :=
  active obj = true
  /\ vz (position obj) = spawnZ
  /\ (exists lane : Z, vx (position obj) = laneX lane)
  /\ match type obj with
     | OBSTACLE => vy (position obj) = 0.4
     | GEM => vy (position obj) = 1.2 \/ vy (position obj) = 2.0
     | LETTER => vy (position obj) = 1.0
     | ALIEN => level store = 2%Z /\ vy (position obj) = 0.6
                /\ hasFired obj = Some false
     | MONSTER => level store = 3%Z /\ vy (position obj) = 0.6
     | MISSILE | SHOP_PORTAL => False
     end.


(** * The hunter: the [Player] component

    The second component of src/components/World/LevelManager.tsx (from its
    line 704 on).  Its [useRef] and [useState] cells form [Player.State];
    what it destructures from the store forms [Player.Props]; the audio calls
    and the store action it makes are recorded as [Player.Call].  Each
    handler and effect is a function on the state; [Date.now()] and
    [window.innerHeight] are arguments.  [THREE.MathUtils.lerp] belongs to
    the library and is a parameter.  The group, body and limb refs are
    attached while the component is mounted, so the tests on
    [groupRef.current] succeed.  The limb, body and shadow poses and
    [spinRotation], which only feed the picture, are left out. *)

Module Player.

Definition GRAVITY : Q := 50.
Definition JUMP_FORCE : Q := 16.

Record Props : Set := mkProps {
  status : GameStatus;
  laneCount : Z;
  hasDoubleJump : bool;
  isImmortalityActive : bool
}.

Inductive Call : Set :=
  | playJump (isDouble : bool)
  | playDamage
  | activateImmortality.

Record State : Set := mkState {
  lane : Z;
  targetX : Q;
  positionX : Q;
  positionY : Q;
  visible : bool;
  isJumping : bool;
  velocityY : Q;
  jumpsPerformed : Z;
  touchStartX : Q;
  touchStartY : Q;
  isInvincible : bool;
  lastDamageTime : Z
}.

(** The component as mounted. *)
Definition initial : State :=
  mkState 0 0 0 0 true false 0 0 0 0 false 0.

Definition setLane (st : State) (l : Z) : State :=
  mkState l (targetX st) (positionX st) (positionY st) (visible st)
          (isJumping st) (velocityY st) (jumpsPerformed st)
          (touchStartX st) (touchStartY st)
          (isInvincible st) (lastDamageTime st).

Definition setX (st : State) (target x : Q) : State :=
  mkState (lane st) target x (positionY st) (visible st)
          (isJumping st) (velocityY st) (jumpsPerformed st)
          (touchStartX st) (touchStartY st)
          (isInvincible st) (lastDamageTime st).

Definition setY (st : State) (y : Q) : State :=
  mkState (lane st) (targetX st) (positionX st) y (visible st)
          (isJumping st) (velocityY st) (jumpsPerformed st)
          (touchStartX st) (touchStartY st)
          (isInvincible st) (lastDamageTime st).

Definition setVisible (st : State) (v : bool) : State :=
  mkState (lane st) (targetX st) (positionX st) (positionY st) v
          (isJumping st) (velocityY st) (jumpsPerformed st)
          (touchStartX st) (touchStartY st)
          (isInvincible st) (lastDamageTime st).

Definition setJump (st : State) (jumping : bool) (v : Q) (jumps : Z) : State :=
  mkState (lane st) (targetX st) (positionX st) (positionY st) (visible st)
          jumping v jumps
          (touchStartX st) (touchStartY st)
          (isInvincible st) (lastDamageTime st).

Definition setTouchStart (st : State) (x y : Q) : State :=
  mkState (lane st) (targetX st) (positionX st) (positionY st) (visible st)
          (isJumping st) (velocityY st) (jumpsPerformed st)
          x y
          (isInvincible st) (lastDamageTime st).

Definition setInvincible (st : State) (inv : bool) (last : Z) : State :=
  mkState (lane st) (targetX st) (positionX st) (positionY st) (visible st)
          (isJumping st) (velocityY st) (jumpsPerformed st)
          (touchStartX st) (touchStartY st)
          inv last.

(** [Math.floor(laneCount / 2)]. *)
Definition maxLaneOf (props : Props) : Z := (laneCount props / 2)%Z.

(** The effect on [status]. *)
Definition statusEffect (props : Props) (st : State) : State :=
  if GameStatus_eqb (status props) PLAYING
  then setY (setJump st false 0 0) 0
  else st.

(** The effect on [laneCount, lane]. *)
Definition laneEffect (props : Props) (st : State) : State :=
  let maxLane := maxLaneOf props in
  if (Z.abs (lane st) >? maxLane)%Z
  then setLane st (Z.max (Z.min (lane st) maxLane) (- maxLane))
  else st.

Definition triggerJump (props : Props) (st : State) : State * list Call :=
  let maxJumps := if hasDoubleJump props then 2%Z else 1%Z in
  if negb (isJumping st) then
    (setJump st true JUMP_FORCE 1, [playJump false])
  else if (jumpsPerformed st <? maxJumps)%Z then
    (setJump st (isJumping st) JUMP_FORCE (jumpsPerformed st + 1),
     [playJump true])
  else (st, []).

Definition handleKeyDown (props : Props) (key : string) (st : State)
  : State * list Call :=
  if negb (GameStatus_eqb (status props) PLAYING) then (st, [])
  else
    let maxLane := maxLaneOf props in
    if (key =? "ArrowLeft")%string then
      (setLane st (Z.max (lane st - 1) (- maxLane)), [])
    else if (key =? "ArrowRight")%string then
      (setLane st (Z.min (lane st + 1) maxLane), [])
    else if (key =? "ArrowUp")%string || (key =? "w")%string then
      triggerJump props st
    else if (key =? " ")%string || (key =? "Enter")%string then
      (st, [activateImmortality])
    else (st, []).

Definition handleTouchStart (clientX clientY : Q) (st : State) : State :=
  setTouchStart st clientX clientY.

Definition handleTouchEnd (props : Props) (clientX clientY innerHeight : Q)
  (st : State) : State * list Call :=
  if negb (GameStatus_eqb (status props) PLAYING) then (st, [])
  else if touchStartY st >? innerHeight - 150 then (st, [])
  else
    let deltaX := clientX - touchStartX st in
    let deltaY := clientY - touchStartY st in
    let maxLane := maxLaneOf props in
    if (Qabs deltaX >? Qabs deltaY) && (Qabs deltaX >? 30) then
      if deltaX >? 0
      then (setLane st (Z.min (lane st + 1) maxLane), [])
      else (setLane st (Z.max (lane st - 1) (- maxLane)), [])
    else if (Qabs deltaY >? Qabs deltaX) && (deltaY <? -30) then
      triggerJump props st
    else (st, []).

(** The listener of [player-hit]. *)
Definition checkHit (props : Props) (now : Z) (st : State)
  : State * list Call :=
  if isInvincible st || isImmortalityActive props then (st, [])
  else (setInvincible st true now, [playDamage]).

Section Frame.

Variable lerp : Q -> Q -> Q -> Q.

(** The [if (isJumping.current) { ... }] block of the frame callback. *)
Definition jumpPhysics (delta : Q) (st : State) : State :=
  if isJumping st then
    let y := positionY st + velocityY st * delta in
    let v := velocityY st - GRAVITY * delta in
    if Qle_bool y 0
    then setY (setJump st false 0 0) 0
    else setY (setJump st (isJumping st) v (jumpsPerformed st)) y
  else st.

(** The flicker block at the end of the frame callback. *)
Definition flicker (props : Props) (now : Z) (st : State) : State :=
  if isInvincible st || isImmortalityActive props then
    let st1 :=
      if isInvincible st then
        if (now - lastDamageTime st >? 1500)%Z
        then setVisible (setInvincible st false (lastDamageTime st)) true
        else setVisible st (((now / 50) mod 2 =? 0)%Z)
      else st in
    if isImmortalityActive props then setVisible st1 true else st1
  else setVisible st true.

Definition useFrame (props : Props) (delta : Q) (now : Z) (st : State)
  : State :=
  if negb (GameStatus_eqb (status props) PLAYING)
     && negb (GameStatus_eqb (status props) SHOP)
  then st
  else
    let target := inject_Z (lane st) * LANE_WIDTH in
    let st1 := setX st target (lerp (positionX st) target (delta * 15)) in
    flicker props now (jumpPhysics delta st1).

(** What can happen to the mounted component, each with the store values of
    the render whose closures run. *)
Inductive Event : Set :=
  | keydown (key : string)
  | touchstart (clientX clientY : Q)
  | touchend (clientX clientY innerHeight : Q)
  | player_hit (now : Z)
  | animationFrame (delta : Q) (now : Z)
  | statusEffectRuns
  | laneEffectRuns.

Definition step (props : Props) (ev : Event) (st : State)
  : State * list Call :=
  match ev with
  | keydown key => handleKeyDown props key st
  | touchstart x y => (handleTouchStart x y st, [])
  | touchend x y h => handleTouchEnd props x y h st
  | player_hit now => checkHit props now st
  | animationFrame delta now => (useFrame props delta now st, [])
  | statusEffectRuns => (statusEffect props st, [])
  | laneEffectRuns => (laneEffect props st, [])
  end.

Fixpoint run (evs : list (Props * Event)) (st : State) : State * list Call :=
  match evs with
  | [] => (st, [])
  | (props, ev) :: rest =>
      let (st1, calls) := step props ev st in
      let (st2, more) := run rest st1 in
      (st2, calls ++ more)
  end.

(** The readings of [Date.now()] along a run. *)
Definition clockOf (ev : Event) : list Z :=
  match ev with
  | player_hit now | animationFrame _ now => [now]
  | _ => []
  end.

(** The readings of the clock along a run. *)
Definition clocks (evs : list (Props * Event)) : list Z :=
  flat_map (fun pe => clockOf (snd pe)) evs.

Definition isPlayDamage (c : Call) : bool :=
  match c with playDamage => true | _ => false end.

(** The clock readings at which the damage sound is played. *)
Fixpoint damageTimes (evs : list (Props * Event)) (st : State) : list Z :=
  match evs with
  | [] => []
  | (props, ev) :: rest =>
      let (st1, calls) := step props ev st in
      (if existsb isPlayDamage calls then clockOf ev else [])
      ++ damageTimes rest st1
  end.

(** Frames of the same [delta], one for each clock reading, with nothing
    happening in between. *)
Fixpoint frames (props : Props) (delta : Q) (nows : list Z) (st : State)
  : State :=
  match nows with
  | [] => st
  | now :: rest => frames props delta rest (useFrame props delta now st)
  end.

End Frame.

(** The number of frames of [delta] seconds after which the time since the
    jump first exceeds [JUMP_FORCE / GRAVITY]. *)
Definition framesToClear (delta : Q) : nat :=
  S (Z.to_nat (Qfloor (JUMP_FORCE / GRAVITY / delta))).

(** The invariant of the jump cells: on the ground the hunter is at height
    0 with no speed and no jump counted; in the air one or two jumps are
    counted; the height is never negative. *)
Definition jumpCellsOk (st : State) : Prop :=
  0 <= positionY st
  /\ (isJumping st = false ->
      positionY st = 0 /\ velocityY st = 0 /\ jumpsPerformed st = 0%Z)
  /\ (isJumping st = true -> (1 <= jumpsPerformed st <= 2)%Z).

(** Store values and runs for the concrete cases: the linear interpolation
    for [lerp], a game that runs on three lanes, and the menu. *)
Definition linearLerp (x y t : Q) : Q := (1 - t) * x + t * y.

Definition playing : Props := mkProps PLAYING 3 false false.
Definition inMenu : Props := mkProps MENU 3 false false.

Definition leapRun : list (Props * Event) :=
  [(playing, keydown "ArrowLeft"); (playing, keydown "ArrowUp");
   (playing, animationFrame 0.016 1000); (playing, keydown "ArrowUp");
   (playing, animationFrame 0.016 1016)].

Definition hitRun : list (Props * Event) :=
  [(playing, player_hit 1000); (playing, animationFrame 0.016 1100);
   (playing, player_hit 1200); (playing, animationFrame 0.016 2600);
   (playing, player_hit 2700)].

Definition menuRun : list (Props * Event) :=
  [(inMenu, keydown "ArrowLeft"); (inMenu, keydown "ArrowUp");
   (inMenu, touchend 200 0 800); (inMenu, animationFrame 0.016 1000);
   (inMenu, statusEffectRuns)].

End Player.


(** * The floating label of an entity ([labelData] of [GameEntity]) *)

(** A whole number in a template literal. *)
Definition decimal (n : Z) : string := NilZero.string_of_int (Z.to_int n).

(** Text and colour of the label; [None] for no label. *)
Definition labelData (data : GameObject) : option (string * string) :=
  match type data with
  | GEM =>
      Some (("+" ++ match points data with
                    | Some p => decimal p
                    | None => "undefined"
                    end)%string, "#00e676"%string)
  | OBSTACLE => Some ("-10", "#ff1744")%string
  | MISSILE | MONSTER => Some ("-100", "#d50000")%string
  | ALIEN => Some ("-100", "#ff5252")%string
  | _ => None
  end.

(** An artifact whose label tells its worth: its points are 10, 50 or 100,
    its colour is the colour of those points, its label shows them, and
    they are the amount a pickup passes to [collectGem]. *)
Definition artifactWorth (obj : GameObject) : Prop :=
  type obj = GEM ->
  exists p : Z,
    points obj = Some p /\ In p [10; 50; 100]%Z
    /\ color obj = Some (gemColorOf (Some p))
    /\ option_map fst (labelData obj) = Some ("+" ++ decimal p)%string
    /\ orNumber (points obj) 50 = p.


(** * The particle pool: the [ParticleSystem] component

    The first component of src/components/World/LevelManager.tsx.  The pool
    is the array [particles]; [Math.random] reads the tape at a cursor that
    the listener returns advanced; [Math.sin], [Math.cos], [Math.acos] and
    [Math.PI] are parameters.  The instanced mesh is attached while the
    component is mounted; of what the frame callback writes to it, the
    scale of each instance is kept ([drawnScales]). *)

Module Particles.

Definition PARTICLE_COUNT : nat := 800.

Record Particle : Set := mkParticle {
  life : Q;
  pos : Vec3;
  vel : Vec3;
  rot : Vec3;
  rotVel : Vec3;
  tint : option string
}.

(** [new THREE.Vector3()]. *)
Definition zero : Vec3 := mkVec3 0 0 0.

(** The pool as [useMemo] builds it. *)
Definition initial : list Particle :=
  repeat (mkParticle 0 zero zero zero zero None) PARTICLE_COUNT.

(** [v.multiplyScalar(k)]. *)
Definition multiplyScalar (v : Vec3) (k : Q) : Vec3 :=
  mkVec3 (vx v * k) (vy v * k) (vz v * k).

(** [v.addScaledVector(w, k)]. *)
Definition addScaledVector (v w : Vec3) (k : Q) : Vec3 :=
  mkVec3 (vx v + vx w * k) (vy v + vy w * k) (vz v + vz w * k).

(** [count || 40]. *)
Definition burstAmountOf (count : option Z) : Z :=
  match count with
  | Some 0%Z | None => 40%Z
  | Some n => n
  end.

Definition isDead (p : Particle) : bool := Qle_bool (life p) 0.
Definition isLive (p : Particle) : bool := life p >? 0.

Section Pool.

Variable random : nat -> Q.
Variables sin cos acos : Q -> Q.
Variable PI : Q.

(** The body of [if (p.life <= 0) { ... }], up to [p.color.set(color)]:
    ten draws, from the cursor [c] on. *)
Definition revive (position : Vec3) (color : string) (c : nat) : Particle :=
  let life := 1.0 + random c * 0.5 in
  let theta := random (c + 1) * PI * 2 in
  let phi := acos (2 * random (c + 2) - 1) in
  let speed := 2 + random (c + 3) * 10 in
  let vel := multiplyScalar
               (mkVec3 (sin phi * cos theta) (sin phi * sin theta) (cos phi))
               speed in
  let rot := mkVec3 (random (c + 4) * PI) (random (c + 5) * PI)
                    (random (c + 6) * PI) in
  let rotVel := multiplyScalar
                  (mkVec3 (random (c + 7) - 0.5) (random (c + 8) - 0.5)
                          (random (c + 9) - 0.5))
                  5 in
  mkParticle life position vel rot rotVel (Some color).

(** The [for] loop of [handleExplosion] from some index on: [ps] are the
    particles not yet visited, [spawned] the count so far. *)
Fixpoint reviveLoop (position : Vec3) (color : string) (burstAmount : Z)
  (ps : list Particle) (spawned : Z) (c : nat) : list Particle * nat :=
  match ps with
  | [] => ([], c)
  | p :: rest =>
      if isDead p then
        let p' := revive position color c in
        let spawned := (spawned + 1)%Z in
        if (spawned >=? burstAmount)%Z then (p' :: rest, (c + 10)%nat)
        else
          let (rest', c') :=
            reviveLoop position color burstAmount rest spawned (c + 10) in
          (p' :: rest', c')
      else
        let (rest', c') :=
          reviveLoop position color burstAmount rest spawned c in
        (p :: rest', c')
  end.

(** The listener of [particle-burst]. *)
Definition handleExplosion (position : Vec3) (color : string)
  (count : option Z) (ps : list Particle) (c : nat) : list Particle * nat :=
  reviveLoop position color (burstAmountOf count) ps 0 c.

End Pool.

Definition safeDeltaOf (delta : Q) : Q := Qmin delta 0.1.

(** One particle in the frame callback. *)
Definition advance (safeDelta : Q) (p : Particle) : Particle :=
  if isLive p then
    let life := life p - safeDelta * 1.5 in
    let pos := addScaledVector (pos p) (vel p) safeDelta in
    let vel := mkVec3 (vx (vel p)) (vy (vel p) - safeDelta * 5) (vz (vel p)) in
    let vel := multiplyScalar vel 0.98 in
    let rot := mkVec3 (vx (rot p) + vx (rotVel p) * safeDelta)
                      (vy (rot p) + vy (rotVel p) * safeDelta)
                      (vz (rot p)) in
    mkParticle life pos vel rot (rotVel p) (tint p)
  else p.

(** The scale given to the instance of a particle in the frame callback. *)
Definition drawnScale (safeDelta : Q) (p : Particle) : Q :=
  if isLive p then Qmax 0 (life (advance safeDelta p) * 0.25) else 0.

Definition useFrame (delta : Q) (ps : list Particle) : list Particle :=
  map (advance (safeDeltaOf delta)) ps.

Definition drawnScales (delta : Q) (ps : list Particle) : list Q :=
  map (drawnScale (safeDeltaOf delta)) ps.

(** Frames with nothing in between. *)
Definition frames (deltas : list Q) (ps : list Particle) : list Particle :=
  fold_left (fun ps delta => useFrame delta ps) deltas ps.

(** One particle over frames. *)
Definition flight (deltas : list Q) (p : Particle) : Particle :=
  fold_left (fun p delta => advance (safeDeltaOf delta) p) deltas p.

(** The clamped frame time of a run of frames. *)
Definition safeTime (deltas : list Q) : Q :=
  fold_right (fun delta t => safeDeltaOf delta + t) 0 deltas.

Definition countLive (ps : list Particle) : nat :=
  List.length (filter isLive ps).

Definition countDead (ps : list Particle) : nat :=
  List.length (filter isDead ps).

(** The number of particles revived by a loop that has revived [spawned]
    so far and still has [ps] to visit: it revives dead particles until
    the count reaches [burstAmount], and checks the count only after a
    revival. *)
Definition quota (burstAmount spawned : Z) (ps : list Particle) : nat :=
  Nat.min (countDead ps) (Z.to_nat (Z.max 1 (burstAmount - spawned))).

(** A particle as a burst at [position] in [color] leaves it. *)
Definition fresh (position : Vec3) (color : string) (p : Particle) : Prop :=
  1 <= life p /\ life p < 1.5 /\ pos p = position /\ tint p = Some color.

(** A pool of four for the concrete cases: two dead particles, a live one,
    a dead one; and constant stand-ins for the trigonometric functions. *)
Definition smallPool : list Particle :=
  [mkParticle 0 zero zero zero zero None;
   mkParticle (-1) zero zero zero zero None;
   mkParticle 0.5 zero (mkVec3 1 2 3) zero zero (Some "#ffffff"%string);
   mkParticle 0 zero zero zero zero None].

Definition flat (x : Q) : Q := 0.

End Particles.

(** * The shop: [ShopScreen] of the HUD (src/unnamed/part_000)

    The icon of an item is its component's name.  The engine's sort with
    the random comparator is a parameter, as in the spawner. *)

Module Shop.

Record ShopItem : Set := mkItem {
  id : string;
  name : string;
  description : string;
  cost : Z;
  icon : string;
  oneTime : option bool
}.

Definition SHOP_ITEMS : list ShopItem :=
  [mkItem "DOUBLE_JUMP" "DOUBLE LEAP"
          "Jump again in mid-air to reach higher spirits."
          1000 "ArrowUpCircle" (Some true);
   mkItem "MAX_LIFE" "ANCESTRAL VITALITY"
          "Permanently adds a heart slot and heals you."
          1500 "Activity" None;
   mkItem "HEAL" "HERBAL REMEDY"
          "Restores 1 Life point instantly."
          1000 "PlusCircle" None;
   mkItem "IMMORTAL" "SPIRIT SHIELD"
          "Unlock Ability: Become invincible for 5s."
          3000 "Shield" (Some true)]%string.

(** The filter of the mount effect. *)
Definition inPool (hasDoubleJump hasImmortality : bool) (item : ShopItem)
  : bool :=
  if (id item =? "DOUBLE_JUMP")%string && hasDoubleJump then false
  else if (id item =? "IMMORTAL")%string && hasImmortality then false
  else true.

Section Offer.

Variable randomSort : list ShopItem -> nat -> list ShopItem * nat.

(** The mount effect: the items on offer for the whole visit. *)
Definition offer (hasDoubleJump hasImmortality : bool) (c : nat)
  : list ShopItem :=
  let pool := filter (inPool hasDoubleJump hasImmortality) SHOP_ITEMS in
  let pool := fst (randomSort pool c) in
  firstn 3 pool.

End Offer.

(** [canAfford] of an item's button. *)
Definition canAfford (score : Z) (item : ShopItem) : bool :=
  (score >=? cost item)%Z.

(** A sort that leaves the order. *)
Definition keepItems (l : list ShopItem) (c : nat) : list ShopItem * nat :=
  (l, c).

End Shop.

(** * The scenery: [Trees], [Bushes] and [FogPatches] of the environment
    (src/unnamed/part_001)

    Of each instance the model keeps its [z], the only cell the frame
    callbacks change; the instanced meshes are attached while the
    components are mounted. *)

Module Scenery.

(** [data.z] of a tree or a bush after a frame. *)
Definition treeFrame (speed delta z : Q) : Q :=
  let activeSpeed := if speed >? 0 then speed else 0 in
  let z := z + activeSpeed * delta in
  if z >? 20 then -200 else z.

(** [data.z] of a fog patch after a frame. *)
Definition fogFrame (speed delta speedMod z : Q) : Q :=
  let activeSpeed := if speed >? 0 then speed else 2 in
  let z := z + activeSpeed * delta * speedMod in
  if z >? 50 then -250 else z.

(** Frames, each with the speed of the store and its [delta]. *)
Definition treeFrames (fs : list (Q * Q)) (z : Q) : Q :=
  fold_left (fun z f => treeFrame (fst f) (snd f) z) fs z.

Definition fogFrames (speedMod : Q) (fs : list (Q * Q)) (z : Q) : Q :=
  fold_left (fun z f => fogFrame (fst f) (snd f) speedMod z) fs z.

End Scenery.


(** ** More concrete scenes *)

(** A silver artifact and a shop portal right before the player, the
    player's position in the middle of a jump, and a tape of halves. *)
Definition nearGem : GameObject :=
  mkObject 4 GEM (mkVec3 0 1.2 (-0.05)) true
           None (Some "#c0c0c0"%string) None (Some 50%Z) None.

Definition nearPortal : GameObject :=
  mkObject 5 SHOP_PORTAL (mkVec3 0 0 (-2.1)) true None None None None None.

Definition inTheAir : Vec3 := mkVec3 0 1.0 0.

Definition halfTape : nat -> Q := fun _ => 0.5.

Definition gameOverStore : Store := mkStore GAME_OVER 22.5 1 3 [].


(** Every artifact of the list floats at height 2.0 above a rock of the
    list, and the list holds rocks and artifacts only. *)
Definition artifactsAboveRocks (objs : list GameObject) : Prop :=
  forall obj : GameObject,
    In obj objs ->
    type obj = OBSTACLE
    \/ (type obj = GEM /\ vy (position obj) = 2.0
        /\ exists rock : GameObject,
             In rock objs /\ type rock = OBSTACLE
             /\ vx (position rock) = vx (position obj)
             /\ vz (position rock) = vz (position obj)).



(** Closed goals on concrete scenes are settled by evaluation. *)
Ltac concrete :=
  first [ vm_compute; reflexivity
        | vm_compute; let H := fresh in intro H; discriminate H ].

Ltac conjuncts := repeat match goal with |- _ /\ _ => split end.

Section Simulation.

(** The successive results of [Math.random()]. *)
Variable random : nat -> Q.

(** [arr.sort(() => Math.random() - 0.5)]: the engine's sort under a random
    comparator; it reads the tape from a cursor and returns the new order
    and the cursor it stopped at. *)
Variable randomSort : list Z -> nat -> list Z * nat.

Definition mathRandom : Gen Q :=
  fun s => (random (sRandom s), mkSupply (S (sRandom s)) (sUuid s)).

Definition shuffled (lanes : list Z) : Gen (list Z) :=
  fun s => let (l, c) := randomSort lanes (sRandom s) in (l, mkSupply c (sUuid s)).

Definition getRandomLane (laneCount : Z) : Gen Z :=
  r <- mathRandom ;;
  ret (laneOf laneCount r).

(** [[10, 50, 100][Math.floor(Math.random() * 3)]]. *)
Definition randomPoints : Gen (option Z) :=
  r <- mathRandom ;;
  ret (arrayGet [10; 50; 100]%Z (Qfloor (r * 3))).

(** The letter branch, when some letter is still missing. *)
Definition spawnLetter (store : Store) (lane : Z) (spawnZ : Q)
  (availableIndices : list Z) (nextLetter : Q) : Gen Spawned :=
  let target := ["H"; "U"; "N"; "T"; "E"; "R"]%string in
  r <- mathRandom ;;
  let chosenIndex :=
    arrayGet availableIndices
      (Qfloor (r * inject_Z (Z.of_nat (List.length availableIndices)))) in
  let val := match chosenIndex with Some i => arrayGet target i | None => None end in
  let col := match chosenIndex with Some i => arrayGet HUNTER_COLORS i | None => None end in
  u <- uuidv4 ;;
  ret (mkSpawned
         [mkObject u LETTER (mkVec3 (laneX lane) 1.0 spawnZ) true
                   val col chosenIndex None None]
         (nextLetter + getLetterInterval (level store))
         true).

(** The fallback reward of the letter branch. *)
Definition spawnFallbackGem (lane : Z) (spawnZ : Q) (nextLetter : Q)
  : Gen Spawned :=
  u <- uuidv4 ;;
  ret (mkSpawned [fallbackGem u lane spawnZ] nextLetter true).

(** A cluster of enemies, one per chosen lane. *)
Definition spawnCluster (store : Store) (spawnType : ObjectType) (spawnZ : Q)
  : Gen (list GameObject) :=
  let maxLane := (laneCount store / 2)%Z in
  availableLanes <- shuffled (laneIndexes maxLane) ;;
  let maxEnemies := level store in
  r <- mathRandom ;;
  let count := Qceiling (r * inject_Z maxEnemies) in
  let count := Z.min count (Z.of_nat (List.length availableLanes)) in
  forEach (fun lane =>
             let col := match spawnType with
                        | MONSTER => "#6a1b9a"
                        | _ => "#4e342e"
                        end%string in
             u <- uuidv4 ;;
             ret [mkObject u spawnType (mkVec3 (laneX lane) 0.6 spawnZ) true
                           None (Some col) None None (Some false)])
          (firstn (Z.to_nat count) availableLanes).

(** A row of one or two rocks, each with an optional artifact above it. *)
Definition spawnRocks (store : Store) (spawnZ : Q) : Gen (list GameObject) :=
  let maxLane := (laneCount store / 2)%Z in
  availableLanes <- shuffled (laneIndexes maxLane) ;;
  r <- mathRandom ;;
  let countToSpawn := if r >? 0.6 then 2%Z else 1%Z in
  let countToSpawn := Z.min countToSpawn (Z.of_nat (List.length availableLanes)) in
  forEach (fun lane =>
             u <- uuidv4 ;;
             let rock :=
               mkObject u OBSTACLE (mkVec3 (laneX lane) 0.4 spawnZ) true
                        None (Some "#546e7a"%string) None None None in
             r <- mathRandom ;;
             if r <? 0.3 then
               pts <- randomPoints ;;
               u' <- uuidv4 ;;
               ret [rock;
                    mkObject u' GEM (mkVec3 (laneX lane) 2.0 spawnZ) true
                             None (Some (gemColorOf pts)) None pts None]
             else ret [rock])
          (firstn (Z.to_nat countToSpawn) availableLanes).

(** A standalone artifact. *)
Definition spawnGem (store : Store) (spawnZ : Q) : Gen (list GameObject) :=
  lane <- getRandomLane (laneCount store) ;;
  pts <- randomPoints ;;
  u <- uuidv4 ;;
  ret [mkObject u GEM (mkVec3 (laneX lane) 1.2 spawnZ) true
                None (Some (gemColorOf pts)) None pts None].

(** The [else if (Math.random() > 0.1)] branch, after its gate was passed. *)
Definition spawnMix (store : Store) (spawnZ : Q) : Gen (list GameObject) :=
  let threshold := if (level store =? 1)%Z then 0.6 else 0.2 in
  r <- mathRandom ;;
  let isObstacle := r >? threshold in
  if isObstacle then
    (* Level 2: boars take priority *)
    boar <- (if (level store =? 2)%Z
             then r <- mathRandom ;; ret (r <? 0.4)
             else ret false) ;;
    (* Level 3: monsters take priority *)
    monster <- (if (level store =? 3)%Z
                then r <- mathRandom ;; ret (r <? 0.4)
                else ret false) ;;
    let spawnType :=
      if monster then MONSTER else if boar then ALIEN else OBSTACLE in
    let isHazard := boar || monster in
    (* the draw of [!isHazard && Math.random() < 0.2 && level >= 1] *)
    _ <- (if negb isHazard then r <- mathRandom ;; ret tt else ret tt) ;;
    if isHazard then spawnCluster store spawnType spawnZ
    else spawnRocks store spawnZ
  else spawnGem store spawnZ.

(** "2. Spawning Logic" of the frame callback. *)
Definition spawning (store : Store) (kept : list GameObject)
  (distance nextLetter : Q) : Gen Spawned :=
  let fz := furthestZ kept in
  if fz >? - SPAWN_DISTANCE then
    let spawnZ := spawnZOf store fz in
    let isLetterDue := distance >=? nextLetter in
    if isLetterDue then
      lane <- getRandomLane (laneCount store) ;;
      let availableIndices := availableIndicesOf (collectedLetters store) in
      match availableIndices with
      | _ :: _ => spawnLetter store lane spawnZ availableIndices nextLetter
      | [] => spawnFallbackGem lane spawnZ nextLetter
      end
    else
      r <- mathRandom ;;
      if r >? 0.1 then
        pushed <- spawnMix store spawnZ ;;
        ret (mkSpawned pushed nextLetter true)
      else ret (mkSpawned [] nextLetter false)
  else ret (mkSpawned [] nextLetter false).

(** ** "1. Move & Update": the loop over [currentObjects] *)

(** The variables the loop updates.  [currentObjects] is [currentObjects] itself,
    whose elements the loop mutates in place: it is what [objectsRef.current]
    still holds when the frame ends without [hasChanges]. *)
Record Loop : Set := mkLoop {
  keptObjects : list GameObject;
  newSpawns : list GameObject;
  loopCalls : list Call;          (* the outside calls so far, in order *)
  hasChanges : bool;
  loopUuid : nat;                 (* the next uuid *)
  currentObjects : list GameObject  (* the elements visited, as mutated *)
}.

Fixpoint objectLoop (playerPos : Vec3) (dist safeDelta : Q)
  (objs : list GameObject) (acc : Loop) : Loop :=
  match objs with
  | [] => acc
  | obj :: rest =>
      let it := iteration playerPos dist safeDelta (loopUuid acc) obj in
      objectLoop playerPos dist safeDelta rest
        (mkLoop (keptObjects acc ++ (if it_keep it then [it_obj it] else []))
                (newSpawns acc ++ it_spawn it)
                (loopCalls acc ++ it_calls it)
                (hasChanges acc || it_changes it)
                (it_uuid it)
                (currentObjects acc ++ [it_obj it]))
  end.

(** ** The frame callback *)

Definition safeDeltaOf (delta : Q) : Q := Qmin delta 0.05.

(** [playerPos]: the world position of the player object when the ref is
    set, the origin otherwise. *)
Definition playerPosOf (player : option Vec3) : Vec3 :=
  match player with
  | Some p => p
  | None => mkVec3 0 0 0
  end.

(** The loop of one frame, run from the empty accumulators. *)
Definition frameLoop (store : Store) (delta : Q) (player : option Vec3)
  (st : Refs) : Loop :=
  let safeDelta := safeDeltaOf delta in
  objectLoop (playerPosOf player) (speed store * safeDelta) safeDelta
             (objectsRef st) (mkLoop [] [] [] false (uuidCounter st) []).

(** The spawning block of one frame, after that loop. *)
Definition frameSpawn (store : Store) (delta : Q) (player : option Vec3)
  (st : Refs) : Spawned * Supply :=
  let lp := frameLoop store delta player st in
  spawning store (keptObjects lp ++ newSpawns lp)
           (distanceTraveled st + speed store * safeDeltaOf delta)
           (nextLetterDistance st)
           (mkSupply (randomCursor st) (loopUuid lp)).

(** The second [useFrame] callback: the refs afterwards and its calls. *)
Definition useFrame (store : Store) (delta : Q) (player : option Vec3)
  (st : Refs) : Refs * list Call :=
  match status store with
  | PLAYING =>
      let lp := frameLoop store delta player st in
      let (sp, sup) := frameSpawn store delta player st in
      let kept := (keptObjects lp ++ newSpawns lp) ++ sp_pushed sp in
      let changed := hasChanges lp || sp_changes sp in
      (mkRefs (if changed then kept else currentObjects lp)
              (if changed then S (renderTrigger st) else renderTrigger st)
              (prevStatus st) (prevLevel st)
              (distanceTraveled st + speed store * safeDeltaOf delta)
              (sp_nextLetterDistance sp)
              (sUuid sup) (sRandom sup),
       loopCalls lp)
  | _ => (st, [])
  end.

(** ** The reset/transition effect ([useEffect] on [status] and [level]) *)

Definition shopPortal (uuid : nat) : GameObject :=
  mkObject uuid SHOP_PORTAL (mkVec3 0 0 (-100)) true None None None None None.

Definition useEffect (store : Store) (st : Refs) : Refs * list Call :=
  let isRestart :=
    GameStatus_eqb (status store) PLAYING &&
    GameStatus_eqb (prevStatus st) GAME_OVER in
  let isMenuReset := GameStatus_eqb (status store) MENU in
  let isLevelUp :=
    negb (level store =? prevLevel st)%Z &&
    GameStatus_eqb (status store) PLAYING in
  let isVictoryReset :=
    GameStatus_eqb (status store) PLAYING &&
    GameStatus_eqb (prevStatus st) VICTORY in
  if isMenuReset || isRestart || isVictoryReset then
    (mkRefs [] (S (renderTrigger st)) (status store) (level store)
            0 (getLetterInterval 1) (uuidCounter st) (randomCursor st),
     [])
  else if isLevelUp && (level store >? 1)%Z then
    (mkRefs (filter (fun obj => vz (position obj) >? -80) (objectsRef st)
               ++ [shopPortal (uuidCounter st)])
            (S (renderTrigger st)) (status store) (level store)
            (distanceTraveled st)
            (distanceTraveled st - SPAWN_DISTANCE
               + getLetterInterval (level store))
            (S (uuidCounter st)) (randomCursor st),
     [])
  else if GameStatus_eqb (status store) GAME_OVER
          || GameStatus_eqb (status store) VICTORY then
    (mkRefs (objectsRef st) (renderTrigger st) (status store) (level store)
            (distanceTraveled st) (nextLetterDistance st)
            (uuidCounter st) (randomCursor st),
     [setDistance (Qfloor (distanceTraveled st))])
  else
    (mkRefs (objectsRef st) (renderTrigger st) (status store) (level store)
            (distanceTraveled st) (nextLetterDistance st)
            (uuidCounter st) (randomCursor st),
     []).

(** The refs as the first render creates them. *)
Definition initialRefs (store : Store) : Refs :=
  mkRefs [] 0 (status store) (level store) 0 BASE_LETTER_INTERVAL 0 0.

(** ** Runs: frames and effect runs in the order they happen *)

Inductive Tick : Set :=
  | frame (store : Store) (delta : Q) (player : option Vec3)
  | effect (store : Store).

Definition tick (t : Tick) (st : Refs) : Refs * list Call :=
  match t with
  | frame store delta player => useFrame store delta player st
  | effect store => useEffect store st
  end.

(** The refs after a run and all its calls, in order. *)
Fixpoint run (ts : list Tick) (st : Refs) : Refs * list Call :=
  match ts with
  | [] => (st, [])
  | t :: rest =>
      let (st1, calls1) := tick t st in
      let (st2, calls2) := run rest st1 in
      (st2, calls1 ++ calls2)
  end.


(** What the spawning block pushed, frame by frame, along a run of frames. *)
Fixpoint emissions (frames : list (Store * Q * option Vec3)) (st : Refs)
  : list (list GameObject) :=
  match frames with
  | [] => []
  | (store, delta, player) :: rest =>
      sp_pushed (fst (frameSpawn store delta player st))
        :: emissions rest (fst (useFrame store delta player st))
  end.

(** The refs after a run of frames. *)
Fixpoint afterFrames (frames : list (Store * Q * option Vec3)) (st : Refs)
  : Refs :=
  match frames with
  | [] => st
  | (store, delta, player) :: rest =>
      afterFrames rest (fst (useFrame store delta player st))
  end.

(** All six letter indexes are in [collectedLetters]. *)
Definition allSixCollected (store : Store) : Prop :=
  forall i : Z, (0 <= i < 6)%Z -> In i (collectedLetters store).

(** ** What one iteration does to its object, whatever the uuid supply *)

Definition objAfter (playerPos : Vec3) (dist safeDelta : Q) (obj : GameObject)
  : GameObject := it_obj (iteration playerPos dist safeDelta 0 obj).

Definition objKept (playerPos : Vec3) (dist safeDelta : Q) (obj : GameObject)
  : list GameObject :=
  if it_keep (iteration playerPos dist safeDelta 0 obj)
  then [objAfter playerPos dist safeDelta obj] else [].

Definition objCalls (playerPos : Vec3) (dist safeDelta : Q) (obj : GameObject)
  : list Call := it_calls (iteration playerPos dist safeDelta 0 obj).

Definition objChanges (playerPos : Vec3) (dist safeDelta : Q)
  (obj : GameObject) : bool :=
  it_changes (iteration playerPos dist safeDelta 0 obj).

(** The frames one entity lives through: each frame gives the loop's
    player position, scroll distance and clamped delta.  The entity is
    followed from iteration to iteration for as long as it is kept. *)
Fixpoint entityLife (frames : list (Vec3 * Q * Q)) (uuid : nat)
  (obj : GameObject) : list Iteration :=
  match frames with
  | [] => []
  | (playerPos, dist, safeDelta) :: rest =>
      let it := iteration playerPos dist safeDelta uuid obj in
      it :: (if it_keep it then entityLife rest (it_uuid it) (it_obj it)
             else [])
  end.

(** Every id in the collection was handed out by the uuid supply. *)
Definition uuidsFresh (st : Refs) : Prop :=
  Forall (fun obj => (id obj < uuidCounter st)%nat) (objectsRef st).

(** The refs after the full reset of the effect, and after an effect run
    that only notes the status and the level it saw. *)
Definition resetRefs (store : Store) (st : Refs) : Refs :=
  mkRefs [] (S (renderTrigger st)) (status store) (level store) 0
         (getLetterInterval 1) (uuidCounter st) (randomCursor st).

Definition notedRefs (store : Store) (st : Refs) : Refs :=
  mkRefs (objectsRef st) (renderTrigger st) (status store) (level store)
         (distanceTraveled st) (nextLetterDistance st) (uuidCounter st)
         (randomCursor st).

(** What a computation pushed, against the uuid supply it started from:
    the supply only moved forward and every pushed id was handed out in
    between. *)
Definition pushedFresh (s : Supply) (r : list GameObject * Supply) : Prop :=
  (sUuid s <= sUuid (snd r))%nat
  /\ Forall (fun o => (sUuid s <= id o < sUuid (snd r))%nat) (fst r).

(** * Properties *)

(** ** Boolean tests on rationals *)

Lemma Qltb_true (x y : Q) : (x <? y) = true <-> x < y.
Proof.
  unfold Qltb. rewrite negb_true_iff, <- not_true_iff_false, Qle_bool_iff.
  split; [apply Qnot_le_lt | apply Qlt_not_le].
Qed.

Lemma Qltb_false (x y : Q) : (x <? y) = false <-> y <= x.
Proof.
  unfold Qltb. rewrite negb_false_iff. apply Qle_bool_iff.
Qed.

Lemma Qgtb_true (x y : Q) : (x >? y) = true <-> y < x.
Proof. apply Qltb_true. Qed.

Lemma Qgtb_false (x y : Q) : (x >? y) = false <-> x <= y.
Proof. apply Qltb_false. Qed.

Lemma Qgeb_true (x y : Q) : (x >=? y) = true <-> y <= x.
Proof. apply Qle_bool_iff. Qed.

(** ** The loop, projection by projection *)

Section LoopFacts.

Variables (playerPos : Vec3) (dist safeDelta : Q).

Lemma iteration_uuid_irrelevant (u : nat) (obj : GameObject) :
  it_obj (iteration playerPos dist safeDelta u obj)
    = objAfter playerPos dist safeDelta obj
  /\ it_keep (iteration playerPos dist safeDelta u obj)
    = it_keep (iteration playerPos dist safeDelta 0 obj)
  /\ it_calls (iteration playerPos dist safeDelta u obj)
    = objCalls playerPos dist safeDelta obj
  /\ it_changes (iteration playerPos dist safeDelta u obj)
    = objChanges playerPos dist safeDelta obj.
Proof. repeat split. Qed.

Lemma objectLoop_kept (objs : list GameObject) (acc : Loop) :
  keptObjects (objectLoop playerPos dist safeDelta objs acc)
    = keptObjects acc ++ flat_map (objKept playerPos dist safeDelta) objs.
Proof.
  revert acc. induction objs as [|obj rest IH]; intros acc; simpl.
  - now rewrite app_nil_r.
  - rewrite IH. simpl. now rewrite <- app_assoc.
Qed.

Lemma objectLoop_calls (objs : list GameObject) (acc : Loop) :
  loopCalls (objectLoop playerPos dist safeDelta objs acc)
    = loopCalls acc ++ flat_map (objCalls playerPos dist safeDelta) objs.
Proof.
  revert acc. induction objs as [|obj rest IH]; intros acc; simpl.
  - now rewrite app_nil_r.
  - rewrite IH. simpl. now rewrite <- app_assoc.
Qed.

Lemma objectLoop_visited (objs : list GameObject) (acc : Loop) :
  currentObjects (objectLoop playerPos dist safeDelta objs acc)
    = currentObjects acc ++ map (objAfter playerPos dist safeDelta) objs.
Proof.
  revert acc. induction objs as [|obj rest IH]; intros acc; simpl.
  - now rewrite app_nil_r.
  - rewrite IH. simpl. now rewrite <- app_assoc.
Qed.

Lemma objectLoop_changes (objs : list GameObject) (acc : Loop) :
  hasChanges (objectLoop playerPos dist safeDelta objs acc)
    = hasChanges acc || existsb (objChanges playerPos dist safeDelta) objs.
Proof.
  revert acc. induction objs as [|obj rest IH]; intros acc; simpl.
  - now rewrite orb_false_r.
  - rewrite IH. cbn [hasChanges]. now rewrite <- orb_assoc.
Qed.

(** An iteration that sets no [hasChanges] keeps its object and spawns
    nothing. *)
Lemma quiet_iteration (u : nat) (obj : GameObject) :
  objChanges playerPos dist safeDelta obj = false ->
  it_keep (iteration playerPos dist safeDelta u obj) = true
  /\ it_spawn (iteration playerPos dist safeDelta u obj) = []
  /\ it_uuid (iteration playerPos dist safeDelta u obj) = u.
Proof.
  unfold objChanges, iteration; cbn [it_changes it_keep it_spawn it_uuid].
  intros H.
  apply orb_false_elim in H as [H Hrem].
  apply orb_false_elim in H as [Hag Hco].
  rewrite Hag, Hrem. repeat split.
  rewrite andb_true_r.
  revert Hco. unfold collide, damageHit, collectHit.
  repeat match goal with
         | |- context [if ?b then _ else _] => destruct b
         | |- context [match ?t with OBSTACLE => _ | _ => _ end] => destruct t
         end; cbn; congruence.
Qed.

Lemma objectLoop_quiet (objs : list GameObject) (acc : Loop) :
  existsb (objChanges playerPos dist safeDelta) objs = false ->
  keptObjects (objectLoop playerPos dist safeDelta objs acc)
    = keptObjects acc ++ map (objAfter playerPos dist safeDelta) objs
  /\ newSpawns (objectLoop playerPos dist safeDelta objs acc) = newSpawns acc
  /\ loopUuid (objectLoop playerPos dist safeDelta objs acc) = loopUuid acc.
Proof.
  revert acc. induction objs as [|obj rest IH]; intros acc.
  - intros _. cbn. now rewrite app_nil_r.
  - intros H. cbn [existsb] in H. apply orb_false_elim in H as [Ho Hrest].
    cbn [objectLoop].
    destruct (quiet_iteration (loopUuid acc) obj Ho) as (Hk & Hs & Hu).
    match goal with
    | |- context [objectLoop _ _ _ rest ?a] =>
        destruct (IH a Hrest) as (IHk & IHs & IHu)
    end.
    rewrite IHk, IHs, IHu. cbn [keptObjects newSpawns loopUuid map].
    rewrite Hk, Hs, Hu, app_nil_r, <- app_assoc. now repeat split.
Qed.

End LoopFacts.

(** ** The frame as a whole *)

(** The spawning block sets [hasChanges] whenever it pushes. *)
Lemma spawning_quiet (store : Store) (kept : list GameObject)
  (distance nextLetter : Q) (sup : Supply) :
  sp_changes (fst (spawning store kept distance nextLetter sup)) = false ->
  spawning store kept distance nextLetter sup
    = (mkSpawned [] nextLetter false,
       if furthestZ kept >? - SPAWN_DISTANCE
       then mkSupply (S (sRandom sup)) (sUuid sup) else sup).
Proof.
  unfold spawning.
  destruct (furthestZ kept >? - SPAWN_DISTANCE); [|reflexivity].
  destruct (distance >=? nextLetter).
  - unfold bind, getRandomLane, bind, mathRandom, ret.
    destruct (availableIndicesOf _); cbn; discriminate.
  - unfold bind, mathRandom. cbn [fst snd].
    destruct (random (sRandom sup) >? 0.1); [|reflexivity].
    destruct (spawnMix _ _ _). cbn. discriminate.
Qed.

Section FrameFacts.

Variables (store : Store) (delta : Q) (player : option Vec3) (st : Refs).
Hypothesis Hplaying : status store = PLAYING.

Let pp := playerPosOf player.
Let sd := safeDeltaOf delta.
Let d := speed store * safeDeltaOf delta.

Lemma useFrame_calls :
  snd (useFrame store delta player st) = flat_map (objCalls pp d sd) (objectsRef st).
Proof.
  unfold useFrame. rewrite Hplaying.
  destruct (frameSpawn store delta player st) as [sp sup]. cbn [snd].
  unfold frameLoop. now rewrite objectLoop_calls.
Qed.

(** Whether or not the frame replaced the array, the collection afterwards
    is: the kept objects in their old order, then the charging boars of
    this frame, then what the spawning block pushed. *)
Lemma useFrame_objects :
  objectsRef (fst (useFrame store delta player st))
    = flat_map (objKept pp d sd) (objectsRef st)
        ++ newSpawns (frameLoop store delta player st)
        ++ sp_pushed (fst (frameSpawn store delta player st)).
Proof.
  unfold useFrame. rewrite Hplaying.
  destruct (frameSpawn store delta player st) as [sp sup] eqn:Hsp.
  cbn [fst objectsRef].
  destruct (hasChanges (frameLoop store delta player st) || sp_changes sp)
    eqn:Hch.
  - unfold frameLoop. rewrite objectLoop_kept. cbn [keptObjects app].
    now rewrite <- app_assoc.
  - apply orb_false_elim in Hch as [Hl Hs].
    unfold frameSpawn in Hsp.
    pose proof (spawning_quiet store _ _ _ _
                  (eq_trans (f_equal (fun x => sp_changes (fst x)) Hsp) Hs)) as Hq.
    rewrite Hq in Hsp. injection Hsp as <- _. cbn [sp_pushed].
    unfold frameLoop in *. rewrite objectLoop_changes in Hl.
    cbn [hasChanges orb] in Hl.
    destruct (objectLoop_quiet _ _ _ (objectsRef st)
                (mkLoop [] [] [] false (uuidCounter st) []) Hl) as (Hk & Hsn & _).
    subst pp sd d.
    rewrite Hsn, objectLoop_visited. cbn [newSpawns currentObjects app].
    rewrite !app_nil_r.
    rewrite objectLoop_kept in Hk. cbn [keptObjects app] in Hk. now rewrite Hk.
Qed.

Lemma useFrame_distance :
  distanceTraveled (fst (useFrame store delta player st))
    = distanceTraveled st + speed store * safeDeltaOf delta.
Proof.
  unfold useFrame. rewrite Hplaying.
  now destruct (frameSpawn store delta player st).
Qed.

Lemma useFrame_nextLetterDistance :
  nextLetterDistance (fst (useFrame store delta player st))
    = sp_nextLetterDistance (fst (frameSpawn store delta player st)).
Proof.
  unfold useFrame. rewrite Hplaying.
  now destruct (frameSpawn store delta player st).
Qed.

End FrameFacts.

(** ** What a single iteration does, case by case *)

Lemma setZ_fields (obj : GameObject) (z : Q) :
  type (setZ obj z) = type obj /\ active (setZ obj z) = active obj
  /\ hasFired (setZ obj z) = hasFired obj /\ id (setZ obj z) = id obj
  /\ vz (position (setZ obj z)) = z
  /\ vx (position (setZ obj z)) = vx (position obj)
  /\ vy (position (setZ obj z)) = vy (position obj).
Proof. now repeat split. Qed.

(** An inactive object goes through the iteration untouched but for its z;
    whether it is kept depends on that z alone. *)
Lemma iteration_inactive (playerPos : Vec3) (dist safeDelta : Q) (u : nat)
  (obj : GameObject) :
  active obj = false ->
  iteration playerPos dist safeDelta u obj
    = let z := vz (position obj) + moveAmount dist safeDelta obj in
      mkIteration (setZ obj z) (negb (z >? REMOVE_DISTANCE)) [] []
                  (z >? REMOVE_DISTANCE) u.
Proof.
  intros Hact. unfold iteration.
  set (z := vz (position obj) + moveAmount dist safeDelta obj).
  assert (Hag : aggro (setZ obj z) = (setZ obj z, false)).
  { unfold aggro. cbn [active setZ]. rewrite Hact, andb_false_r. reflexivity. }
  rewrite Hag. cbn [fst snd].
  assert (Hco : collide playerPos (vz (position obj)) (setZ obj z)
                = mkCollision (setZ obj z) true [] false).
  { unfold collide. cbn [active setZ]. now rewrite Hact. }
  rewrite Hco. reflexivity.
Qed.


(** A rock inside the z window, in the player's lane and with overlapping
    vertical bands is hit. *)
Lemma iteration_obstacle_hit (playerPos : Vec3) (dist safeDelta : Q) (u : nat)
  (obj : GameObject) :
  type obj = OBSTACLE -> active obj = true ->
  vz (position obj) < vz playerPos + 2 ->
  vz playerPos - 2 < vz (position obj) + dist ->
  Qabs (vx (position obj) - vx playerPos) < 0.9 ->
  vy playerPos < 1 -> 0 < vy playerPos + 1.8 ->
  iteration playerPos dist safeDelta u obj
    = let z := vz (position obj) + dist in
      mkIteration (setActive (setZ obj z) false) (negb (z >? REMOVE_DISTANCE))
                  [] [playerHitEvent; takeDamage SCORE_PENALTY_OBSTACLE]
                  true u.
Proof.
  intros Hty Hact Hlo Hhi Hdx Hy1 Hy2. unfold iteration.
  unfold moveAmount. rewrite Hty.
  set (z := vz (position obj) + dist) in *.
  assert (Hag : aggro (setZ obj z) = (setZ obj z, false)).
  { unfold aggro. cbn [type setZ]. now rewrite Hty. }
  rewrite Hag. cbn [fst snd].
  assert (Hco : collide playerPos (vz (position obj)) (setZ obj z)
                = mkCollision (setActive (setZ obj z) false) true
                    [playerHitEvent; takeDamage SCORE_PENALTY_OBSTACLE] true).
  { unfold collide. cbn [active type setZ position vz vx]. rewrite Hact, Hty.
    assert (H1 : (vz (position obj) <? vz playerPos + 2.0) = true)
      by (apply Qltb_true; lra).
    assert (H2 : (z >? vz playerPos - 2.0) = true)
      by (apply Qgtb_true; lra).
    assert (H3 : (Qabs (vx (position obj) - vx playerPos) <? 0.9) = true)
      by (now apply Qltb_true).
    rewrite H1, H2, H3. cbn [andb isDamageSource].
    unfold damageHit, verticalBand. cbn [type setZ fst snd]. rewrite Hty.
    cbn [fst snd].
    assert (H4 : (vy playerPos <? 1.0) = true) by (apply Qltb_true; lra).
    assert (H5 : (vy playerPos + 1.8 >? 0) = true) by (now apply Qgtb_true).
    rewrite H4, H5. cbn [andb penaltyOf app]. reflexivity. }
  rewrite Hco. reflexivity.
Qed.



(** ** Frames and effects outside PLAYING *)

Lemma useFrame_not_playing (store : Store) (delta : Q)
  (player : option Vec3) (st : Refs) :
  status store <> PLAYING -> useFrame store delta player st = (st, []).
Proof.
  intros H. unfold useFrame. destruct (status store); congruence.
Qed.

Lemma run_app (ts1 ts2 : list Tick) (st : Refs) :
  run (ts1 ++ ts2) st
    = (fst (run ts2 (fst (run ts1 st))),
       snd (run ts1 st) ++ snd (run ts2 (fst (run ts1 st)))).
Proof.
  revert st. induction ts1 as [|t ts1 IH]; intros st; cbn [app run].
  - cbn [fst snd app]. now destruct (run ts2 st).
  - destruct (tick t st) as [st1 c1]. rewrite IH.
    destruct (run ts1 st1) as [st2 c2]. cbn [fst snd].
    now rewrite app_assoc.
Qed.

(** Frames under a status other than PLAYING leave the refs alone. *)
Lemma run_idle_frames (store : Store) (idle : list (Q * option Vec3))
  (st : Refs) :
  status store <> PLAYING ->
  run (map (fun f => frame store (fst f) (snd f)) idle) st = (st, []).
Proof.
  intros H. induction idle as [|f idle IH]; cbn [map run tick]; [reflexivity|].
  rewrite (useFrame_not_playing _ _ _ _ H), IH. reflexivity.
Qed.

(** The effect, case by case. *)

Lemma useEffect_reset (store : Store) (st : Refs) :
  status store = MENU
  \/ (status store = PLAYING
      /\ (prevStatus st = GAME_OVER \/ prevStatus st = VICTORY)) ->
  useEffect store st = (resetRefs store st, []).
Proof.
  unfold useEffect, resetRefs.
  intros [H|[H [H'|H']]]; rewrite H; try rewrite H'; reflexivity.
Qed.

Lemma useEffect_shop (store : Store) (st : Refs) :
  status store = SHOP -> useEffect store st = (notedRefs store st, []).
Proof.
  unfold useEffect, notedRefs. intros H. rewrite H.
  cbn [GameStatus_eqb andb orb]. now rewrite andb_false_r.
Qed.

Lemma useEffect_over (store : Store) (st : Refs) :
  status store = GAME_OVER \/ status store = VICTORY ->
  useEffect store st
    = (notedRefs store st, [setDistance (Qfloor (distanceTraveled st))]).
Proof.
  unfold useEffect, notedRefs.
  intros [H|H]; rewrite H; cbn [GameStatus_eqb andb orb];
    now rewrite andb_false_r.
Qed.

Lemma useEffect_resume (store : Store) (st : Refs) :
  status store = PLAYING ->
  prevStatus st <> GAME_OVER -> prevStatus st <> VICTORY ->
  (level store <= 1)%Z \/ level store = prevLevel st ->
  useEffect store st = (notedRefs store st, []).
Proof.
  unfold useEffect, notedRefs. intros H Hg Hv Hl. rewrite H.
  cbn [GameStatus_eqb andb orb].
  assert (Hup : (negb (level store =? prevLevel st)%Z && true
                 && (level store >? 1)%Z) = false).
  { destruct Hl as [Hle|Heq].
    - destruct (Z.gtb_spec (level store) 1); [lia|]. now rewrite andb_false_r.
    - rewrite Heq, Z.eqb_refl. reflexivity. }
  rewrite Hup. destruct (prevStatus st); try congruence; reflexivity.
Qed.

(** C7.  A frame under any status other than PLAYING returns the refs as
    they were (no position moves, [distanceTraveled] does not grow),
    whatever the delta.  Entering SHOP from PLAYING, spending any number of
    frames there and coming back to PLAYING at the same level gives back
    exactly the refs before the shop, so the first frame after the shop
    advances the entities from their pre-shop positions by that frame's own
    clamped delta. *)
Theorem non_playing_frames_freeze_world :
  forall (st : Refs) (shop play : Store) (idle : list (Q * option Vec3)),
    status shop = SHOP -> status play = PLAYING ->
    prevStatus st = PLAYING ->
    level shop = prevLevel st -> level play = prevLevel st ->
    let pause :=
      effect shop :: map (fun f => frame shop (fst f) (snd f)) idle
        ++ [effect play] in
    (forall (store : Store) (delta : Q) (player : option Vec3),
        status store <> PLAYING ->
        useFrame store delta player st = (st, []))
    /\ run pause st = (st, [])
    /\ (forall (delta : Q) (player : option Vec3),
          run (pause ++ [frame play delta player]) st
            = useFrame play delta player st).
Proof.
  intros st shop play idle Hshop Hplay Hprev Hl1 Hl2 pause.
  assert (Hpause : run pause st = (st, [])).
  { subst pause. change (effect shop :: ?l) with ([effect shop] ++ l).
    rewrite run_app, run_app.
    assert (H1 : run [effect shop] st = (notedRefs shop st, []))
      by (cbn [run tick]; now rewrite useEffect_shop).
    rewrite H1. cbn [fst snd].
    rewrite run_idle_frames by (rewrite Hshop; discriminate).
    cbn [fst snd run tick app].
    rewrite useEffect_resume; cbn [notedRefs prevStatus prevLevel];
      try (rewrite ?Hshop; discriminate); auto.
    - unfold notedRefs. cbn. rewrite Hplay, Hl2.
      destruct st; cbn in *. now subst.
    - right. congruence. }
  split; [|split].
  - intros store delta player H. now apply useFrame_not_playing.
  - exact Hpause.
  - intros delta player. rewrite run_app, Hpause. cbn [fst snd run tick app].
    destruct (useFrame play delta player st). now rewrite app_nil_r.
Qed.

(** C8.  Coming to PLAYING from MENU (at level 1, or at the level the menu
    was entered with), from GAME_OVER or from VICTORY, whatever the refs were
    before and however many frames were spent in the state left, the
    collection is empty, [distanceTraveled] is 0 and [nextLetterDistance] is
    the level-1 interval, 150. *)
Theorem full_reset_clears_world :
  forall (st : Refs) (from play : Store) (idle : list (Q * option Vec3)),
    status play = PLAYING ->
    (status from = MENU /\ ((level play <= 1)%Z \/ level play = level from))
    \/ status from = GAME_OVER \/ status from = VICTORY ->
    let st' :=
      fst (run (effect from :: map (fun f => frame from (fst f) (snd f)) idle
                  ++ [effect play]) st) in
    objectsRef st' = []
    /\ distanceTraveled st' = 0
    /\ nextLetterDistance st' = getLetterInterval 1
    /\ getLetterInterval 1 == 150.
Proof.
  intros st from play idle Hplay Hfrom st'. subst st'.
  change (effect from :: ?l) with ([effect from] ++ l).
  rewrite run_app, run_app. cbn [fst snd].
  assert (Hidle : status from <> PLAYING)
    by (destruct Hfrom as [[H _]|[H|H]]; rewrite H; discriminate).
  rewrite run_idle_frames by exact Hidle. cbn [fst run tick].
  destruct Hfrom as [[Hmenu Hlevel]|Hover].
  - (* the reset ran when MENU was entered; leaving it changes nothing *)
    rewrite (useEffect_reset from st) by now left.
    cbn [fst snd app].
    rewrite useEffect_resume; cbn [resetRefs prevStatus prevLevel];
      try (rewrite ?Hmenu; discriminate); auto.
    cbn. repeat split; reflexivity.
  - (* the reset runs on the way back to PLAYING *)
    rewrite (useEffect_over from st) by exact Hover.
    cbn [fst snd app].
    rewrite useEffect_reset.
    + cbn. repeat split; reflexivity.
    + right. split; [exact Hplay|]. cbn [notedRefs prevStatus]. exact Hover.
Qed.

(** ** Which fields the blocks of an iteration can touch *)

Lemma aggro_fields (obj : GameObject) :
  type (fst (aggro obj)) = type obj
  /\ active (fst (aggro obj)) = active obj
  /\ position (fst (aggro obj)) = position obj
  /\ id (fst (aggro obj)) = id obj.
Proof.
  unfold aggro.
  repeat match goal with |- context [if ?b then _ else _] => destruct b end;
    now repeat split.
Qed.

Lemma collide_fields (playerPos : Vec3) (prevZ : Q) (obj : GameObject) :
  type (c_obj (collide playerPos prevZ obj)) = type obj
  /\ position (c_obj (collide playerPos prevZ obj)) = position obj
  /\ hasFired (c_obj (collide playerPos prevZ obj)) = hasFired obj
  /\ id (c_obj (collide playerPos prevZ obj)) = id obj.
Proof.
  unfold collide, damageHit, collectHit.
  destruct (active obj); [|now repeat split].
  destruct (type obj) eqn:Hty; cbn [isDamageSource];
    repeat match goal with |- context [if ?b then _ else _] => destruct b end;
    cbn [c_obj setActive type position hasFired id]; now repeat split.
Qed.

(** The collision block clears [keep] for a portal that opens the shop and
    for nothing else. *)
Lemma collide_keep (playerPos : Vec3) (prevZ : Q) (obj : GameObject) :
  c_keep (collide playerPos prevZ obj)
    = negb (ObjectType_eqb (type obj) SHOP_PORTAL && active obj
            && (Qabs (vz (position obj) - vz playerPos) <? 2)).
Proof.
  unfold collide, damageHit, collectHit.
  destruct (active obj); [|now rewrite andb_false_r].
  destruct (type obj); cbn [ObjectType_eqb andb negb];
    repeat match goal with |- context [if ?b then _ else _] => destruct b end;
    reflexivity.
Qed.

(** No block ever sets [active] back to true. *)
Lemma collide_active (playerPos : Vec3) (prevZ : Q) (obj : GameObject) :
  active obj = false ->
  collide playerPos prevZ obj = mkCollision obj true [] false.
Proof. intros H. unfold collide. now rewrite H. Qed.

Lemma iteration_position (playerPos : Vec3) (dist safeDelta : Q) (u : nat)
  (obj : GameObject) :
  vz (position (it_obj (iteration playerPos dist safeDelta u obj)))
    = vz (position obj) + moveAmount dist safeDelta obj.
Proof.
  unfold iteration. cbn [it_obj].
  destruct (collide_fields playerPos (vz (position obj))
              (fst (aggro (setZ obj
                 (vz (position obj) + moveAmount dist safeDelta obj)))))
    as (_ & -> & _).
  destruct (aggro_fields (setZ obj
              (vz (position obj) + moveAmount dist safeDelta obj)))
    as (_ & _ & -> & _).
  reflexivity.
Qed.

(** An object leaves [keptObjects] only past REMOVE_DISTANCE or as the
    portal that opens the shop; its [active] flag plays no other part. *)
Lemma iteration_keep (playerPos : Vec3) (dist safeDelta : Q) (u : nat)
  (obj : GameObject) :
  it_keep (iteration playerPos dist safeDelta u obj)
    = let z := vz (position obj) + moveAmount dist safeDelta obj in
      negb ((z >? REMOVE_DISTANCE)
            || (ObjectType_eqb (type obj) SHOP_PORTAL && active obj
                && (Qabs (z - vz playerPos) <? 2))).
Proof.
  pose proof (iteration_position playerPos dist safeDelta u obj) as Hz.
  unfold iteration in *. cbn [it_keep it_obj] in *. cbv zeta.
  rewrite Hz, collide_keep.
  destruct (aggro_fields (setZ obj
              (vz (position obj) + moveAmount dist safeDelta obj)))
    as (-> & -> & -> & _).
  cbn [setZ type active position vz].
  rewrite negb_orb. apply andb_comm.
Qed.


(** C4.  An entity whose [active] flag is false contributes no call to a
    Playing frame (the calls of the frame are those of the other entities),
    and through every later frame of its life it makes no call, spawns
    nothing and stays inactive. *)
Theorem inactive_entity_triggers_nothing :
  forall (store : Store) (delta : Q) (player : option Vec3) (st : Refs)
         (before rest : list GameObject) (obj : GameObject),
    status store = PLAYING ->
    objectsRef st = before ++ obj :: rest ->
    active obj = false ->
    let pp := playerPosOf player in
    let sd := safeDeltaOf delta in
    let d := speed store * sd in
    objCalls pp d sd obj = []
    /\ active (objAfter pp d sd obj) = false
    /\ snd (useFrame store delta player st)
       = flat_map (objCalls pp d sd) before ++ flat_map (objCalls pp d sd) rest
    /\ forall (frames : list (Vec3 * Q * Q)) (u : nat),
         Forall (fun it => it_calls it = [] /\ it_spawn it = []
                           /\ active (it_obj it) = false)
                (entityLife frames u obj).
Proof.
  intros store delta player st before rest obj Hplay Hobjs Hact pp sd d.
  assert (Hcalls : objCalls pp d sd obj = [])
    by (unfold objCalls; now rewrite iteration_inactive).
  split; [exact Hcalls|]. split.
  { unfold objAfter. now rewrite iteration_inactive. }
  split.
  - rewrite (useFrame_calls store delta player st Hplay), Hobjs.
    fold pp sd d. rewrite flat_map_app. cbn [flat_map]. now rewrite Hcalls.
  - intros frames. clear Hobjs Hcalls. revert obj Hact.
    induction frames as [|[[p dist'] sd'] frames IH]; intros obj Hact u;
      cbn [entityLife]; [constructor|].
    rewrite iteration_inactive by exact Hact. cbv zeta.
    cbn [it_keep it_obj it_uuid].
    constructor; [now repeat split|].
    destruct (negb _); [|constructor].
    apply IH. exact Hact.
Qed.

(** ** The uuid supply *)

Lemma objectLoop_app (playerPos : Vec3) (dist safeDelta : Q)
  (objs1 objs2 : list GameObject) (acc : Loop) :
  objectLoop playerPos dist safeDelta (objs1 ++ objs2) acc
    = objectLoop playerPos dist safeDelta objs2
        (objectLoop playerPos dist safeDelta objs1 acc).
Proof.
  revert acc. induction objs1 as [|obj objs1 IH]; intros acc;
    cbn [app objectLoop]; [reflexivity | apply IH].
Qed.

(** The uuid supply of an iteration moves by one per pushed boar. *)
Lemma iteration_uuid (playerPos : Vec3) (dist safeDelta : Q) (u : nat)
  (obj : GameObject) :
  let it := iteration playerPos dist safeDelta u obj in
  map id (it_spawn it) = seq u (List.length (it_spawn it))
  /\ it_uuid it = (u + List.length (it_spawn it))%nat.
Proof.
  unfold iteration; cbn [it_spawn it_uuid]. destruct (snd (aggro _)); cbn.
  - split; [reflexivity | lia].
  - split; [reflexivity | lia].
Qed.

(** The boars pushed by the loop carry the uuids handed out during it, in
    order. *)
Lemma objectLoop_spawns (playerPos : Vec3) (dist safeDelta : Q)
  (objs : list GameObject) (acc : Loop) :
  exists pushed,
    newSpawns (objectLoop playerPos dist safeDelta objs acc)
      = newSpawns acc ++ pushed
    /\ map id pushed = seq (loopUuid acc) (List.length pushed)
    /\ loopUuid (objectLoop playerPos dist safeDelta objs acc)
       = (loopUuid acc + List.length pushed)%nat.
Proof.
  revert acc. induction objs as [|obj rest IH]; intros acc; cbn [objectLoop].
  - exists []. cbn. rewrite app_nil_r. split; [reflexivity|]. split; [reflexivity|lia].
  - destruct (iteration_uuid playerPos dist safeDelta (loopUuid acc) obj)
      as (Hids & Hu).
    match goal with
    | |- context [objectLoop _ _ _ rest ?a] =>
        destruct (IH a) as (more & Hs & Hm & Hn)
    end.
    cbn [newSpawns loopUuid] in *.
    exists (it_spawn (iteration playerPos dist safeDelta (loopUuid acc) obj)
              ++ more).
    rewrite Hs, Hn, Hu, <- app_assoc, map_app, length_app, seq_app, Hids, Hm, Hu.
    split; [reflexivity|]. split; [reflexivity|lia].
Qed.


Lemma pushedFresh_weaken (s0 s : Supply) (r : list GameObject * Supply) :
  (sUuid s0 <= sUuid s)%nat -> pushedFresh s r -> pushedFresh s0 r.
Proof.
  intros Hle [Hmono Hids]. split; [lia|].
  eapply Forall_impl; [|exact Hids]. cbn. intros o Ho. lia.
Qed.

Lemma forEach_fresh {A : Type} (f : A -> Gen (list GameObject)) :
  (forall a s, pushedFresh s (f a s)) ->
  forall l s, pushedFresh s (forEach f l s).
Proof.
  intros Hf. induction l as [|a l IH]; intros s; cbn [forEach].
  - split; cbn; [lia | constructor].
  - unfold bind. destruct (Hf a s) as [H1 H1']. destruct (f a s) as [bs s1].
    destruct (IH s1) as [H2 H2']. destruct (forEach f l s1) as [cs s2].
    unfold pushedFresh, ret. cbn [fst snd] in *. split; [lia|].
    apply Forall_app. split.
    + eapply Forall_impl; [|exact H1']. cbn. intros o Ho. lia.
    + eapply Forall_impl; [|exact H2']. cbn. intros o Ho. lia.
Qed.

Ltac fresh_leaf :=
  unfold pushedFresh; cbn [fst snd sUuid sRandom id];
  split; [lia|];
  repeat (apply Forall_cons; [cbn [id fallbackGem]; lia|]); apply Forall_nil.

Lemma spawnCluster_fresh (store : Store) (t : ObjectType) (spawnZ : Q)
  (s : Supply) : pushedFresh s (spawnCluster store t spawnZ s).
Proof.
  unfold spawnCluster, bind at 1 2, shuffled, mathRandom.
  destruct (randomSort _ _) as [lanes c].
  eapply pushedFresh_weaken; [|apply forEach_fresh].
  - cbn. lia.
  - intros lane s1. unfold bind, uuidv4, ret. fresh_leaf.
Qed.

Lemma spawnRocks_fresh (store : Store) (spawnZ : Q) (s : Supply) :
  pushedFresh s (spawnRocks store spawnZ s).
Proof.
  unfold spawnRocks, bind at 1 2, shuffled, mathRandom.
  destruct (randomSort _ _) as [lanes c].
  eapply pushedFresh_weaken; [|apply forEach_fresh].
  - cbn. lia.
  - intros lane s1.
    cbv beta iota zeta delta [bind uuidv4 mathRandom randomPoints ret].
    cbn [fst snd sUuid sRandom].
    destruct (random (sRandom s1) <? 0.3); fresh_leaf.
Qed.

Lemma spawnGem_fresh (store : Store) (spawnZ : Q) (s : Supply) :
  pushedFresh s (spawnGem store spawnZ s).
Proof.
  cbv beta iota zeta
      delta [spawnGem getRandomLane randomPoints bind mathRandom uuidv4 ret].
  fresh_leaf.
Qed.

Lemma spawnMix_fresh (store : Store) (spawnZ : Q) (s : Supply) :
  pushedFresh s (spawnMix store spawnZ s).
Proof.
  unfold spawnMix.
  cbv beta iota zeta delta [bind mathRandom ret].
  repeat match goal with
         | |- context [if ?b then _ else _] =>
             destruct b; cbv beta iota zeta delta [bind mathRandom ret];
             cbn [fst snd sRandom sUuid orb negb]
         end;
    (eapply pushedFresh_weaken;
     [| first [ apply spawnCluster_fresh | apply spawnRocks_fresh
              | apply spawnGem_fresh ] ]; cbn; lia).
Qed.

Lemma spawning_fresh (store : Store) (kept : list GameObject)
  (distance nextLetter : Q) (s : Supply) :
  pushedFresh s (sp_pushed (fst (spawning store kept distance nextLetter s)),
                 snd (spawning store kept distance nextLetter s)).
Proof.
  unfold spawning.
  destruct (furthestZ kept >? - SPAWN_DISTANCE);
    [|unfold pushedFresh, ret; cbn [fst snd sp_pushed];
      split; [lia | constructor]].
  destruct (distance >=? nextLetter).
  - destruct (availableIndicesOf _);
      cbv beta iota zeta
          delta [bind getRandomLane mathRandom ret spawnFallbackGem
                 spawnLetter uuidv4];
      cbn [fst snd sp_pushed]; fresh_leaf.
  - cbv beta iota zeta delta [bind mathRandom ret].
    destruct (random (sRandom s) >? 0.1);
      [|unfold pushedFresh; cbn [fst snd sp_pushed];
        split; [cbn; lia | constructor]].
    pose proof (spawnMix_fresh store (spawnZOf store (furthestZ kept))
                  (mkSupply (S (sRandom s)) (sUuid s))) as H.
    destruct (spawnMix _ _ _) as [pushed s1].
    cbn [fst snd sp_pushed]. exact H.
Qed.

Lemma objAfter_id (playerPos : Vec3) (dist safeDelta : Q) (obj : GameObject) :
  id (objAfter playerPos dist safeDelta obj) = id obj.
Proof.
  unfold objAfter, iteration. cbn [it_obj].
  destruct (collide_fields playerPos (vz (position obj))
              (fst (aggro (setZ obj
                 (vz (position obj) + moveAmount dist safeDelta obj)))))
    as (_ & _ & _ & ->).
  destruct (aggro_fields (setZ obj
              (vz (position obj) + moveAmount dist safeDelta obj)))
    as (_ & _ & _ & ->).
  reflexivity.
Qed.

(** The ids of the collection stay below the uuid supply, frame after
    frame and effect after effect. *)
Lemma useFrame_uuidsFresh (store : Store) (delta : Q) (player : option Vec3)
  (st : Refs) :
  uuidsFresh st -> uuidsFresh (fst (useFrame store delta player st)).
Proof.
  intros Hfresh.
  destruct (GameStatus_eqb (status store) PLAYING) eqn:Hst.
  2:{ rewrite useFrame_not_playing; [exact Hfresh|].
      intros H. rewrite H in Hst. discriminate. }
  assert (Hplay : status store = PLAYING)
    by (destruct (status store); try discriminate; reflexivity).
  unfold uuidsFresh in *.
  rewrite (useFrame_objects store delta player st Hplay).
  assert (Hu : uuidCounter (fst (useFrame store delta player st))
               = sUuid (snd (frameSpawn store delta player st))).
  { unfold useFrame. rewrite Hplay.
    now destruct (frameSpawn store delta player st). }
  rewrite Hu. clear Hu.
  pose proof (spawning_fresh store
                (keptObjects (frameLoop store delta player st)
                   ++ newSpawns (frameLoop store delta player st))
                (distanceTraveled st + speed store * safeDeltaOf delta)
                (nextLetterDistance st)
                (mkSupply (randomCursor st)
                          (loopUuid (frameLoop store delta player st))))
    as [Hmono Hpushed].
  fold (frameSpawn store delta player st) in Hmono, Hpushed.
  cbn [fst snd sUuid] in Hmono, Hpushed.
  destruct (objectLoop_spawns (playerPosOf player)
              (speed store * safeDeltaOf delta) (safeDeltaOf delta)
              (objectsRef st) (mkLoop [] [] [] false (uuidCounter st) []))
    as (boars & Hs & Hids & Hn).
  fold (frameLoop store delta player st) in Hs, Hn.
  cbn [newSpawns loopUuid app] in Hs, Hids, Hn.
  rewrite !Forall_app. split; [|split].
  - rewrite Forall_forall in *. intros o Ho.
    apply in_flat_map in Ho as (o0 & Ho0 & Ho).
    unfold objKept in Ho. destruct (it_keep _); [|contradiction].
    destruct Ho as [<-|[]]. rewrite objAfter_id.
    specialize (Hfresh o0 Ho0). lia.
  - rewrite Hs, Forall_forall. intros o Ho.
    assert (Hin : In (id o) (seq (uuidCounter st) (List.length boars)))
      by (rewrite <- Hids; now apply in_map).
    apply in_seq in Hin. lia.
  - eapply Forall_impl; [|exact Hpushed]. cbn. intros o Ho. lia.
Qed.

Lemma useEffect_uuidsFresh (store : Store) (st : Refs) :
  uuidsFresh st -> uuidsFresh (fst (useEffect store st)).
Proof.
  unfold uuidsFresh, useEffect. intros Hfresh.
  repeat match goal with |- context [if ?b then _ else _] => destruct b end;
    cbn [fst objectsRef uuidCounter]; try exact Hfresh; [constructor|].
  apply Forall_app. split.
  - rewrite Forall_forall in *. intros o Ho.
    apply filter_In in Ho as [Ho _]. specialize (Hfresh o Ho). lia.
  - repeat constructor.
Qed.

Lemma run_uuidsFresh (ts : list Tick) :
  forall st : Refs, uuidsFresh st -> uuidsFresh (fst (run ts st)).
Proof.
  induction ts as [|t ts IH]; intros st Hfresh; cbn [run]; [exact Hfresh|].
  assert (H1 : uuidsFresh (fst (tick t st)))
    by (destruct t; [now apply useFrame_uuidsFresh
                    | now apply useEffect_uuidsFresh]).
  destruct (tick t st) as [st1 c1]. specialize (IH st1 H1).
  destruct (run ts st1) as [st2 c2]. exact IH.
Qed.

Lemma initialRefs_uuidsFresh (store : Store) :
  uuidsFresh (initialRefs store).
Proof. constructor. Qed.

(** ** The idle boar and its charge *)

(** An active idle boar that has not fired and is past -90 after the move
    fires: it is marked and one charging boar is pushed. *)
Lemma iteration_boar_fires (playerPos : Vec3) (dist safeDelta : Q) (u : nat)
  (obj : GameObject) :
  type obj = ALIEN -> active obj = true -> hasFired obj = Some false ->
  -90 < vz (position obj) + dist ->
  let z := vz (position obj) + dist in
  let it := iteration playerPos dist safeDelta u obj in
  hasFired (it_obj it) = Some true
  /\ it_spawn it = [chargingBoar u (setZ obj z)]
  /\ it_obj it
     = c_obj (collide playerPos (vz (position obj))
                (setHasFired (setZ obj z) true)).
Proof.
  intros Hty Hact Hfired Hz z it. subst it. unfold iteration.
  unfold moveAmount. rewrite Hty. fold z.
  assert (Hag : aggro (setZ obj z) = (setHasFired (setZ obj z) true, true)).
  { unfold aggro, notFired. cbn [type active hasFired setZ position vz].
    rewrite Hty, Hact, Hfired. cbn [ObjectType_eqb andb].
    assert (H : (z >? -90) = true) by (now apply Qgtb_true).
    now rewrite H. }
  rewrite Hag. cbn [fst snd it_obj it_spawn].
  split; [|split; reflexivity].
  destruct (collide_fields playerPos (vz (position obj))
              (setHasFired (setZ obj z) true)) as (_ & _ & -> & _).
  reflexivity.
Qed.

(** Once [hasFired] is true it stays true and the iteration pushes no boar. *)
Lemma iteration_fired_stays (playerPos : Vec3) (dist safeDelta : Q) (u : nat)
  (obj : GameObject) :
  hasFired obj = Some true ->
  let it := iteration playerPos dist safeDelta u obj in
  hasFired (it_obj it) = Some true /\ it_spawn it = [].
Proof.
  intros Hfired it. subst it. unfold iteration.
  set (moved := setZ obj _).
  assert (Hag : aggro moved = (moved, false)).
  { unfold aggro, notFired. subst moved. cbn [hasFired setZ].
    rewrite Hfired, andb_false_r. reflexivity. }
  rewrite Hag. cbn [fst snd it_obj it_spawn].
  destruct (collide_fields playerPos (vz (position obj)) moved)
    as (_ & _ & -> & _).
  now split.
Qed.


(** ** The letter branch when no letter is missing *)

Lemma availableIndices_none (store : Store) :
  allSixCollected store -> availableIndicesOf (collectedLetters store) = [].
Proof.
  intros Hall. unfold availableIndicesOf.
  assert (Hin : forall i, (0 <= i < 6)%Z ->
                  negb (existsb (Z.eqb i) (collectedLetters store)) = false).
  { intros i Hi. apply negb_false_iff, existsb_exists.
    exists i. split; [now apply Hall | apply Z.eqb_refl]. }
  cbn [filter].
  rewrite !Hin by lia. reflexivity.
Qed.

(** With a letter due and none missing, the spawning block pushes the
    fallback gem when its horizon gate is open and nothing otherwise; the
    letter threshold is left where it was. *)
Lemma spawning_all_collected (store : Store) (kept : list GameObject)
  (distance nextLetter : Q) (sup : Supply) :
  nextLetter <= distance -> allSixCollected store ->
  spawning store kept distance nextLetter sup
    = if furthestZ kept >? - SPAWN_DISTANCE then
        (mkSpawned
           [fallbackGem (sUuid sup)
              (laneOf (laneCount store) (random (sRandom sup)))
              (spawnZOf store (furthestZ kept))]
           nextLetter true,
         mkSupply (S (sRandom sup)) (S (sUuid sup)))
      else (mkSpawned [] nextLetter false, sup).
Proof.
  intros Hdue Hall. unfold spawning.
  destruct (furthestZ kept >? - SPAWN_DISTANCE); [|reflexivity].
  assert (H : (distance >=? nextLetter) = true) by (now apply Qgeb_true).
  rewrite H, (availableIndices_none store Hall). reflexivity.
Qed.

Lemma safeDelta_nonneg (delta : Q) : 0 <= delta -> 0 <= safeDeltaOf delta.
Proof.
  intros H. unfold safeDeltaOf. apply Q.min_glb; [exact H | lra].
Qed.


(** After a frame of this kind the letter stays due, frame after frame. *)
Lemma emissions_all_collected
  (frames : list (Store * Q * option Vec3)) :
  forall st : Refs,
    Forall (fun f => status (fst (fst f)) = PLAYING
                     /\ allSixCollected (fst (fst f))
                     /\ 0 <= speed (fst (fst f)) /\ 0 <= snd (fst f))
           frames ->
    nextLetterDistance st <= distanceTraveled st ->
    Forall (fun pushed =>
              pushed = []
              \/ exists u lane z, pushed = [fallbackGem u lane z])
           (emissions frames st)
    /\ nextLetterDistance (afterFrames frames st) = nextLetterDistance st
    /\ nextLetterDistance st <= distanceTraveled (afterFrames frames st).
Proof.
  induction frames as [|[[store delta] player] frames IH]; intros st Hok Hdue.
  - cbn. split; [constructor|]. split; [reflexivity | exact Hdue].
  - inversion Hok as [|f fs Hf Hrest]; subst. cbn [fst snd] in Hf.
    destruct Hf as (Hplay & Hall & Hspeed & Hdelta).
    assert (Hd : 0 <= speed store * safeDeltaOf delta)
      by (apply Qmult_le_0_compat; [exact Hspeed | now apply safeDelta_nonneg]).
    assert (Hdue' : nextLetterDistance st
                    <= distanceTraveled st + speed store * safeDeltaOf delta)
      by lra.
    assert (Hsp : sp_pushed (fst (frameSpawn store delta player st)) = []
                  \/ exists u lane z,
                       sp_pushed (fst (frameSpawn store delta player st))
                       = [fallbackGem u lane z]).
    { unfold frameSpawn. rewrite spawning_all_collected by assumption.
      destruct (furthestZ _ >? - SPAWN_DISTANCE); cbn [fst sp_pushed];
        [right; eauto | now left]. }
    assert (Hn : nextLetterDistance (fst (useFrame store delta player st))
                 = nextLetterDistance st).
    { rewrite useFrame_nextLetterDistance by exact Hplay.
      unfold frameSpawn. rewrite spawning_all_collected by assumption.
      now destruct (furthestZ _ >? - SPAWN_DISTANCE). }
    assert (Hdist : distanceTraveled (fst (useFrame store delta player st))
                    = distanceTraveled st + speed store * safeDeltaOf delta)
      by (now apply useFrame_distance).
    destruct (IH (fst (useFrame store delta player st)) Hrest)
      as (IHe & IHn & IHd).
    { rewrite Hn, Hdist. exact Hdue'. }
    cbn [emissions afterFrames]. split; [constructor; assumption|].
    split; [now rewrite IHn | now rewrite <- Hn].
Qed.

(** C10.  Let a Playing frame find a letter due with all six letters
    collected.  It leaves [nextLetterDistance] where it was.  Then, through
    any further Playing frames in which all six letters are still collected
    (no effect run in between, speeds and deltas non-negative), the letter
    is due in every frame, [nextLetterDistance] never moves, and whatever
    the spawning block pushes in a frame is a single fallback gem (GEM,
    100 points): it pushes no obstacle, hazard or letter. *)
Theorem fallback_gem_monopolises_spawner :
  forall (first : Store * Q * option Vec3)
         (later : list (Store * Q * option Vec3)) (st : Refs),
    status (fst (fst first)) = PLAYING ->
    allSixCollected (fst (fst first)) ->
    nextLetterDistance st
      <= distanceTraveled st
         + speed (fst (fst first)) * safeDeltaOf (snd (fst first)) ->
    Forall (fun f => status (fst (fst f)) = PLAYING
                     /\ allSixCollected (fst (fst f))
                     /\ 0 <= speed (fst (fst f)) /\ 0 <= snd (fst f))
           later ->
    Forall (fun pushed =>
              pushed = []
              \/ exists u lane z,
                   pushed = [fallbackGem u lane z]
                   /\ type (fallbackGem u lane z) = GEM
                   /\ points (fallbackGem u lane z) = Some 100%Z)
           (emissions (first :: later) st)
    /\ nextLetterDistance (afterFrames (first :: later) st)
       = nextLetterDistance st
    /\ nextLetterDistance st
       <= distanceTraveled (afterFrames (first :: later) st).
Proof.
  intros [[store delta] player] later st Hplay Hall Hdue Hlater.
  cbn [fst snd] in *.
  set (st1 := fst (useFrame store delta player st)).
  assert (Hn : nextLetterDistance st1 = nextLetterDistance st).
  { subst st1. rewrite useFrame_nextLetterDistance by exact Hplay.
    unfold frameSpawn. rewrite spawning_all_collected by assumption.
    now destruct (furthestZ _ >? - SPAWN_DISTANCE). }
  assert (Hdist : distanceTraveled st1
                  = distanceTraveled st + speed store * safeDeltaOf delta)
    by (now apply useFrame_distance).
  destruct (emissions_all_collected later st1 Hlater) as (He & Hnl & Hd).
  { rewrite Hn, Hdist. exact Hdue. }
  cbn [emissions afterFrames]. fold st1.
  split; [|split; [now rewrite Hnl | now rewrite <- Hn]].
  assert (Hweak : forall pushed,
             pushed = [] \/ (exists u lane z, pushed = [fallbackGem u lane z]) ->
             pushed = []
             \/ exists u lane z,
                  pushed = [fallbackGem u lane z]
                  /\ type (fallbackGem u lane z) = GEM
                  /\ points (fallbackGem u lane z) = Some 100%Z).
  { intros pushed [H|(u & lane & z & H)]; [now left|].
    right. exists u, lane, z. now repeat split. }
  constructor.
  - apply Hweak. unfold frameSpawn.
    rewrite spawning_all_collected by assumption.
    destruct (furthestZ _ >? - SPAWN_DISTANCE); cbn [fst sp_pushed];
      [right; eauto | now left].
  - eapply Forall_impl; [|exact He]. exact Hweak.
Qed.

(** ** The idle boar after it fired *)

Lemma iteration_boar_fires_clear (playerPos : Vec3) (dist safeDelta : Q)
  (u : nat) (obj : GameObject) :
  type obj = ALIEN -> active obj = true -> hasFired obj = Some false ->
  let z := vz (position obj) + dist in
  -90 < z -> z <= vz playerPos - 2 -> z <= REMOVE_DISTANCE ->
  it_obj (iteration playerPos dist safeDelta u obj)
    = setHasFired (setZ obj z) true
  /\ it_keep (iteration playerPos dist safeDelta u obj) = true.
Proof.
  intros Hty Hact Hfired z Hz Hfar Hrem.
  destruct (iteration_boar_fires playerPos dist safeDelta u obj
              Hty Hact Hfired Hz) as (_ & _ & Hobj).
  fold z in Hobj.
  assert (Hco : collide playerPos (vz (position obj))
                        (setHasFired (setZ obj z) true)
                = mkCollision (setHasFired (setZ obj z) true) true [] false).
  { unfold collide. cbn [active type setHasFired setZ position vz].
    rewrite Hact, Hty.
    assert (H : (z >? vz playerPos - 2.0) = false)
      by (apply Qgtb_false; lra).
    rewrite H, andb_false_r. reflexivity. }
  split.
  - now rewrite Hobj, Hco.
  - rewrite iteration_keep. cbv zeta. unfold moveAmount.
    rewrite Hty. fold z. cbn [ObjectType_eqb andb].
    assert (H : (z >? REMOVE_DISTANCE) = false) by (now apply Qgtb_false).
    now rewrite H.
Qed.

(** * Further properties of the frame callback *)

(** ** When an entity is consumed *)

(** What the aggro block leaves alone. *)
Lemma aggro_band (obj : GameObject) :
  verticalBand (fst (aggro obj)) = verticalBand obj
  /\ points (fst (aggro obj)) = points obj
  /\ targetIndex (fst (aggro obj)) = targetIndex obj
  /\ color (fst (aggro obj)) = color obj.
Proof.
  unfold aggro.
  repeat match goal with |- context [if ?b then _ else _] => destruct b end;
    now repeat split.
Qed.

(** The collision block on an active object that is no portal: it acts
    exactly when all of its tests pass. *)
Lemma collide_touch (playerPos : Vec3) (prevZ : Q) (obj : GameObject) :
  type obj <> SHOP_PORTAL -> active obj = true ->
  let touched :=
    (prevZ <? vz playerPos + 2.0)
    && (vz (position obj) >? vz playerPos - 2.0)
    && (Qabs (vx (position obj) - vx playerPos) <? 0.9)
    && (if isDamageSource (type obj)
        then (vy playerPos <? snd (verticalBand obj))
             && (vy playerPos + 1.8 >? fst (verticalBand obj))
        else Qabs (vy (position obj) - vy playerPos) <? 2.5) in
  collide playerPos prevZ obj
    = if touched then
        (if isDamageSource (type obj) then damageHit playerPos obj
         else collectHit playerPos obj)
      else mkCollision obj true [] false.
Proof.
  intros Hty Hact. cbv zeta. unfold collide. rewrite Hact.
  destruct (type obj) eqn:Ht; try congruence; cbn [isDamageSource];
    unfold damageHit, collectHit; rewrite ?Ht;
    repeat match goal with
           | |- context [if ?b then _ else _] =>
               destruct b eqn:?; cbn [andb]
           end; try reflexivity; try discriminate.
Qed.


Lemma verticalBand_setZ (obj : GameObject) (z : Q) :
  verticalBand (setZ obj z) = verticalBand obj.
Proof. reflexivity. Qed.

(** Whether the tests pass decides what happens to the entity. *)
Lemma touch_decides :
  forall (playerPos : Vec3) (dist safeDelta : Q) (obj : GameObject),
    type obj <> SHOP_PORTAL -> active obj = true ->
    let touched := touches playerPos dist safeDelta obj in
    (active (objAfter playerPos dist safeDelta obj) = false <-> touched)
    /\ (objCalls playerPos dist safeDelta obj = [] <-> ~ touched).
Proof.
  intros playerPos dist safeDelta obj Hty Hact touched.
  unfold touches in touched.
  set (z' := vz (position obj) + moveAmount dist safeDelta obj) in *.
  unfold objAfter, objCalls, iteration. cbn [it_obj it_calls]. fold z'.
  destruct (aggro_fields (setZ obj z')) as (Hat & Haa & Hap & _).
  destruct (aggro_band (setZ obj z')) as (Hab & _).
  set (o := fst (aggro (setZ obj z'))) in *.
  cbn [setZ type active position] in Hat, Haa, Hap.
  rewrite verticalBand_setZ in Hab.
  rewrite (collide_touch playerPos (vz (position obj)) o)
    by (rewrite ?Hat, ?Haa; assumption).
  rewrite Hat, Hap, Hab. cbn [vx vy vz].
  set (b := (_ && _ && _ && _)%bool).
  assert (Hb : b = true <-> touched).
  { subst b touched. rewrite !andb_true_iff, !Qltb_true, Qgtb_true.
    destruct (isDamageSource (type obj)).
    - rewrite andb_true_iff, Qltb_true, Qgtb_true.
      split; intros H; repeat split; try tauto; lra.
    - rewrite Qltb_true. split; intros H; repeat split; try tauto; lra. }
  destruct b.
  - assert (Ht : touched) by now apply Hb.
    destruct Ht as (_ & _ & _ & Hov).
    destruct (isDamageSource (type obj)).
    + unfold damageHit. rewrite Hab.
      destruct Hov as [H1 H2].
      apply Qltb_true in H1. apply Qgtb_true in H2. rewrite H1, H2.
      cbn [andb c_obj c_calls setActive active app].
      split; split; intros H; try reflexivity; try (now apply Hb);
        try discriminate; exfalso; apply H; now apply Hb.
    + unfold collectHit. rewrite Hap. cbn [vy].
      apply Qltb_true in Hov. rewrite Hov.
      cbn [c_obj c_calls setActive active].
      split; split; intros H; try reflexivity; try (now apply Hb).
      * destruct (type o), (targetIndex o); discriminate H.
      * exfalso; apply H; now apply Hb.
  - cbn [c_obj c_calls]. rewrite Haa, Hact.
    split; split; intros H; try reflexivity; try discriminate.
    + apply Hb in H. discriminate.
    + intros Ht. apply Hb in Ht. discriminate.
Qed.



(** The iteration of an active damage source that [touches] the player. *)
Lemma iteration_damage_hit (playerPos : Vec3) (dist safeDelta : Q) (u : nat)
  (obj : GameObject) :
  isDamageSource (type obj) = true -> active obj = true ->
  touches playerPos dist safeDelta obj ->
  let moved :=
    fst (aggro (setZ obj (vz (position obj) + moveAmount dist safeDelta obj))) in
  it_obj (iteration playerPos dist safeDelta u obj) = setActive moved false
  /\ it_calls (iteration playerPos dist safeDelta u obj)
     = playerHitEvent
         :: takeDamage (if heavyEnemy (type obj) then 100 else 10)
         :: (if heavyEnemy (type obj)
             then [particleBurstEvent (position moved) "#ff0000" 50]
             else []).
Proof.
  intros Hdmg Hact (Hlo & Hhi & Hdx & Hov) moved.
  rewrite Hdmg in Hov. destruct Hov as [Hy1 Hy2].
  unfold iteration. cbn [it_obj it_calls].
  set (z' := vz (position obj) + moveAmount dist safeDelta obj) in *.
  destruct (aggro_fields (setZ obj z')) as (Hat & Haa & Hap & _).
  destruct (aggro_band (setZ obj z')) as (Hab & _).
  fold moved in Hat, Haa, Hap, Hab. fold moved.
  cbn [setZ type active position] in Hat, Haa, Hap.
  rewrite verticalBand_setZ in Hab.
  assert (Hnp : type moved <> SHOP_PORTAL)
    by (rewrite Hat; intros H; rewrite H in Hdmg; discriminate).
  rewrite (collide_touch playerPos (vz (position obj)) moved Hnp)
    by (now rewrite Haa).
  rewrite Hat, Hap, Hab, Hdmg. cbn [vx vy vz].
  assert (H1 : (vz (position obj) <? vz playerPos + 2.0) = true)
    by (apply Qltb_true; lra).
  assert (H2 : (z' >? vz playerPos - 2.0) = true)
    by (apply Qgtb_true; lra).
  assert (H3 : (Qabs (vx (position obj) - vx playerPos) <? 0.9) = true)
    by (now apply Qltb_true).
  assert (H4 : (vy playerPos <? snd (verticalBand obj)) = true)
    by (now apply Qltb_true).
  assert (H5 : (vy playerPos + 1.8 >? fst (verticalBand obj)) = true)
    by (now apply Qgtb_true).
  rewrite H1, H2, H3, H4, H5. cbn [andb].
  unfold damageHit. rewrite Hab, H4, H5, Hat. cbn [andb c_obj c_calls].
  split; [reflexivity|]. rewrite ?Hap.
  destruct (type obj); try discriminate Hdmg; reflexivity.
Qed.


(** X3.  However long the frame's step is, an active damage source whose
    move takes it from the player's z or before it to the player's z or
    past it is inside the z window: in the player's lane and with
    overlapping bands it is hit.  The window is tested on the z before and
    after the move, so no step is long enough to jump over the player. *)
Theorem damage_source_cannot_jump_over_player :
  forall (playerPos : Vec3) (dist safeDelta : Q) (obj : GameObject),
    isDamageSource (type obj) = true -> active obj = true ->
    vz (position obj) <= vz playerPos ->
    vz playerPos <= vz (position obj) + moveAmount dist safeDelta obj ->
    Qabs (vx (position obj) - vx playerPos) < 0.9 ->
    vy playerPos < snd (verticalBand obj) ->
    fst (verticalBand obj) < vy playerPos + 1.8 ->
    touches playerPos dist safeDelta obj
    /\ active (objAfter playerPos dist safeDelta obj) = false
    /\ damages (objCalls playerPos dist safeDelta obj)
       = [penaltyOf (type obj)].
Proof.
  intros playerPos dist safeDelta obj Hdmg Hact Hlo Hhi Hdx Hy1 Hy2.
  assert (Htouch : touches playerPos dist safeDelta obj).
  { unfold touches. rewrite Hdmg. repeat split; try assumption; lra. }
  destruct (iteration_damage_hit playerPos dist safeDelta 0 obj
              Hdmg Hact Htouch) as (Hobj & Hcalls).
  split; [exact Htouch|]. split.
  - unfold objAfter. now rewrite Hobj.
  - unfold objCalls. rewrite Hcalls.
    destruct (type obj); try discriminate Hdmg; reflexivity.
Qed.


(** An entity that does not touch the player makes no call and keeps its
    [active] flag, active or not. *)
Lemma untouched_entity (playerPos : Vec3) (dist safeDelta : Q)
  (obj : GameObject) :
  type obj <> SHOP_PORTAL ->
  ~ touches playerPos dist safeDelta obj ->
  objCalls playerPos dist safeDelta obj = []
  /\ active (objAfter playerPos dist safeDelta obj) = active obj.
Proof.
  intros Hty Hno. destruct (active obj) eqn:Hact.
  - destruct (touch_decides playerPos dist safeDelta obj Hty Hact)
      as (Ha & Hc).
    split; [now apply Hc|].
    destruct (active (objAfter playerPos dist safeDelta obj)) eqn:H;
      [reflexivity|]. exfalso. apply Hno. now apply Ha.
  - unfold objCalls, objAfter. rewrite iteration_inactive by exact Hact.
    cbv zeta. cbn [it_calls it_obj setZ active]. now split.
Qed.

Lemma lanes_apart (lane1 lane2 : Z) :
  lane1 <> lane2 -> 0.9 <= Qabs (laneX lane2 - laneX lane1).
Proof.
  intros Hne. unfold laneX, LANE_WIDTH.
  destruct (Z_lt_le_dec lane1 lane2) as [Hlt|Hle].
  - apply Qabs_ge.
    assert (H : inject_Z lane1 + 1 <= inject_Z lane2).
    { change 1 with (inject_Z 1). rewrite <- inject_Z_plus.
      rewrite <- Zle_Qle. lia. }
    lra.
  - rewrite Qabs_Qminus. apply Qabs_ge.
    assert (H : inject_Z lane2 + 1 <= inject_Z lane1).
    { change 1 with (inject_Z 1). rewrite <- inject_Z_plus.
      rewrite <- Zle_Qle. lia. }
    lra.
Qed.

(** X4.  Two ways to dodge.  An entity (other than the shop portal)
    centred in one lane never touches a player centred in another lane:
    lanes are 2.2 apart and the lateral test needs less than 0.9.  And a
    damage source never touches a player whose feet are at or above the top
    of its band (1.0 for a rock, 1.6 for a charging boar or a monster,
    y + 0.5 for an idle boar).  In both cases the entity makes no call and
    keeps its [active] flag. *)
Theorem dodged_entity_is_untouched :
  forall (playerPos : Vec3) (dist safeDelta : Q) (obj : GameObject),
    type obj <> SHOP_PORTAL ->
    (exists lane1 lane2 : Z,
        lane1 <> lane2 /\ vx playerPos = laneX lane1
        /\ vx (position obj) = laneX lane2)
    \/ (isDamageSource (type obj) = true
        /\ snd (verticalBand obj) <= vy playerPos) ->
    objCalls playerPos dist safeDelta obj = []
    /\ active (objAfter playerPos dist safeDelta obj) = active obj.
Proof.
  intros playerPos dist safeDelta obj Hty Hdodge.
  apply untouched_entity; [exact Hty|].
  intros (_ & _ & Hdx & Hov).
  destruct Hdodge as [(l1 & l2 & Hne & Hp & Ho)|[Hdmg Habove]].
  - rewrite Hp, Ho in Hdx. pose proof (lanes_apart l1 l2 Hne). lra.
  - rewrite Hdmg in Hov. lra.
Qed.

(** The iteration of an active collectible that [touches] the player. *)
Lemma iteration_collect (playerPos : Vec3) (dist safeDelta : Q) (u : nat)
  (obj : GameObject) :
  type obj = GEM \/ type obj = LETTER -> active obj = true ->
  touches playerPos dist safeDelta obj ->
  let moved :=
    setZ obj (vz (position obj) + moveAmount dist safeDelta obj) in
  iteration playerPos dist safeDelta u obj
    = mkIteration (setActive moved false)
        (negb (vz (position moved) >? REMOVE_DISTANCE)) []
        (match type obj with
         | GEM => [collectGem (orNumber (points obj) 50); playGemCollect]
         | _ => match targetIndex obj with
                | Some i => [collectLetter i; playLetterCollect]
                | None => []
                end
         end ++ [particleBurstEvent (position moved)
                   (orString (color obj) "#ffffff") 60])
        true u.
Proof.
  intros Hty Hact (Hlo & Hhi & Hdx & Hov) moved.
  assert (Hnd : isDamageSource (type obj) = false)
    by (destruct Hty as [H|H]; now rewrite H).
  rewrite Hnd in Hov.
  unfold iteration.
  set (z' := vz (position obj) + moveAmount dist safeDelta obj) in *.
  fold moved.
  assert (Hag : aggro moved = (moved, false)).
  { unfold aggro. subst moved. cbn [setZ type].
    destruct Hty as [H|H]; now rewrite H. }
  rewrite Hag. cbn [fst snd].
  assert (Hnp : type moved <> SHOP_PORTAL)
    by (subst moved; cbn [setZ type]; destruct Hty as [H|H]; rewrite H;
        discriminate).
  rewrite (collide_touch playerPos (vz (position obj)) moved Hnp)
    by (subst moved; exact Hact).
  subst moved. cbn [setZ type position vx vy vz]. rewrite Hnd.
  assert (H1 : (vz (position obj) <? vz playerPos + 2.0) = true)
    by (apply Qltb_true; lra).
  assert (H2 : (z' >? vz playerPos - 2.0) = true)
    by (apply Qgtb_true; lra).
  assert (H3 : (Qabs (vx (position obj) - vx playerPos) <? 0.9) = true)
    by (now apply Qltb_true).
  assert (H4 : (Qabs (vy (position obj) - vy playerPos) <? 2.5) = true)
    by (now apply Qltb_true).
  rewrite H1, H2, H3, H4. cbn [andb].
  unfold collectHit. cbn [setZ type position vy points targetIndex color].
  rewrite H4. cbn [c_obj c_keep c_calls c_changes andb orb].
  destruct Hty as [H|H]; rewrite H; reflexivity.
Qed.



(** ** The shop portal *)

Lemma iteration_portal (playerPos : Vec3) (dist safeDelta : Q) (u : nat)
  (obj : GameObject) :
  type obj = SHOP_PORTAL -> active obj = true ->
  let z' := vz (position obj) + dist in
  iteration playerPos dist safeDelta u obj
    = if Qabs (z' - vz playerPos) <? 2
      then mkIteration (setActive (setZ obj z') false) false [] [openShop]
                       true u
      else mkIteration (setZ obj z') (negb (z' >? REMOVE_DISTANCE)) [] []
                       (z' >? REMOVE_DISTANCE) u.
Proof.
  intros Hty Hact z'. unfold iteration, moveAmount. rewrite Hty. fold z'.
  assert (Hag : aggro (setZ obj z') = (setZ obj z', false)).
  { unfold aggro. cbn [setZ type]. now rewrite Hty. }
  rewrite Hag. cbn [fst snd]. unfold collide.
  cbn [setZ active type position vz]. rewrite Hact, Hty.
  destruct (Qabs (z' - vz playerPos) <? 2); reflexivity.
Qed.

Lemma portal_past_player_stays_shut (pz : Q)
  (frames : list (Vec3 * Q * Q)) :
  forall (u : nat) (obj : GameObject),
    type obj = SHOP_PORTAL -> active obj = true ->
    pz + 2 <= vz (position obj) ->
    Forall (fun f => vz (fst (fst f)) = pz /\ 0 <= snd (fst f)) frames ->
    Forall (fun it => it_calls it = [] /\ active (it_obj it) = true)
           (entityLife frames u obj).
Proof.
  induction frames as [|[[pp d] sd] frames IH]; intros u obj Hty Hact Hz Hok;
    cbn [entityLife]; [constructor|].
  inversion Hok as [|f fs [Hpz Hd] Hrest]; subst. cbn [fst snd] in *.
  rewrite iteration_portal by assumption. cbv zeta.
  assert (Hfar : (Qabs (vz (position obj) + d - vz pp) <? 2) = false).
  { apply Qltb_false. apply Qabs_ge. lra. }
  rewrite Hfar. cbn [it_keep it_obj it_uuid it_calls].
  constructor; [now split|].
  destruct (negb _); [|constructor].
  apply IH; try assumption; cbn [setZ position vz]. lra.
Qed.



(** ** Frames that change nothing, and how far a frame can move things *)

Lemma collide_quiet (playerPos : Vec3) (prevZ : Q) (obj : GameObject) :
  c_changes (collide playerPos prevZ obj) = false ->
  collide playerPos prevZ obj = mkCollision obj true [] false.
Proof.
  unfold collide, damageHit, collectHit.
  repeat match goal with
         | |- context [if ?b then _ else _] => destruct b
         | |- context [match ?t with OBSTACLE => _ | _ => _ end] => destruct t
         end; cbn [c_changes]; intros H; try discriminate H; reflexivity.
Qed.

Lemma quiet_iteration_obj (playerPos : Vec3) (dist safeDelta : Q)
  (obj : GameObject) :
  objChanges playerPos dist safeDelta obj = false ->
  objAfter playerPos dist safeDelta obj
    = setZ obj (vz (position obj) + moveAmount dist safeDelta obj)
  /\ objCalls playerPos dist safeDelta obj = [].
Proof.
  unfold objChanges, objAfter, objCalls, iteration.
  cbn [it_changes it_obj it_calls]. intros H.
  apply orb_false_elim in H as [H _].
  apply orb_false_elim in H as [Hag Hco].
  set (moved := setZ obj _) in *.
  assert (Hfst : fst (aggro moved) = moved).
  { revert Hag. unfold aggro.
    repeat match goal with |- context [if ?b then _ else _] => destruct b end;
      cbn [fst snd]; intros H; try discriminate H; reflexivity. }
  rewrite Hfst in *. rewrite (collide_quiet _ _ _ Hco). now split.
Qed.

(** X7.  A Playing frame bumps [renderTrigger] by one or leaves it alone.
    When it leaves it alone, nothing but the positions moved: the
    collection holds the same entities in the same order, each with only
    its z advanced by its move amount, no entity was deactivated, removed
    or pushed, no outside call was made and no uuid was drawn.  So every
    change of membership or of an [active] flag comes with a re-render. *)
Theorem unchanged_trigger_means_only_motion :
  forall (store : Store) (delta : Q) (player : option Vec3) (st : Refs),
    status store = PLAYING ->
    let st' := fst (useFrame store delta player st) in
    let sd := safeDeltaOf delta in
    let d := speed store * sd in
    (renderTrigger st' = renderTrigger st
     \/ renderTrigger st' = S (renderTrigger st))
    /\ (renderTrigger st' = renderTrigger st ->
        objectsRef st'
          = map (fun obj => setZ obj (vz (position obj) + moveAmount d sd obj))
                (objectsRef st)
        /\ snd (useFrame store delta player st) = []
        /\ uuidCounter st' = uuidCounter st
        /\ nextLetterDistance st' = nextLetterDistance st).
Proof.
  intros store delta player st Hplay st' sd d.
  rewrite (useFrame_calls store delta player st Hplay). fold sd d.
  subst st'. unfold useFrame. rewrite Hplay.
  destruct (frameSpawn store delta player st) as [sp sup] eqn:Hsp.
  cbn [fst snd renderTrigger objectsRef uuidCounter nextLetterDistance].
  destruct (hasChanges (frameLoop store delta player st) || sp_changes sp)
    eqn:Hch.
  - split; [now right|]. intros H. exfalso. lia.
  - split; [now left|]. intros _.
    apply orb_false_elim in Hch as [Hl Hs].
    unfold frameSpawn in Hsp.
    pose proof (spawning_quiet store _ _ _ _
                  (eq_trans (f_equal (fun x => sp_changes (fst x)) Hsp) Hs)) as Hq.
    rewrite Hq in Hsp. injection Hsp as <- <-.
    unfold frameLoop in *. fold sd d in Hl |- *.
    rewrite objectLoop_changes in Hl. cbn [hasChanges orb] in Hl.
    destruct (objectLoop_quiet (playerPosOf player) d sd (objectsRef st)
                (mkLoop [] [] [] false (uuidCounter st) []) Hl)
      as (_ & _ & Hu).
    rewrite objectLoop_visited, Hu. cbn [currentObjects app loopUuid].
    assert (Hall : forall obj, In obj (objectsRef st) ->
              objChanges (playerPosOf player) d sd obj = false).
    { intros obj Ho. destruct (objChanges _ d sd obj) eqn:E; [|reflexivity].
      assert (existsb (objChanges (playerPosOf player) d sd) (objectsRef st)
              = true) by (apply existsb_exists; eauto).
      congruence. }
    split; [|split; [|split]].
    + apply map_ext_in. intros obj Ho.
      exact (proj1 (quiet_iteration_obj _ _ _ obj (Hall obj Ho))).
    + assert (Hnil : forall l : list GameObject,
                (forall o, In o l ->
                           objCalls (playerPosOf player) d sd o = []) ->
                flat_map (objCalls (playerPosOf player) d sd) l = []).
      { induction l as [|o l IH]; intros Hl'; [reflexivity|].
        cbn [flat_map]. rewrite (Hl' o (or_introl eq_refl)).
        apply IH. intros o' Ho'. apply Hl'. now right. }
      apply Hnil. intros o Ho.
      exact (proj2 (quiet_iteration_obj _ _ _ o (Hall o Ho))).
    + destruct (furthestZ _ >? _); cbn [sUuid sRandom]; reflexivity.
    + reflexivity.
Qed.

(** X8.  The clamp of the frame callback.  In a Playing frame with
    non-negative speed and delta, [distanceTraveled] grows by
    speed * min(delta, 0.05): never by more than speed * 0.05 however long
    the frame took, and by exactly speed * delta when delta is at most
    0.05.  Every entity moves forward by that step, a charging boar
    (MISSILE) by 28 * min(delta, 0.05) more, so no entity moves backward
    and none moves by more than (speed + 28) * 0.05 in one frame. *)
Theorem frame_step_is_clamped :
  forall (store : Store) (delta : Q) (player : option Vec3) (st : Refs),
    status store = PLAYING -> 0 <= speed store -> 0 <= delta ->
    let st' := fst (useFrame store delta player st) in
    let sd := safeDeltaOf delta in
    let step := speed store * sd in
    distanceTraveled st' = distanceTraveled st + step
    /\ 0 <= step /\ step <= speed store * 0.05
    /\ (delta <= 0.05 -> step == speed store * delta)
    /\ forall obj : GameObject,
         let z' := vz (position (objAfter (playerPosOf player) step sd obj)) in
         vz (position obj) <= z'
         /\ z' <= vz (position obj) + (speed store + 28) * 0.05
         /\ z' = vz (position obj)
                 + (match type obj with
                    | MISSILE => step + 28 * sd
                    | _ => step
                    end).
Proof.
  intros store delta player st Hplay Hspeed Hdelta st' sd step.
  assert (Hsd0 : 0 <= sd) by (now apply safeDelta_nonneg).
  assert (Hsd1 : sd <= 0.05) by (apply Q.le_min_r).
  assert (Hstep0 : 0 <= step) by (now apply Qmult_le_0_compat).
  assert (Hstep1 : step <= speed store * 0.05).
  { unfold step. rewrite (Qmult_comm (speed store) sd),
      (Qmult_comm (speed store) 0.05).
    now apply Qmult_le_compat_r. }
  split; [now apply useFrame_distance|].
  split; [exact Hstep0|]. split; [exact Hstep1|]. split.
  - intros Hsmall. unfold step, sd, safeDeltaOf.
    now rewrite (Q.min_l delta 0.05 Hsmall).
  - intros obj z'. subst z'. unfold objAfter.
    rewrite iteration_position. unfold moveAmount, MISSILE_SPEED.
    destruct (type obj); repeat split; try reflexivity; nra.
Qed.


(** ** The effect on a level change and at the end of a run *)

(** X9.  While PLAYING (and not coming from GAME_OVER or VICTORY), the
    effect acts on a level change only towards a level above 1: it keeps of
    the collection exactly the entities with z > -80, in their order,
    appends one fresh active shop portal at (0, 0, -100), leaves
    [distanceTraveled] alone, and sets the next letter threshold to the
    distance travelled minus SPAWN_DISTANCE plus the new level's interval,
    so the next letter is due [getLetterInterval level - 120] further on.
    A change to level 1 or below, or no change, alters nothing but the
    noted status and level.  It never makes an outside call. *)
Theorem level_change_prunes_and_plants_portal :
  forall (store : Store) (st : Refs),
    status store = PLAYING ->
    prevStatus st <> GAME_OVER -> prevStatus st <> VICTORY ->
    let st' := fst (useEffect store st) in
    snd (useEffect store st) = []
    /\ prevStatus st' = PLAYING /\ prevLevel st' = level store
    /\ distanceTraveled st' = distanceTraveled st
    /\ (level store <> prevLevel st /\ (1 < level store)%Z ->
        objectsRef st'
          = filter (fun obj => vz (position obj) >? -80) (objectsRef st)
              ++ [shopPortal (uuidCounter st)]
        /\ (forall obj, In obj (objectsRef st') ->
              obj = shopPortal (uuidCounter st)
              \/ (In obj (objectsRef st) /\ -80 < vz (position obj)))
        /\ nextLetterDistance st' - distanceTraveled st'
           == getLetterInterval (level store) - SPAWN_DISTANCE
        /\ renderTrigger st' = S (renderTrigger st))
    /\ (level store = prevLevel st \/ (level store <= 1)%Z ->
        objectsRef st' = objectsRef st
        /\ nextLetterDistance st' = nextLetterDistance st
        /\ renderTrigger st' = renderTrigger st).
Proof.
  intros store st Hplay Hg Hv st'. subst st'.
  assert (Hprev : GameStatus_eqb (prevStatus st) GAME_OVER = false
                  /\ GameStatus_eqb (prevStatus st) VICTORY = false)
    by (destruct (prevStatus st); try congruence; now split).
  destruct Hprev as [Hg' Hv'].
  destruct (Z.eq_dec (level store) (prevLevel st)) as [Heq|Hne].
  - rewrite useEffect_resume by (try assumption; now right).
    cbn [fst snd notedRefs prevStatus prevLevel distanceTraveled objectsRef
         nextLetterDistance renderTrigger].
    split; [reflexivity|]. split; [exact Hplay|]. split; [reflexivity|].
    split; [reflexivity|]. split; [intros [Hx _]; congruence|].
    intros _. now repeat split.
  - destruct (Z_lt_le_dec 1 (level store)) as [Hup|Hlow].
    + unfold useEffect. rewrite Hplay, Hg', Hv'.
      cbn [GameStatus_eqb andb orb].
      assert (H1 : (level store =? prevLevel st)%Z = false)
        by (now apply Z.eqb_neq).
      assert (H2 : (level store >? 1)%Z = true)
        by (apply Z.gtb_lt; lia).
      rewrite H1, H2.
      cbn [negb andb fst snd prevStatus prevLevel distanceTraveled objectsRef
           nextLetterDistance renderTrigger].
      split; [reflexivity|]. split; [reflexivity|]. split; [reflexivity|].
      split; [reflexivity|]. split.
      * intros _. split; [reflexivity|]. split; [|split; [|reflexivity]].
        -- intros obj Ho. apply in_app_or in Ho as [Ho|[<-|[]]].
           ++ apply filter_In in Ho as [Ho Hz]. right. split; [exact Ho|].
              now apply Qgtb_true.
           ++ now left.
        -- ring.
      * intros [H|H]; [congruence | lia].
    + rewrite useEffect_resume by (try assumption; now left).
      cbn [fst snd notedRefs prevStatus prevLevel distanceTraveled objectsRef
           nextLetterDistance renderTrigger].
      split; [reflexivity|]. split; [exact Hplay|]. split; [reflexivity|].
      split; [reflexivity|]. split; [intros [_ Hx]; lia|].
      intros _. now repeat split.
Qed.

(** X10.  When the status becomes GAME_OVER or VICTORY the effect reports
    the distance once, rounded down ([setDistance] of the floor of
    [distanceTraveled]), and clears nothing: the collection, the distance
    and the letter threshold are as the last frame left them, and they stay
    so through every frame spent in that status.  The world is emptied
    only by the effect of the restart. *)
Theorem game_over_reports_distance_and_keeps_world :
  forall (store : Store) (st : Refs) (idle : list (Q * option Vec3)),
    status store = GAME_OVER \/ status store = VICTORY ->
    let ticks :=
      effect store :: map (fun f => frame store (fst f) (snd f)) idle in
    let st' := fst (run ticks st) in
    snd (run ticks st) = [setDistance (Qfloor (distanceTraveled st))]
    /\ inject_Z (Qfloor (distanceTraveled st)) <= distanceTraveled st
    /\ distanceTraveled st < inject_Z (Qfloor (distanceTraveled st) + 1)
    /\ objectsRef st' = objectsRef st
    /\ distanceTraveled st' = distanceTraveled st
    /\ nextLetterDistance st' = nextLetterDistance st
    /\ prevStatus st' = status store.
Proof.
  intros store st idle Hover ticks st'. subst st' ticks.
  change (effect store :: ?l) with ([effect store] ++ l).
  rewrite run_app.
  assert (Hidle : status store <> PLAYING)
    by (destruct Hover as [H|H]; rewrite H; discriminate).
  rewrite run_idle_frames by exact Hidle.
  cbn [run tick fst snd]. rewrite (useEffect_over store st Hover).
  cbn [fst snd app notedRefs objectsRef distanceTraveled nextLetterDistance
       prevStatus].
  split; [reflexivity|].
  split; [apply Qfloor_le|]. split; [apply Qlt_floor|].
  now repeat split.
Qed.


(** ** What the spawning block pushes *)

Lemma forEach_Forall {A : Type} (P : GameObject -> Prop)
  (f : A -> Gen (list GameObject)) :
  (forall a s, Forall P (fst (f a s))) ->
  forall l s, Forall P (fst (forEach f l s)).
Proof.
  intros Hf. induction l as [|a l IH]; intros s; cbn [forEach].
  - constructor.
  - unfold bind, ret. pose proof (Hf a s) as H1.
    destruct (f a s) as [bs s1]. pose proof (IH s1) as H2.
    destruct (forEach f l s1) as [cs s2]. cbn [fst] in *.
    apply Forall_app. now split.
Qed.

Ltac spawned_leaf :=
  cbn [fst]; repeat (apply Forall_cons; [|]); try apply Forall_nil;
  unfold freshlySpawned;
  cbn [active type position vx vy vz hasFired fallbackGem];
  (split; [reflexivity|]; split; [reflexivity|];
   split; [eexists; reflexivity|]); auto.

Lemma spawnCluster_spawned (store : Store) (t : ObjectType) (spawnZ : Q)
  (s : Supply) :
  (t = ALIEN /\ level store = 2%Z) \/ (t = MONSTER /\ level store = 3%Z) ->
  Forall (freshlySpawned store spawnZ) (fst (spawnCluster store t spawnZ s)).
Proof.
  intros Ht. unfold spawnCluster, bind at 1 2, shuffled, mathRandom.
  destruct (randomSort _ _) as [lanes c].
  apply forEach_Forall. intros lane s1. unfold bind, uuidv4, ret.
  destruct Ht as [[-> Hl]|[-> Hl]]; spawned_leaf.
Qed.

Lemma spawnRocks_spawned (store : Store) (spawnZ : Q) (s : Supply) :
  Forall (freshlySpawned store spawnZ) (fst (spawnRocks store spawnZ s)).
Proof.
  unfold spawnRocks, bind at 1 2, shuffled, mathRandom.
  destruct (randomSort _ _) as [lanes c].
  apply forEach_Forall. intros lane s1.
  cbv beta iota zeta delta [bind uuidv4 mathRandom randomPoints ret].
  cbn [fst snd sUuid sRandom].
  destruct (random (sRandom s1) <? 0.3); spawned_leaf.
Qed.

Lemma spawnGem_spawned (store : Store) (spawnZ : Q) (s : Supply) :
  Forall (freshlySpawned store spawnZ) (fst (spawnGem store spawnZ s)).
Proof.
  cbv beta iota zeta
      delta [spawnGem getRandomLane randomPoints bind mathRandom uuidv4 ret].
  spawned_leaf.
Qed.

Lemma spawnMix_spawned (store : Store) (spawnZ : Q) (s : Supply) :
  Forall (freshlySpawned store spawnZ) (fst (spawnMix store spawnZ s)).
Proof.
  unfold spawnMix.
  cbv beta iota zeta delta [bind mathRandom ret].
  destruct (Z.eqb_spec (level store) 2) as [H2|H2];
    destruct (Z.eqb_spec (level store) 3) as [H3|H3];
    try (exfalso; lia);
    cbv beta iota zeta delta [bind mathRandom ret];
    cbn [fst snd sRandom sUuid orb negb];
    repeat match goal with
           | |- context [Qgtb ?a ?b] =>
               destruct (Qgtb a b);
               cbv beta iota zeta delta [bind mathRandom ret];
               cbn [fst snd sRandom sUuid orb negb]
           | |- context [Qltb ?a ?b] =>
               destruct (Qltb a b);
               cbv beta iota zeta delta [bind mathRandom ret];
               cbn [fst snd sRandom sUuid orb negb]
           end;
    first [ apply spawnRocks_spawned | apply spawnGem_spawned
          | apply spawnCluster_spawned;
            first [ left; split; [reflexivity | assumption]
                  | right; split; [reflexivity | assumption] ] ].
Qed.

Lemma spawnZOf_far (store : Store) (fz : Q) :
  spawnZOf store fz <= - SPAWN_DISTANCE
  /\ (0 <= speed store -> spawnZOf store fz <= fz - 12).
Proof.
  unfold spawnZOf. split; [apply Q.le_min_r|].
  intros H. eapply Qle_trans; [apply Q.le_min_l|]. lra.
Qed.

(** X11.  Whatever the random tape, everything the spawning block pushes
    in a frame is active, centred in a lane, at the height of its kind
    (rock 0.4, enemy 0.6, letter 1.0, artifact 1.2 or 2.0) and at one and
    the same z, the spawn position, which is never nearer than
    SPAWN_DISTANCE (120) and, for a non-negative speed, at least 12 beyond
    the farthest kept entity.  Idle boars are pushed on level 2 only, with
    [hasFired = false]; monsters on level 3 only; charging boars and shop
    portals never.  Nothing is pushed while the farthest kept non-MISSILE
    entity is 120 or more away. *)
Theorem spawner_pushes_far_ahead_and_in_kind :
  forall (store : Store) (delta : Q) (player : option Vec3) (st : Refs),
    let lp := frameLoop store delta player st in
    let fz := furthestZ (keptObjects lp ++ newSpawns lp) in
    let pushed := sp_pushed (fst (frameSpawn store delta player st)) in
    Forall (freshlySpawned store (spawnZOf store fz)) pushed
    /\ spawnZOf store fz <= - SPAWN_DISTANCE
    /\ (0 <= speed store -> spawnZOf store fz <= fz - 12)
    /\ (fz <= - SPAWN_DISTANCE -> pushed = []).
Proof.
  intros store delta player st lp fz pushed.
  destruct (spawnZOf_far store fz) as [Hfar Hgap].
  split; [|split; [exact Hfar|split; [exact Hgap|]]].
  - subst pushed. unfold frameSpawn, spawning. fold lp fz.
    destruct (fz >? - SPAWN_DISTANCE); [|constructor].
    destruct (_ >=? _).
    + destruct (availableIndicesOf _);
        cbv beta iota zeta
            delta [bind getRandomLane mathRandom ret spawnFallbackGem
                   spawnLetter uuidv4];
        cbn [fst snd sp_pushed]; spawned_leaf.
    + cbv beta iota zeta delta [bind mathRandom ret].
      destruct (random _ >? 0.1); [|constructor].
      pose proof (spawnMix_spawned store (spawnZOf store fz)
                    (mkSupply (S (randomCursor st)) (loopUuid lp))) as H.
      cbn [sRandom sUuid].
      destruct (spawnMix _ _ _) as [objs s1]. exact H.
  - intros Hclosed. subst pushed. unfold frameSpawn, spawning. fold lp fz.
    assert (H : (fz >? - SPAWN_DISTANCE) = false) by (now apply Qgtb_false).
    now rewrite H.
Qed.


(** ** Random picks: indexes and lanes *)

(** [Math.floor(r * n)] for a draw [r] in [0, 1) is an index below [n]. *)
Lemma floor_index_in_range (r : Q) (n : Z) :
  0 <= r -> r < 1 -> (0 < n)%Z ->
  (0 <= Qfloor (r * inject_Z n) < n)%Z.
Proof.
  intros Hr0 Hr1 Hn.
  assert (Hn' : 0 < inject_Z n) by (change 0 with (inject_Z 0); now rewrite <- Zlt_Qlt).
  split.
  - change 0%Z with (Qfloor 0). apply Qfloor_resp_le.
    apply Qmult_le_0_compat; [exact Hr0 | lra].
  - rewrite Zlt_Qlt.
    apply Qle_lt_trans with (r * inject_Z n); [apply Qfloor_le|].
    setoid_replace (inject_Z n) with (1 * inject_Z n) at 2 by ring.
    apply Qmult_lt_compat_r; assumption.
Qed.

Lemma arrayGet_In {A : Type} (arr : list A) (i : Z) (a : A) :
  arrayGet arr i = Some a -> In a arr.
Proof.
  unfold arrayGet. destruct (i <? 0)%Z; [discriminate|].
  apply nth_error_In.
Qed.

Lemma arrayGet_defined {A : Type} (arr : list A) (i : Z) :
  (0 <= i < Z.of_nat (List.length arr))%Z ->
  exists a, arrayGet arr i = Some a.
Proof.
  intros Hi. unfold arrayGet.
  destruct (Z.ltb_spec i 0); [lia|].
  destruct (nth_error arr (Z.to_nat i)) eqn:E; [eauto|].
  apply nth_error_None in E. lia.
Qed.

Lemma availableIndices_spec (collected : list Z) (i : Z) :
  In i (availableIndicesOf collected)
  <-> (0 <= i < 6)%Z /\ ~ In i collected.
Proof.
  unfold availableIndicesOf. rewrite filter_In, negb_true_iff.
  rewrite <- not_true_iff_false, existsb_exists.
  split.
  - intros [Hi Hno]. split.
    + cbn in Hi. lia.
    + intros Hin. apply Hno. exists i. split; [exact Hin | apply Z.eqb_refl].
  - intros [Hi Hno]. split.
    + cbn. lia.
    + intros (j & Hj & Heq). apply Z.eqb_eq in Heq. subst j. contradiction.
Qed.


Lemma laneIndexes_spec (maxLane i : Z) :
  In i (laneIndexes maxLane) <-> (- maxLane <= i <= maxLane)%Z.
Proof.
  unfold laneIndexes. rewrite in_map_iff. split.
  - intros (k & <- & Hk). apply in_seq in Hk. lia.
  - intros Hi. exists (Z.to_nat (i + maxLane)). split; [lia|].
    apply in_seq. lia.
Qed.

Lemma NoDup_map_injective {A B : Type} (f : A -> B) (l : list A) :
  (forall a b, f a = f b -> a = b) -> NoDup l -> NoDup (map f l).
Proof.
  intros Hinj Hl. induction Hl as [|a l Ha Hl IH]; cbn [map]; constructor.
  - intros Hin. apply in_map_iff in Hin as (b & Hb & Hin).
    apply Hinj in Hb. now subst b.
  - exact IH.
Qed.

Lemma laneIndexes_NoDup (maxLane : Z) : NoDup (laneIndexes maxLane).
Proof.
  unfold laneIndexes. apply NoDup_map_injective; [|apply seq_NoDup].
  intros a b H. lia.
Qed.

(** X13.  Lane indexes stay within the lanes.  For a lane count of at
    least 0 and a draw in [0, 1), [getRandomLane] answers a lane between
    -floor(laneCount / 2) and floor(laneCount / 2); for three lanes that is
    -1, 0 or 1.  The list of lanes the clusters and rows choose from holds
    exactly those indexes, each once; it is empty for a negative lane
    count, so that nothing can be placed. *)
Theorem lanes_stay_within_bounds :
  forall (laneCount : Z) (r : Q),
    (0 <= laneCount)%Z -> 0 <= r -> r < 1 ->
    let maxLane := (laneCount / 2)%Z in
    (- maxLane <= laneOf laneCount r <= maxLane)%Z
    /\ (laneCount = 3%Z ->
        laneOf laneCount r = (-1)%Z \/ laneOf laneCount r = 0%Z
        \/ laneOf laneCount r = 1%Z)
    /\ (forall i : Z, In i (laneIndexes maxLane)
                      <-> (- maxLane <= i <= maxLane)%Z)
    /\ NoDup (laneIndexes maxLane)
    /\ In (laneOf laneCount r) (laneIndexes maxLane)
    /\ (forall n : Z, (n < 0)%Z -> laneIndexes (n / 2) = []).
Proof.
  intros laneCount r Hn Hr0 Hr1 maxLane.
  assert (Hmax : (0 <= maxLane)%Z) by (apply Z.div_pos; lia).
  assert (Hlane : (- maxLane <= laneOf laneCount r <= maxLane)%Z).
  { unfold laneOf. fold maxLane.
    pose proof (floor_index_in_range r (maxLane * 2 + 1) Hr0 Hr1) as H.
    lia. }
  split; [exact Hlane|]. split.
  { intros H3. subst laneCount. change (3 / 2)%Z with 1%Z in *. lia. }
  split; [apply laneIndexes_spec|]. split; [apply laneIndexes_NoDup|].
  split; [now apply laneIndexes_spec|].
  intros n Hneg. unfold laneIndexes.
  assert (Hm : (n / 2 < 0)%Z) by (apply Z.div_lt_upper_bound; lia).
  replace (Z.to_nat (2 * (n / 2) + 1)) with 0%nat by lia. reflexivity.
Qed.


(** ** Clusters and the spawn horizon *)

Lemma forEach_map {A B : Type} (g : GameObject -> B) (h : A -> B)
  (f : A -> Gen (list GameObject)) :
  (forall a s, map g (fst (f a s)) = [h a]) ->
  forall l s, map g (fst (forEach f l s)) = map h l.
Proof.
  intros Hf. induction l as [|a l IH]; intros s; cbn [forEach map].
  - reflexivity.
  - unfold bind, ret. pose proof (Hf a s) as H1.
    destruct (f a s) as [bs s1]. pose proof (IH s1) as H2.
    destruct (forEach f l s1) as [cs s2]. cbn [fst] in *.
    now rewrite map_app, H1, H2.
Qed.

Lemma firstn_In {A : Type} (n : nat) (l : list A) (a : A) :
  In a (firstn n l) -> In a l.
Proof.
  intros H. rewrite <- (firstn_skipn n l). apply in_or_app. now left.
Qed.

Lemma firstn_NoDup {A : Type} (n : nat) (l : list A) :
  NoDup l -> NoDup (firstn n l).
Proof.
  intros H. rewrite <- (firstn_skipn n l) in H.
  now apply NoDup_app_remove_r in H.
Qed.

(** X14.  A cluster of enemies, provided the engine's sort returns a
    permutation of the lanes and the draw for the size lies in [0, 1):
    the enemies stand in pairwise different lanes, all within the lane
    bounds, so there are never two in one lane and never more than there
    are lanes; there are at most [level] of them; and each is active, of
    the cluster's type and has [hasFired = false]. *)
Theorem hazard_cluster_shape :
  forall (store : Store) (spawnType : ObjectType) (spawnZ : Q) (s : Supply),
    (forall l c, Permutation (fst (randomSort l c)) l) ->
    let maxLane := (laneCount store / 2)%Z in
    let sorted := randomSort (laneIndexes maxLane) (sRandom s) in
    0 <= random (snd sorted) -> random (snd sorted) < 1 ->
    (0 <= level store)%Z ->
    let pushed := fst (spawnCluster store spawnType spawnZ s) in
    exists lanes : list Z,
      map (fun obj => vx (position obj)) pushed = map laneX lanes
      /\ NoDup lanes
      /\ (forall lane, In lane lanes -> (- maxLane <= lane <= maxLane)%Z)
      /\ List.length pushed = List.length lanes
      /\ (Z.of_nat (List.length lanes) <= level store)%Z
      /\ (Z.of_nat (List.length lanes) <= Z.max 0 (2 * maxLane + 1))%Z
      /\ Forall (fun obj => type obj = spawnType /\ active obj = true
                            /\ hasFired obj = Some false) pushed.
Proof.
  intros store spawnType spawnZ s Hperm maxLane sorted Hr0 Hr1 Hlevel pushed.
  pose proof (Hperm (laneIndexes maxLane) (sRandom s)) as Hp.
  fold sorted in Hp.
  assert (Hpush : exists f s1,
    pushed = fst (forEach f
      (firstn (Z.to_nat (Z.min (Qceiling (random (snd sorted)
                                          * inject_Z (level store)))
                               (Z.of_nat (List.length (fst sorted)))))
              (fst sorted)) s1)
    /\ forall lane s2,
         exists u, fst (f lane s2)
           = [mkObject u spawnType (mkVec3 (laneX lane) 0.6 spawnZ) true None
                (Some match spawnType with
                      | MONSTER => "#6a1b9a"
                      | _ => "#4e342e"
                      end%string) None None (Some false)]).
  { subst pushed sorted maxLane.
    unfold spawnCluster, shuffled, mathRandom.
    cbv beta iota zeta delta [bind].
    destruct (randomSort (laneIndexes (laneCount store / 2)) (sRandom s))
      as [lanes c].
    cbn [fst snd sRandom sUuid].
    eexists _, _. split; [reflexivity|].
    intros lane s2. eexists. reflexivity. }
  destruct Hpush as (f & s1 & -> & Hf).
  destruct sorted as [lanes c]. cbn [fst snd] in *.
  set (count := Z.min (Qceiling (random c * inject_Z (level store)))
                      (Z.of_nat (List.length lanes))).
  exists (firstn (Z.to_nat count) lanes).
  assert (Hnd : NoDup lanes)
    by (eapply Permutation_NoDup; [apply Permutation_sym; exact Hp
                                  | apply laneIndexes_NoDup]).
  assert (Hcount : (count <= level store)%Z).
  { subst count. eapply Z.le_trans; [apply Z.le_min_l|].
    assert (H : 0 <= inject_Z (level store))
      by (change 0 with (inject_Z 0); now rewrite <- Zle_Qle).
    assert (Hle : random c * inject_Z (level store) <= inject_Z (level store))
      by nra.
    apply Qceiling_resp_le in Hle. now rewrite Qceiling_Z in Hle. }
  assert (Hmap : map (fun obj => vx (position obj))
                     (fst (forEach f (firstn (Z.to_nat count) lanes) s1))
                 = map laneX (firstn (Z.to_nat count) lanes)).
  { apply forEach_map. intros lane s2.
    destruct (Hf lane s2) as [u ->]. reflexivity. }
  split; [exact Hmap|].
  split; [now apply firstn_NoDup|]. split.
  { intros lane Hin. apply firstn_In in Hin.
    apply laneIndexes_spec. eapply Permutation_in; eassumption. }
  split.
  { apply (f_equal (@List.length Q)) in Hmap.
    now rewrite !length_map in Hmap. }
  split.
  { pose proof (firstn_le_length (Z.to_nat count) lanes). lia. }
  split.
  { rewrite length_firstn.
    assert (Hlen : List.length lanes = Z.to_nat (2 * maxLane + 1)).
    { rewrite (Permutation_length Hp). unfold laneIndexes.
      now rewrite length_map, length_seq. }
    lia. }
  apply forEach_Forall. intros lane s2.
  destruct (Hf lane s2) as [u ->].
  constructor; [now repeat split | constructor].
Qed.

Lemma Qmin_either (x y : Q) : Qmin x y = x \/ Qmin x y = y.
Proof.
  unfold Qmin, GenericMinMax.gmin. destruct (x ?= y); auto.
Qed.

Lemma minOf_spec (zs : list Q) :
  forall z : Q,
    minOf z zs <= z
    /\ (forall y, In y zs -> minOf z zs <= y)
    /\ (minOf z zs = z \/ In (minOf z zs) zs).
Proof.
  unfold minOf. induction zs as [|y zs IH]; intros z; cbn [fold_left].
  - split; [apply Qle_refl|]. split; [intros y []|now left].
  - destruct (IH (Qmin z y)) as (H1 & H2 & H3).
    split; [eapply Qle_trans; [exact H1 | apply Q.le_min_l]|].
    split.
    + intros y' [<-|Hin].
      * eapply Qle_trans; [exact H1 | apply Q.le_min_r].
      * now apply H2.
    + destruct H3 as [H3|H3]; [|right; now right].
      rewrite H3. destruct (Qmin_either z y) as [->| ->];
        [now left | right; now left].
Qed.

(** X15.  The spawn horizon.  [furthestZ] is -20 when the kept collection
    has no entity other than charging boars; otherwise it is the z of one of
    the kept non-MISSILE entities and no such entity has a smaller z.
    Charging boars are ignored.  Hence the gate of the spawning block is
    open exactly when every kept non-MISSILE entity is nearer than
    SPAWN_DISTANCE. *)
Theorem furthestZ_is_the_least_static_z :
  forall kept : list GameObject,
    let static :=
      filter (fun o => negb (ObjectType_eqb (type o) MISSILE)) kept in
    (static = [] -> furthestZ kept = -20)
    /\ (forall obj, In obj kept -> type obj <> MISSILE ->
                    furthestZ kept <= vz (position obj))
    /\ (static <> [] ->
        exists obj, In obj kept /\ type obj <> MISSILE
                    /\ furthestZ kept = vz (position obj))
    /\ (- SPAWN_DISTANCE < furthestZ kept
        <-> forall obj, In obj kept -> type obj <> MISSILE ->
                        - SPAWN_DISTANCE < vz (position obj)).
Proof.
  intros kept static.
  assert (Hstatic : forall o, In o static <-> In o kept /\ type o <> MISSILE).
  { intros o. subst static. rewrite filter_In, negb_true_iff.
    split; intros [H1 H2]; (split; [exact H1|]).
    - intros E. rewrite E in H2. discriminate.
    - destruct (type o); try reflexivity. congruence. }
  unfold furthestZ. fold static.
  destruct static as [|o os] eqn:E.
  - cbn [map]. split; [reflexivity|]. split.
    { intros obj Hin Hty.
      assert (H : In obj []) by (apply Hstatic; now split). destruct H. }
    split; [congruence|]. split.
    + intros _ obj Hin Hty.
      assert (H : In obj []) by (apply Hstatic; now split). destruct H.
    + intros _. reflexivity.
  - cbn [map].
    destruct (minOf_spec (map (fun o => vz (position o)) os) (vz (position o)))
      as (H1 & H2 & H3).
    split; [discriminate|].
    assert (Hlow : forall obj, In obj kept -> type obj <> MISSILE ->
              minOf (vz (position o)) (map (fun o => vz (position o)) os)
              <= vz (position obj)).
    { intros obj Hin Hty.
      assert (H : In obj (o :: os)) by (apply Hstatic; now split).
      destruct H as [<-|H]; [exact H1|]. apply H2.
      exact (in_map (fun o => vz (position o)) os obj H). }
    assert (Hatt : exists obj, In obj kept /\ type obj <> MISSILE
              /\ minOf (vz (position o)) (map (fun o => vz (position o)) os)
                 = vz (position obj)).
    { destruct H3 as [H3|H3].
      - exists o. destruct (proj1 (Hstatic o) (or_introl eq_refl)).
        now repeat split.
      - apply in_map_iff in H3 as (obj & Hz & Hin). exists obj.
        destruct (proj1 (Hstatic obj) (or_intror Hin)).
        split; [assumption|]. split; [assumption|]. now rewrite Hz. }
    split; [exact Hlow|]. split; [intros _; exact Hatt|]. split.
    + intros Hopen obj Hin Hty.
      eapply Qlt_le_trans; [exact Hopen | now apply Hlow].
    + intros Hall. destruct Hatt as (obj & Hin & Hty & ->). now apply Hall.
Qed.


(** ** Labels and worth *)

Lemma picked_points_worth (u : nat) (pos : Vec3) (act : bool)
  (v : option string) (t : option Z) (f : option bool) (r : Q) :
  0 <= r -> r < 1 ->
  let pts := arrayGet [10; 50; 100]%Z (Qfloor (r * 3)) in
  artifactWorth (mkObject u GEM pos act v (Some (gemColorOf pts)) t pts f).
Proof.
  intros Hr0 Hr1.
  destruct (floor_index_in_range r 3 Hr0 Hr1 ltac:(lia)) as [Hi0 Hi3].
  change (inject_Z 3) with 3 in Hi0, Hi3.
  assert (Hi : Qfloor (r * 3) = 0%Z \/ Qfloor (r * 3) = 1%Z
               \/ Qfloor (r * 3) = 2%Z) by lia.
  cbv zeta. intros _.
  destruct Hi as [-> | [-> | ->]];
    [exists 10%Z | exists 50%Z | exists 100%Z];
    vm_compute; repeat split; auto.
Qed.

Lemma other_kind_worth (obj : GameObject) :
  type obj <> GEM -> artifactWorth obj.
Proof. intros H E. contradiction. Qed.

Ltac worth_leaf Hrange :=
  cbn [fst]; repeat (apply Forall_cons; [|]); try apply Forall_nil;
  first [ apply other_kind_worth; cbn [type]; first [discriminate | assumption]
        | apply picked_points_worth; apply Hrange ].

Lemma spawnCluster_worth (store : Store) (t : ObjectType) (spawnZ : Q)
  (s : Supply) :
  t <> GEM ->
  Forall artifactWorth (fst (spawnCluster store t spawnZ s)).
Proof.
  intros Ht. unfold spawnCluster, bind at 1 2, shuffled, mathRandom.
  destruct (randomSort _ _) as [lanes c].
  apply forEach_Forall. intros lane s1. unfold bind, uuidv4, ret.
  cbn [fst]. apply Forall_cons; [|apply Forall_nil].
  apply other_kind_worth. exact Ht.
Qed.

Lemma spawnRocks_worth (store : Store) (spawnZ : Q) (s : Supply) :
  (forall k, 0 <= random k /\ random k < 1) ->
  Forall artifactWorth (fst (spawnRocks store spawnZ s)).
Proof.
  intros Hrange. unfold spawnRocks, bind at 1 2, shuffled, mathRandom.
  destruct (randomSort _ _) as [lanes c].
  apply forEach_Forall. intros lane s1.
  cbv beta iota zeta delta [bind uuidv4 mathRandom randomPoints ret].
  cbn [fst snd sUuid sRandom].
  destruct (random (sRandom s1) <? 0.3); worth_leaf Hrange.
Qed.

Lemma spawnGem_worth (store : Store) (spawnZ : Q) (s : Supply) :
  (forall k, 0 <= random k /\ random k < 1) ->
  Forall artifactWorth (fst (spawnGem store spawnZ s)).
Proof.
  intros Hrange.
  cbv beta iota zeta
      delta [spawnGem getRandomLane randomPoints bind mathRandom uuidv4 ret].
  worth_leaf Hrange.
Qed.

Lemma spawnMix_worth (store : Store) (spawnZ : Q) (s : Supply) :
  (forall k, 0 <= random k /\ random k < 1) ->
  Forall artifactWorth (fst (spawnMix store spawnZ s)).
Proof.
  intros Hrange. unfold spawnMix.
  cbv beta iota zeta delta [bind mathRandom ret].
  destruct (level store =? 2)%Z; destruct (level store =? 3)%Z;
    cbv beta iota zeta delta [bind mathRandom ret];
    cbn [fst snd sRandom sUuid orb negb];
    repeat match goal with
           | |- context [Qgtb ?a ?b] =>
               destruct (Qgtb a b);
               cbv beta iota zeta delta [bind mathRandom ret];
               cbn [fst snd sRandom sUuid orb negb]
           | |- context [Qltb ?a ?b] =>
               destruct (Qltb a b);
               cbv beta iota zeta delta [bind mathRandom ret];
               cbn [fst snd sRandom sUuid orb negb]
           end;
    first [ apply spawnRocks_worth; exact Hrange
          | apply spawnGem_worth; exact Hrange
          | apply spawnCluster_worth; discriminate ].
Qed.

(** X21.  The label of a spawned artifact tells its worth.  When every draw
    of [Math.random] lies in [0, 1), each GEM the spawning block pushes has
    points 10, 50 or 100 and the colour of those points (bronze, silver,
    gold); its floating label reads "+" followed by the points; and those
    points are the amount a pickup passes to [collectGem] (the default 50
    of [obj.points || 50] is never used for it). *)
Theorem spawned_artifact_label_is_its_worth :
  forall (store : Store) (delta : Q) (player : option Vec3) (st : Refs),
    (forall k, 0 <= random k /\ random k < 1) ->
    Forall artifactWorth (sp_pushed (fst (frameSpawn store delta player st))).
Proof.
  intros store delta player st Hrange. unfold frameSpawn, spawning.
  destruct (_ >? - SPAWN_DISTANCE); [|constructor].
  destruct (_ >=? _).
  - destruct (availableIndicesOf _);
      cbv beta iota zeta
          delta [bind getRandomLane mathRandom ret spawnFallbackGem
                 spawnLetter uuidv4];
      cbn [fst snd sp_pushed]; apply Forall_cons; try apply Forall_nil.
    + intros _. exists 100%Z. vm_compute. repeat split; auto.
    + apply other_kind_worth. discriminate.
  - cbv beta iota zeta delta [bind mathRandom ret].
    destruct (random _ >? 0.1); [|constructor].
    match goal with
    | |- context [spawnMix ?a ?b ?c] =>
        pose proof (spawnMix_worth a b c Hrange) as H;
        destruct (spawnMix a b c) as [objs s1]
    end.
    exact H.
Qed.

(** X22.  What the label of a hazard announces and what a hit costs.  The
    label of a rock, a charging boar and a monster reads "-" followed by
    the penalty that a hit passes to [takeDamage] (10, 100, 100).  The
    label of an idle boar reads "-100", while a hit by an idle boar passes
    the rock's penalty, 10.  Letters and shop portals have no label. *)
Theorem hazard_label_and_penalty :
  forall obj : GameObject,
    (isDamageSource (type obj) = true ->
     type obj <> ALIEN ->
     option_map fst (labelData obj)
     = Some ("-" ++ decimal (penaltyOf (type obj)))%string)
    /\ (type obj = ALIEN ->
        option_map fst (labelData obj) = Some "-100"%string
        /\ penaltyOf (type obj) = 10%Z)
    /\ (labelData obj = None <-> type obj = LETTER \/ type obj = SHOP_PORTAL).
Proof.
  intros obj. unfold labelData. split; [|split].
  - destruct (type obj); intros Hd Ha; try discriminate Hd;
      try contradiction; reflexivity.
  - intros ->. split; reflexivity.
  - destruct (type obj); split; intros H;
      try discriminate H; try (destruct H as [H|H]; discriminate H); auto.
Qed.


(** ** Rows of rocks *)

(** A property of lists of entities that holds of every output of [f] and
    is kept by concatenation holds of what a loop over [f] pushes. *)
Lemma forEach_closed {A : Type} (P : list GameObject -> Prop)
  (f : A -> Gen (list GameObject)) :
  P [] ->
  (forall xs ys, P xs -> P ys -> P (xs ++ ys)) ->
  (forall a s, P (fst (f a s))) ->
  forall l s, P (fst (forEach f l s)).
Proof.
  intros Hnil Happ Hf. induction l as [|a l IH]; intros s; cbn [forEach].
  - exact Hnil.
  - unfold bind, ret. pose proof (Hf a s) as H1.
    destruct (f a s) as [bs s1]. pose proof (IH s1) as H2.
    destruct (forEach f l s1) as [cs s2]. cbn [fst] in *.
    now apply Happ.
Qed.

Lemma forEach_filter_map {A B : Type} (p : GameObject -> bool)
  (g : GameObject -> B) (h : A -> B) (f : A -> Gen (list GameObject)) :
  (forall a s, map g (filter p (fst (f a s))) = [h a]) ->
  forall l s, map g (filter p (fst (forEach f l s))) = map h l.
Proof.
  intros Hf. induction l as [|a l IH]; intros s; cbn [forEach map].
  - reflexivity.
  - unfold bind, ret. pose proof (Hf a s) as H1.
    destruct (f a s) as [bs s1]. pose proof (IH s1) as H2.
    destruct (forEach f l s1) as [cs s2]. cbn [fst] in *.
    now rewrite filter_app, map_app, H1, H2.
Qed.

Lemma forEach_length {A : Type} (k : nat)
  (f : A -> Gen (list GameObject)) :
  (forall a s, (List.length (fst (f a s)) <= k)%nat) ->
  forall l s,
    (List.length (fst (forEach f l s)) <= k * List.length l)%nat.
Proof.
  intros Hf. induction l as [|a l IH]; intros s; cbn [forEach].
  - cbn. lia.
  - unfold bind, ret. pose proof (Hf a s) as H1.
    destruct (f a s) as [bs s1]. pose proof (IH s1) as H2.
    destruct (forEach f l s1) as [cs s2]. cbn [fst List.length] in *.
    rewrite length_app. lia.
Qed.

Lemma artifactsAboveRocks_app (xs ys : list GameObject) :
  artifactsAboveRocks xs -> artifactsAboveRocks ys ->
  artifactsAboveRocks (xs ++ ys).
Proof.
  intros Hx Hy obj Hin. apply in_app_or in Hin.
  destruct Hin as [Hin|Hin]; [destruct (Hx obj Hin) as [H|(H1 & H2 & r & H3 & H4)]
                             |destruct (Hy obj Hin) as [H|(H1 & H2 & r & H3 & H4)]];
    try (now left); right; (split; [exact H1|]); (split; [exact H2|]);
    exists r; (split; [apply in_or_app; auto | exact H4]).
Qed.

(** X28.  A row of rocks, provided the engine's sort returns a permutation
    of the lanes and the lane count is not negative: one or two rocks are
    pushed, in different lanes within the lane bounds; besides rocks only
    artifacts are pushed, each at height 2.0 in the lane and at the z of
    one of the rocks of the row, and never more artifacts than rocks. *)
Theorem rock_row_shape :
  forall (store : Store) (spawnZ : Q) (s : Supply),
    (forall l c, Permutation (fst (randomSort l c)) l) ->
    (0 <= laneCount store)%Z ->
    let maxLane := (laneCount store / 2)%Z in
    let pushed := fst (spawnRocks store spawnZ s) in
    let isRock := fun obj => ObjectType_eqb (type obj) OBSTACLE in
    exists lanes : list Z,
      map (fun obj => vx (position obj)) (filter isRock pushed)
      = map laneX lanes
      /\ NoDup lanes
      /\ (forall lane, In lane lanes -> (- maxLane <= lane <= maxLane)%Z)
      /\ (1 <= List.length lanes <= 2)%nat
      /\ artifactsAboveRocks pushed
      /\ (List.length pushed <= 2 * List.length lanes)%nat.
Proof.
  intros store spawnZ s Hperm Hcount maxLane pushed isRock.
  pose proof (Hperm (laneIndexes maxLane) (sRandom s)) as Hp.
  assert (Hpush : exists f s1 (n : Z) lanes,
    pushed = fst (forEach f (firstn (Z.to_nat n) lanes) s1)
    /\ Permutation lanes (laneIndexes maxLane)
    /\ (n = Z.min 1 (Z.of_nat (List.length lanes))
        \/ n = Z.min 2 (Z.of_nat (List.length lanes)))
    /\ forall lane s2,
         exists u u' pts,
           let rock :=
             mkObject u OBSTACLE (mkVec3 (laneX lane) 0.4 spawnZ) true
                      None (Some "#546e7a"%string) None None None in
           fst (f lane s2) = [rock]
           \/ fst (f lane s2)
              = [rock;
                 mkObject u' GEM (mkVec3 (laneX lane) 2.0 spawnZ) true
                          None (Some (gemColorOf pts)) None pts None]).
  { subst pushed maxLane.
    unfold spawnRocks, shuffled, mathRandom.
    cbv beta iota zeta delta [bind].
    destruct (randomSort (laneIndexes (laneCount store / 2)) (sRandom s))
      as [lanes c].
    cbn [fst snd sRandom sUuid] in *.
    eexists _, _, _, lanes. split; [reflexivity|]. split; [exact Hp|].
    split; [destruct (random c >? 0.6); auto|].
    intros lane s2.
    cbv beta iota zeta delta [bind uuidv4 mathRandom randomPoints ret].
    cbn [fst snd sUuid sRandom].
    destruct (random (sRandom s2) <? 0.3); cbn [fst];
      [eexists _, _, _; right | eexists _, 0%nat, None; left];
      reflexivity. }
  destruct Hpush as (f & s1 & n & lanes & -> & Hpl & Hn & Hf).
  assert (Hlen : List.length lanes = Z.to_nat (2 * maxLane + 1)).
  { rewrite (Permutation_length Hpl). unfold laneIndexes.
    now rewrite length_map, length_seq. }
  assert (Hmax : (0 <= maxLane)%Z) by (apply Z.div_pos; lia).
  exists (firstn (Z.to_nat n) lanes).
  assert (Hnd : NoDup lanes)
    by (eapply Permutation_NoDup; [apply Permutation_sym; exact Hpl
                                  | apply laneIndexes_NoDup]).
  split.
  { apply forEach_filter_map. intros lane s2.
    destruct (Hf lane s2) as (u & u' & pts & [-> | ->]); reflexivity. }
  split; [now apply firstn_NoDup|]. split.
  { intros lane Hin. apply firstn_In in Hin.
    apply laneIndexes_spec. eapply Permutation_in; eassumption. }
  split; [rewrite length_firstn; lia|]. split.
  { apply (forEach_closed artifactsAboveRocks).
    - intros obj [].
    - apply artifactsAboveRocks_app.
    - intros lane s2 obj Hin.
      destruct (Hf lane s2) as (u & u' & pts & [E | E]);
        cbv zeta in E; rewrite E in Hin |- *.
      + destruct Hin as [<-|[]]. now left.
      + destruct Hin as [<-|[<-|[]]]; [now left|]. right.
        split; [reflexivity|]. split; [reflexivity|].
        eexists. split; [left; reflexivity|]. now repeat split. }
  { apply forEach_length. intros lane s2.
    destruct (Hf lane s2) as (u & u' & pts & [E | E]);
      cbv zeta in E; rewrite E; cbn; lia. }
Qed.


(** ** Entity ids *)

Lemma NoDup_ids_app (xs ys : list GameObject) (m : nat) :
  Forall (fun o => (id o < m)%nat) xs ->
  Forall (fun o => (m <= id o)%nat) ys ->
  NoDup (map id xs) -> NoDup (map id ys) ->
  NoDup (map id (xs ++ ys)).
Proof.
  intros Hx Hy Nx Ny. rewrite map_app. apply NoDup_app; try assumption.
  intros a Ha Hb.
  apply in_map_iff in Ha as (x & <- & Hinx).
  apply in_map_iff in Hb as (y & E & Hiny).
  rewrite Forall_forall in Hx, Hy.
  specialize (Hx x Hinx). specialize (Hy y Hiny). lia.
Qed.

(** What a computation pushed has pairwise different ids, all handed out
    by the uuid supply while it ran. *)
Lemma forEach_distinct {A : Type} (f : A -> Gen (list GameObject)) :
  (forall a s, pushedFresh s (f a s) /\ NoDup (map id (fst (f a s)))) ->
  forall l s, NoDup (map id (fst (forEach f l s))).
Proof.
  intros Hf. induction l as [|a l IH]; intros s; cbn [forEach].
  - constructor.
  - unfold bind, ret. destruct (Hf a s) as [[H1 H1'] N1].
    pose proof (forEach_fresh f (fun a s => proj1 (Hf a s)) l) as Hrest.
    destruct (f a s) as [bs s1]. specialize (Hrest s1).
    specialize (IH s1). destruct Hrest as [H2 H2'].
    destruct (forEach f l s1) as [cs s2]. cbn [fst snd] in *.
    apply (NoDup_ids_app bs cs (sUuid s1)); try assumption.
    + eapply Forall_impl; [|exact H1']. cbn. intros o Ho. lia.
    + eapply Forall_impl; [|exact H2']. cbn. intros o Ho. lia.
Qed.

Ltac distinct_leaf :=
  split; [fresh_leaf|]; cbn [fst map id fallbackGem];
  repeat (apply NoDup_cons; [cbn [In sUuid]; intuition lia|]);
  apply NoDup_nil.

Lemma spawnCluster_distinct (store : Store) (t : ObjectType) (spawnZ : Q)
  (s : Supply) : NoDup (map id (fst (spawnCluster store t spawnZ s))).
Proof.
  unfold spawnCluster, bind at 1 2, shuffled, mathRandom.
  destruct (randomSort _ _) as [lanes c].
  apply forEach_distinct. intros lane s1. unfold bind, uuidv4, ret.
  distinct_leaf.
Qed.

Lemma spawnRocks_distinct (store : Store) (spawnZ : Q) (s : Supply) :
  NoDup (map id (fst (spawnRocks store spawnZ s))).
Proof.
  unfold spawnRocks, bind at 1 2, shuffled, mathRandom.
  destruct (randomSort _ _) as [lanes c].
  apply forEach_distinct. intros lane s1.
  cbv beta iota zeta delta [bind uuidv4 mathRandom randomPoints ret].
  cbn [fst snd sUuid sRandom].
  destruct (random (sRandom s1) <? 0.3); distinct_leaf.
Qed.

Lemma spawnGem_distinct (store : Store) (spawnZ : Q) (s : Supply) :
  NoDup (map id (fst (spawnGem store spawnZ s))).
Proof.
  cbv beta iota zeta
      delta [spawnGem getRandomLane randomPoints bind mathRandom uuidv4 ret].
  cbn [fst map]. repeat constructor. intros [].
Qed.

Lemma spawnMix_distinct (store : Store) (spawnZ : Q) (s : Supply) :
  NoDup (map id (fst (spawnMix store spawnZ s))).
Proof.
  unfold spawnMix.
  cbv beta iota zeta delta [bind mathRandom ret].
  repeat match goal with
         | |- context [if ?b then _ else _] =>
             destruct b; cbv beta iota zeta delta [bind mathRandom ret];
             cbn [fst snd sRandom sUuid orb negb]
         end;
    first [ apply spawnCluster_distinct | apply spawnRocks_distinct
          | apply spawnGem_distinct ].
Qed.

Lemma spawning_distinct (store : Store) (kept : list GameObject)
  (distance nextLetter : Q) (s : Supply) :
  NoDup (map id (sp_pushed (fst (spawning store kept distance nextLetter s)))).
Proof.
  unfold spawning.
  destruct (furthestZ kept >? - SPAWN_DISTANCE); [|constructor].
  destruct (distance >=? nextLetter).
  - destruct (availableIndicesOf _);
      cbv beta iota zeta
          delta [bind getRandomLane mathRandom ret spawnFallbackGem
                 spawnLetter uuidv4];
      cbn [fst snd sp_pushed map]; repeat constructor; intros [].
  - cbv beta iota zeta delta [bind mathRandom ret].
    destruct (random (sRandom s) >? 0.1); [|constructor].
    pose proof (spawnMix_distinct store (spawnZOf store (furthestZ kept))
                  (mkSupply (S (sRandom s)) (sUuid s))) as H.
    destruct (spawnMix _ _ _) as [pushed s1].
    cbn [fst snd sp_pushed]. exact H.
Qed.

(** The survivors of the loop keep their ids and their order. *)
Lemma kept_ids_distinct (playerPos : Vec3) (dist safeDelta : Q)
  (objs : list GameObject) :
  NoDup (map id objs) ->
  NoDup (map id (flat_map (objKept playerPos dist safeDelta) objs)).
Proof.
  induction objs as [|obj rest IH]; intros Hnd; cbn [flat_map map].
  - constructor.
  - cbn [map] in Hnd. apply NoDup_cons_iff in Hnd as [Hnew Hrest].
    unfold objKept at 1. destruct (it_keep _); cbn [app map];
      [|now apply IH].
    constructor; [|now apply IH]. rewrite objAfter_id.
    intros Hin. apply Hnew.
    apply in_map_iff in Hin as (o & Ho & Hin).
    apply in_flat_map in Hin as (o0 & Ho0 & Hin).
    unfold objKept in Hin. destruct (it_keep _); [|contradiction].
    destruct Hin as [<-|[]]. rewrite objAfter_id in Ho.
    rewrite <- Ho. now apply in_map.
Qed.

Lemma useFrame_ids_distinct (store : Store) (delta : Q)
  (player : option Vec3) (st : Refs) :
  uuidsFresh st -> NoDup (map id (objectsRef st)) ->
  NoDup (map id (objectsRef (fst (useFrame store delta player st)))).
Proof.
  intros Hfresh Hnd.
  destruct (GameStatus_eqb (status store) PLAYING) eqn:Hst.
  2:{ rewrite useFrame_not_playing; [exact Hnd|].
      intros H. rewrite H in Hst. discriminate. }
  assert (Hplay : status store = PLAYING)
    by (destruct (status store); try discriminate; reflexivity).
  unfold uuidsFresh in Hfresh.
  rewrite (useFrame_objects store delta player st Hplay).
  pose proof (spawning_fresh store
                (keptObjects (frameLoop store delta player st)
                   ++ newSpawns (frameLoop store delta player st))
                (distanceTraveled st + speed store * safeDeltaOf delta)
                (nextLetterDistance st)
                (mkSupply (randomCursor st)
                          (loopUuid (frameLoop store delta player st))))
    as [Hmono Hpushed].
  pose proof (spawning_distinct store
                (keptObjects (frameLoop store delta player st)
                   ++ newSpawns (frameLoop store delta player st))
                (distanceTraveled st + speed store * safeDeltaOf delta)
                (nextLetterDistance st)
                (mkSupply (randomCursor st)
                          (loopUuid (frameLoop store delta player st))))
    as Npushed.
  fold (frameSpawn store delta player st) in Hmono, Hpushed, Npushed.
  cbn [fst snd sUuid] in Hmono, Hpushed.
  destruct (objectLoop_spawns (playerPosOf player)
              (speed store * safeDeltaOf delta) (safeDeltaOf delta)
              (objectsRef st) (mkLoop [] [] [] false (uuidCounter st) []))
    as (boars & Hs & Hids & Hn).
  fold (frameLoop store delta player st) in Hs, Hn.
  cbn [newSpawns loopUuid app] in Hs, Hids, Hn.
  rewrite Hs in *.
  apply (NoDup_ids_app _ _ (uuidCounter st)).
  - rewrite Forall_forall in *. intros o Ho.
    apply in_flat_map in Ho as (o0 & Ho0 & Ho).
    unfold objKept in Ho. destruct (it_keep _); [|contradiction].
    destruct Ho as [<-|[]]. rewrite objAfter_id. exact (Hfresh o0 Ho0).
  - apply Forall_app. split.
    + rewrite Forall_forall. intros o Ho.
      assert (Hin : In (id o) (seq (uuidCounter st) (List.length boars)))
        by (rewrite <- Hids; now apply in_map).
      apply in_seq in Hin. lia.
    + eapply Forall_impl; [|exact Hpushed]. cbn. intros o Ho. lia.
  - now apply kept_ids_distinct.
  - apply (NoDup_ids_app _ _ (uuidCounter st + List.length boars)%nat).
    + rewrite Forall_forall. intros o Ho.
      assert (Hin : In (id o) (seq (uuidCounter st) (List.length boars)))
        by (rewrite <- Hids; now apply in_map).
      apply in_seq in Hin. lia.
    + eapply Forall_impl; [|exact Hpushed]. cbn. intros o Ho. lia.
    + rewrite Hids. apply seq_NoDup.
    + exact Npushed.
Qed.

Lemma useEffect_ids_distinct (store : Store) (st : Refs) :
  uuidsFresh st -> NoDup (map id (objectsRef st)) ->
  NoDup (map id (objectsRef (fst (useEffect store st)))).
Proof.
  unfold uuidsFresh, useEffect. intros Hfresh Hnd.
  repeat match goal with |- context [if ?b then _ else _] => destruct b end;
    cbn [fst objectsRef]; try exact Hnd; [constructor|].
  apply (NoDup_ids_app _ _ (uuidCounter st)).
  - rewrite Forall_forall in *. intros o Ho.
    apply filter_In in Ho as [Ho _]. exact (Hfresh o Ho).
  - repeat constructor.
  - clear Hfresh. induction (objectsRef st) as [|o os IH]; cbn [filter map].
    + constructor.
    + cbn [map] in Hnd. apply NoDup_cons_iff in Hnd as [Hnew Hrest].
      destruct (_ >? -80); cbn [map]; [|now apply IH].
      constructor; [|now apply IH]. intros Hin. apply Hnew.
      apply in_map_iff in Hin as (o' & E & Hin).
      apply filter_In in Hin as [Hin _]. rewrite <- E. now apply in_map.
  - repeat constructor. intros [].
Qed.

(** X29.  Entity ids stay pairwise different.  With [uuidv4] handing out
    fresh values: from a collection whose ids are pairwise different and
    all handed out by the supply, any sequence of frames and effect runs,
    whatever the store values, the deltas and the random draws, leads to a
    collection whose ids are again pairwise different and handed out by the
    supply.  So no entity is ever kept twice, a charging boar never shares
    the id of the boar that fired it, and the React keys of the rendered
    entities never clash. *)
Theorem entity_ids_stay_distinct :
  forall (ts : list Tick) (st : Refs),
    uuidsFresh st -> NoDup (map id (objectsRef st)) ->
    let st' := fst (run ts st) in
    uuidsFresh st' /\ NoDup (map id (objectsRef st')).
Proof.
  induction ts as [|t ts IH]; intros st Hfresh Hnd; cbn [run].
  - now split.
  - assert (H1 : uuidsFresh (fst (tick t st)))
      by (destruct t; [now apply useFrame_uuidsFresh
                      | now apply useEffect_uuidsFresh]).
    assert (H2 : NoDup (map id (objectsRef (fst (tick t st)))))
      by (destruct t; [now apply useFrame_ids_distinct
                      | now apply useEffect_ids_distinct]).
    specialize (IH (fst (tick t st)) H1 H2). cbv zeta in IH.
    destruct (tick t st) as [st1 c1]. cbn [fst] in IH.
    destruct (run ts st1) as [st2 c2]. exact IH.
Qed.

End Simulation.

(** * The model run on concrete scenes *)

Lemma allLetters_collected : allSixCollected allLettersStore.
Proof.
  intros i Hi. cbn.
  assert (H : (i = 0 \/ i = 1 \/ i = 2 \/ i = 3 \/ i = 4 \/ i = 5)%Z) by lia.
  intuition.
Defined.





Lemma boarScene_uuidsFresh : uuidsFresh boarScene.
Proof. unfold uuidsFresh. cbn. repeat constructor. Defined.


(** C4, on the consumed rock of [spentScene]. *)
Lemma inactive_entity_triggers_nothing_witness :
  snd (useFrame zeroTape keepOrder level1Store 0.016 (Some origin) spentScene)
    = [].
Proof.
  pose proof (inactive_entity_triggers_nothing zeroTape keepOrder
                level1Store 0.016 (Some origin) spentScene
                [farRock] [] spentRock) as H.
  cbv zeta in H.
  specialize (H ltac:(concrete) ltac:(concrete) ltac:(concrete)).
  destruct H as (_ & _ & Hcalls & _).
  rewrite Hcalls. concrete.
Defined.




(** C7, on [rockScene] paused in the shop for two frames. *)
Lemma non_playing_frames_freeze_world_witness :
  let shop := mkStore SHOP 22.5 1 3 [] in
  run zeroTape keepOrder
      (effect shop :: [frame shop 0.5 (Some origin); frame shop 3 None]
         ++ [effect level1Store]) rockScene
    = (rockScene, []).
Proof.
  cbv zeta.
  pose proof (non_playing_frames_freeze_world zeroTape keepOrder rockScene
                (mkStore SHOP 22.5 1 3 []) level1Store
                [(0.5, Some origin); (3, None)]) as H.
  cbv zeta in H.
  specialize (H ltac:(concrete) ltac:(concrete) ltac:(concrete)
                ltac:(concrete) ltac:(concrete)).
  destruct H as (_ & Hpause & _). exact Hpause.
Defined.

(** C8, on [rockScene] sent to the menu and started again. *)
Lemma full_reset_clears_world_witness :
  let menu := mkStore MENU 22.5 1 3 [] in
  objectsRef (fst (run zeroTape keepOrder
                       (effect menu :: [frame menu 0.5 None]
                          ++ [effect level1Store]) rockScene)) = [].
Proof.
  cbv zeta.
  pose proof (full_reset_clears_world zeroTape keepOrder rockScene
                (mkStore MENU 22.5 1 3 []) level1Store [(0.5, None)]) as H.
  cbv zeta in H.
  specialize (H ltac:(concrete)
                ltac:(left; split; [concrete | left; concrete])).
  destruct H as (Hobjs & _). exact Hobjs.
Defined.


(** C10, on [openScene] run for three frames. *)
Lemma fallback_gem_monopolises_spawner_witness :
  let f := (allLettersStore, 0.016, Some origin) in
  map (map (fun o => (type o, points o)))
      (emissions zeroTape keepOrder [f; f; f] openScene)
    = [[(GEM, Some 100%Z)]; [(GEM, Some 100%Z)]; []]
  /\ nextLetterDistance (afterFrames zeroTape keepOrder [f; f; f] openScene)
     = nextLetterDistance openScene.
Proof.
  cbv zeta.
  pose proof (fallback_gem_monopolises_spawner zeroTape keepOrder
                (allLettersStore, 0.016, Some origin)
                [(allLettersStore, 0.016, Some origin);
                 (allLettersStore, 0.016, Some origin)] openScene) as H.
  specialize (H ltac:(concrete) allLetters_collected ltac:(concrete)).
  assert (Hlater :
    Forall (fun f => status (fst (fst f)) = PLAYING
                     /\ allSixCollected (fst (fst f))
                     /\ 0 <= speed (fst (fst f)) /\ 0 <= snd (fst f))
           [(allLettersStore, 0.016, Some origin);
            (allLettersStore, 0.016, Some origin)]).
  { repeat apply Forall_cons; try apply Forall_nil;
      (split; [concrete|]; split; [exact allLetters_collected|];
       split; concrete). }
  destruct (H Hlater) as (_ & Hn & _).
  split; [concrete | exact Hn].
Defined.


(** * Properties of the hunter *)

Section PlayerProperties.

Import Player.

Variable lerp : Q -> Q -> Q -> Q.

Lemma Qle_bool_false (x y : Q) : Qle_bool x y = false -> y < x.
Proof.
  intros H. apply Qnot_le_lt. intros Hle.
  apply Qle_bool_iff in Hle. congruence.
Qed.

Lemma triggerJump_cells (props : Props) (st : State) :
  jumpCellsOk st -> jumpCellsOk (fst (triggerJump props st)).
Proof.
  intros (Hy & Hground & Hair). unfold triggerJump.
  destruct (isJumping st) eqn:Hj; cbn [negb].
  - specialize (Hair eq_refl).
    destruct (hasDoubleJump props);
      destruct (Z.ltb_spec (jumpsPerformed st) 2);
      destruct (Z.ltb_spec (jumpsPerformed st) 1); cbn [fst];
      try (split; [exact Hy | split; [intros E; cbn in E; congruence
                                     | intros _; cbn; lia]]);
      try (split; [exact Hy | split; [intros E; congruence
                                     | intros _; lia]]).
  - cbn [fst]. split; [exact Hy|]. split; [intros E; discriminate E|].
    intros _. cbn. lia.
Qed.

Lemma triggerJump_other (props : Props) (st : State) :
  let st' := fst (triggerJump props st) in
  lane st' = lane st /\ isInvincible st' = isInvincible st
  /\ lastDamageTime st' = lastDamageTime st
  /\ positionY st' = positionY st.
Proof.
  unfold triggerJump. destruct (negb (isJumping st)); cbn [fst].
  - now repeat split.
  - destruct (jumpsPerformed st <? _)%Z; now repeat split.
Qed.

Lemma jumpPhysics_cells (delta : Q) (st : State) :
  jumpCellsOk st -> jumpCellsOk (jumpPhysics delta st).
Proof.
  intros (Hy & Hground & Hair). unfold jumpPhysics.
  destruct (isJumping st) eqn:Hj;
    [|split; [exact Hy | split; [intros _; now apply Hground
                                | intros E; congruence]]].
  destruct (Qle_bool _ 0) eqn:Hland.
  - split; [cbn; apply Qle_refl|]. split; [intros _; now cbn|].
    intros E. discriminate E.
  - apply Qle_bool_false in Hland.
    split; [cbn; now apply Qlt_le_weak|]. split.
    + intros E. cbn in E. congruence.
    + intros _. cbn. now apply Hair.
Qed.

Lemma flicker_cells (props : Props) (now : Z) (st : State) :
  let st' := flicker props now st in
  lane st' = lane st /\ positionY st' = positionY st
  /\ isJumping st' = isJumping st /\ velocityY st' = velocityY st
  /\ jumpsPerformed st' = jumpsPerformed st.
Proof.
  unfold flicker.
  destruct (isInvincible st); destruct (isImmortalityActive props);
    cbn [orb]; try destruct (now - lastDamageTime st >? 1500)%Z;
    now repeat split.
Qed.

Lemma step_cells (props : Props) (ev : Event) (st : State) :
  jumpCellsOk st -> jumpCellsOk (fst (step lerp props ev st)).
Proof.
  intros H. destruct ev as [key|x y|x y h|now|delta now| |]; cbn [step fst].
  - unfold handleKeyDown.
    destruct (negb (GameStatus_eqb (status props) PLAYING)); [exact H|].
    destruct (key =? "ArrowLeft")%string; [exact H|].
    destruct (key =? "ArrowRight")%string; [exact H|].
    destruct ((key =? "ArrowUp")%string || (key =? "w")%string);
      [now apply triggerJump_cells|].
    destruct ((key =? " ")%string || (key =? "Enter")%string); exact H.
  - exact H.
  - unfold handleTouchEnd.
    destruct (negb (GameStatus_eqb (status props) PLAYING)); [exact H|].
    destruct (touchStartY st >? h - 150); [exact H|].
    destruct (_ && _); [destruct (_ >? 0); exact H|].
    destruct (_ && _); [now apply triggerJump_cells | exact H].
  - unfold checkHit. destruct (_ || _); exact H.
  - unfold useFrame. destruct (_ && _); [exact H|].
    match goal with
    | |- jumpCellsOk (flicker ?p ?n ?s) =>
        destruct (flicker_cells p n s) as (_ & Ey & Ej & Ev & En);
        assert (Hs : jumpCellsOk s) by (apply jumpPhysics_cells; exact H);
        destruct Hs as (Hy & Hground & Hair)
    end.
    unfold jumpCellsOk. rewrite Ey, Ej, Ev, En.
    exact (conj Hy (conj Hground Hair)).
  - unfold statusEffect.
    destruct (GameStatus_eqb (status props) PLAYING); [|exact H].
    split; [cbn; apply Qle_refl|]. split; [intros _; now cbn|].
    intros E. discriminate E.
  - unfold laneEffect. destruct (_ >? _)%Z; exact H.
Qed.

Lemma step_lane (M : Z) (props : Props) (ev : Event) (st : State) :
  (0 <= maxLaneOf props <= M)%Z ->
  (- M <= lane st <= M)%Z ->
  (- M <= lane (fst (step lerp props ev st)) <= M)%Z.
Proof.
  intros HM H. destruct ev as [key|x y|x y h|now|delta now| |]; cbn [step fst].
  - unfold handleKeyDown.
    destruct (negb (GameStatus_eqb (status props) PLAYING)); [exact H|].
    destruct (key =? "ArrowLeft")%string; [cbn; lia|].
    destruct (key =? "ArrowRight")%string; [cbn; lia|].
    destruct ((key =? "ArrowUp")%string || (key =? "w")%string).
    + destruct (triggerJump_other props st) as (-> & _). exact H.
    + destruct ((key =? " ")%string || (key =? "Enter")%string); exact H.
  - exact H.
  - unfold handleTouchEnd.
    destruct (negb (GameStatus_eqb (status props) PLAYING)); [exact H|].
    destruct (touchStartY st >? h - 150); [exact H|].
    destruct (_ && _); [destruct (_ >? 0); cbn; lia|].
    destruct (_ && _); [|exact H].
    destruct (triggerJump_other props st) as (-> & _). exact H.
  - unfold checkHit. destruct (_ || _); exact H.
  - unfold useFrame. destruct (_ && _); [exact H|].
    match goal with
    | |- context [flicker ?p ?n ?s] =>
        destruct (flicker_cells p n s) as (-> & _)
    end.
    unfold jumpPhysics. cbn [isJumping setX].
    destruct (isJumping st); [destruct (Qle_bool _ 0)|]; exact H.
  - unfold statusEffect.
    destruct (GameStatus_eqb (status props) PLAYING); exact H.
  - unfold laneEffect. destruct (_ >? _)%Z; [cbn; lia | exact H].
Qed.

Lemma run_cons (props : Props) (ev : Event) (rest : list (Props * Event))
  (st : State) :
  fst (run lerp ((props, ev) :: rest) st)
  = fst (run lerp rest (fst (step lerp props ev st))).
Proof.
  cbn [run]. destruct (step lerp props ev st) as [st1 calls]. cbn [fst].
  destruct (run lerp rest st1) as [st2 more]. reflexivity.
Qed.

(** X16.  The hunter stays on the trail and jumps are counted right.  Along
    any sequence of key, touch, hit, frame and effect events, whatever the
    store values of each: the height is never negative; on the ground the
    height and the vertical speed are 0 and no jump is counted; in the air
    one or two jumps are counted.  If moreover every [Math.floor(laneCount /
    2)] seen lies in [0, M], a lane within [-M, M] stays within [-M, M]. *)
Theorem hunter_cells_invariant :
  forall (evs : list (Props * Event)) (st : State) (M : Z),
    jumpCellsOk st ->
    (- M <= lane st <= M)%Z ->
    Forall (fun pe => (0 <= maxLaneOf (fst pe) <= M)%Z) evs ->
    let st' := fst (run lerp evs st) in
    jumpCellsOk st' /\ (- M <= lane st' <= M)%Z.
Proof.
  induction evs as [|[props ev] rest IH]; intros st M Hcells Hlane Hall.
  - cbn. now split.
  - cbv zeta. rewrite run_cons. inversion Hall as [|? ? Hp Hrest]; subst.
    apply IH; [now apply step_cells | now apply step_lane | exact Hrest].
Qed.


Lemma run_calls_cons (props : Props) (ev : Event) (rest : list (Props * Event))
  (st : State) :
  snd (run lerp ((props, ev) :: rest) st)
  = snd (step lerp props ev st)
    ++ snd (run lerp rest (fst (step lerp props ev st))).
Proof.
  cbn [run]. destruct (step lerp props ev st) as [st1 calls]. cbn [fst snd].
  destruct (run lerp rest st1) as [st2 more]. reflexivity.
Qed.

Lemma triggerJump_single (props : Props) (st : State) :
  hasDoubleJump props = false ->
  jumpCellsOk st ->
  (jumpsPerformed st <= 1)%Z ->
  (jumpsPerformed (fst (triggerJump props st)) <= 1)%Z
  /\ ~ In (playJump true) (snd (triggerJump props st)).
Proof.
  intros Hd (_ & Hground & Hair) Hone. unfold triggerJump. rewrite Hd.
  destruct (isJumping st) eqn:Hj; cbn [negb].
  - specialize (Hair eq_refl).
    destruct (Z.ltb_spec (jumpsPerformed st) 1); [exfalso; lia|].
    cbn [fst snd]. split; [lia | intros []].
  - cbn [fst snd setJump jumpsPerformed]. split; [lia|].
    intros [E|[]]. discriminate E.
Qed.

Lemma step_single (props : Props) (ev : Event) (st : State) :
  hasDoubleJump props = false ->
  jumpCellsOk st ->
  (jumpsPerformed st <= 1)%Z ->
  (jumpsPerformed (fst (step lerp props ev st)) <= 1)%Z
  /\ ~ In (playJump true) (snd (step lerp props ev st)).
Proof.
  intros Hd Hcells H.
  assert (Hnone : ~ In (playJump true) []) by (intros []).
  assert (Himm : ~ In (playJump true) [activateImmortality])
    by (intros [E|[]]; discriminate E).
  assert (Hdmg : ~ In (playJump true) [playDamage])
    by (intros [E|[]]; discriminate E).
  destruct ev as [key|x y|x y h|now|delta now| |]; cbn [step fst snd].
  - unfold handleKeyDown.
    destruct (negb (GameStatus_eqb (status props) PLAYING)); [now split|].
    destruct (key =? "ArrowLeft")%string; [now split|].
    destruct (key =? "ArrowRight")%string; [now split|].
    destruct ((key =? "ArrowUp")%string || (key =? "w")%string);
      [now apply triggerJump_single|].
    destruct ((key =? " ")%string || (key =? "Enter")%string); now split.
  - now split.
  - unfold handleTouchEnd.
    destruct (negb (GameStatus_eqb (status props) PLAYING)); [now split|].
    destruct (touchStartY st >? h - 150); [now split|].
    destruct (_ && _); [destruct (_ >? 0); now split|].
    destruct (_ && _); [now apply triggerJump_single | now split].
  - unfold checkHit. destruct (_ || _); now split.
  - split; [|exact Hnone]. unfold useFrame. destruct (_ && _); [exact H|].
    match goal with
    | |- context [flicker ?p ?n ?s] =>
        destruct (flicker_cells p n s) as (_ & _ & _ & _ & ->)
    end.
    unfold jumpPhysics. cbn [isJumping setX].
    destruct (isJumping st); [destruct (Qle_bool _ 0)|]; cbn; try exact H; lia.
  - split; [|exact Hnone]. unfold statusEffect.
    destruct (GameStatus_eqb (status props) PLAYING); [cbn; lia | exact H].
  - split; [|exact Hnone]. unfold laneEffect.
    destruct (_ >? _)%Z; exact H.
Qed.

(** X17.  No second leap without the upgrade.  Along any sequence of events
    in which the store never reports [hasDoubleJump], from a state that
    satisfies the invariant of the jump cells with at most one jump counted:
    at most one jump is ever counted and the double-jump sound
    [playJump(true)] is never played. *)
Theorem no_double_jump_without_upgrade :
  forall (evs : list (Props * Event)) (st : State),
    jumpCellsOk st ->
    (jumpsPerformed st <= 1)%Z ->
    Forall (fun pe => hasDoubleJump (fst pe) = false) evs ->
    (jumpsPerformed (fst (run lerp evs st)) <= 1)%Z
    /\ ~ In (playJump true) (snd (run lerp evs st)).
Proof.
  induction evs as [|[props ev] rest IH]; intros st Hcells H Hall.
  - cbn. split; [exact H | intros []].
  - inversion Hall as [|? ? Hp Hrest]; subst. cbn [fst] in Hp.
    destruct (step_single props ev st Hp Hcells H) as [H1 H2].
    destruct (IH (fst (step lerp props ev st))
                 (step_cells props ev st Hcells) H1 Hrest) as [H3 H4].
    rewrite run_cons, run_calls_cons. split; [exact H3|].
    intros Hin. apply in_app_or in Hin. tauto.
Qed.

Lemma damageTimes_cons (props : Props) (ev : Event)
  (rest : list (Props * Event)) (st : State) :
  damageTimes lerp ((props, ev) :: rest) st
  = (if existsb isPlayDamage (snd (step lerp props ev st))
     then clockOf ev else [])
    ++ damageTimes lerp rest (fst (step lerp props ev st)).
Proof.
  cbn [damageTimes]. now destruct (step lerp props ev st) as [st1 calls].
Qed.

Lemma triggerJump_no_damage (props : Props) (st : State) :
  existsb isPlayDamage (snd (triggerJump props st)) = false.
Proof.
  unfold triggerJump. destruct (negb (isJumping st)); [reflexivity|].
  now destruct (jumpsPerformed st <? _)%Z.
Qed.

(** What an event other than a hit or a frame does to the damage cells. *)
Lemma step_damage_cells (props : Props) (ev : Event) (st : State) :
  clockOf ev = [] ->
  let st' := fst (step lerp props ev st) in
  isInvincible st' = isInvincible st
  /\ lastDamageTime st' = lastDamageTime st.
Proof.
  destruct ev as [key|x y|x y h|now|delta now| |]; cbn [clockOf step fst];
    intros E; try discriminate E.
  - unfold handleKeyDown.
    destruct (negb (GameStatus_eqb (status props) PLAYING)); [now split|].
    destruct (key =? "ArrowLeft")%string; [now split|].
    destruct (key =? "ArrowRight")%string; [now split|].
    destruct ((key =? "ArrowUp")%string || (key =? "w")%string).
    + destruct (triggerJump_other props st) as (_ & -> & -> & _). now split.
    + destruct ((key =? " ")%string || (key =? "Enter")%string); now split.
  - now split.
  - unfold handleTouchEnd.
    destruct (negb (GameStatus_eqb (status props) PLAYING)); [now split|].
    destruct (touchStartY st >? h - 150); [now split|].
    destruct (_ && _); [destruct (_ >? 0); now split|].
    destruct (_ && _); [|now split].
    destruct (triggerJump_other props st) as (_ & -> & -> & _). now split.
  - unfold statusEffect.
    destruct (GameStatus_eqb (status props) PLAYING); now split.
  - unfold laneEffect. destruct (_ >? _)%Z; now split.
Qed.

Lemma step_no_damage (props : Props) (ev : Event) (st : State) :
  clockOf ev = [] ->
  existsb isPlayDamage (snd (step lerp props ev st)) = false.
Proof.
  destruct ev as [key|x y|x y h|now|delta now| |]; cbn [clockOf step snd];
    intros E; try discriminate E; try reflexivity.
  - unfold handleKeyDown.
    destruct (negb (GameStatus_eqb (status props) PLAYING)); [reflexivity|].
    destruct (key =? "ArrowLeft")%string; [reflexivity|].
    destruct (key =? "ArrowRight")%string; [reflexivity|].
    destruct ((key =? "ArrowUp")%string || (key =? "w")%string);
      [apply triggerJump_no_damage|].
    now destruct ((key =? " ")%string || (key =? "Enter")%string).
  - unfold handleTouchEnd.
    destruct (negb (GameStatus_eqb (status props) PLAYING)); [reflexivity|].
    destruct (touchStartY st >? h - 150); [reflexivity|].
    destruct (_ && _); [now destruct (_ >? 0)|].
    destruct (_ && _); [apply triggerJump_no_damage | reflexivity].
Qed.

(** A frame leaves the damage cells alone or, more than 1500 ms after the
    last accepted hit, ends the invincibility. *)
Lemma useFrame_damage_cells (props : Props) (delta : Q) (now : Z) (st : State) :
  let st' := useFrame lerp props delta now st in
  lastDamageTime st' = lastDamageTime st
  /\ (isInvincible st' = isInvincible st
      \/ (isInvincible st = true /\ isInvincible st' = false
          /\ (lastDamageTime st + 1500 < now)%Z)).
Proof.
  unfold useFrame. destruct (_ && _); [split; [reflexivity | now left]|].
  match goal with
  | |- context [flicker ?p ?n (jumpPhysics ?d ?s)] =>
      assert (Hs : isInvincible (jumpPhysics d s) = isInvincible st
                   /\ lastDamageTime (jumpPhysics d s) = lastDamageTime st)
        by (unfold jumpPhysics; cbn [isJumping setX];
            destruct (isJumping st); [destruct (Qle_bool _ 0)|]; now split);
      generalize dependent (jumpPhysics d s)
  end.
  intros s [Hi Hl]. cbv zeta. rewrite <- Hi, <- Hl. unfold flicker.
  destruct (isInvincible s) eqn:Hinv; cbn [orb].
  - destruct (Z.gtb_spec (now - lastDamageTime s) 1500);
      destruct (isImmortalityActive props); cbn;
      (split; [reflexivity|]); try (now left); right; repeat split; lia.
  - destruct (isImmortalityActive props); cbn; rewrite ?Hinv;
      (split; [reflexivity | now left]).
Qed.

Lemma damage_gap (L : Z) :
  forall (evs : list (Props * Event)) (st : State) (lo : Z),
    StronglySorted Z.le (clocks evs) ->
    Forall (fun t => (lo <= t)%Z) (clocks evs) ->
    (isInvincible st = true -> lastDamageTime st = L) ->
    (isInvincible st = false -> (L + 1500 < lo)%Z) ->
    StronglySorted (fun a b => (a + 1500 < b)%Z) (damageTimes lerp evs st)
    /\ Forall (fun t => (L + 1500 < t)%Z) (damageTimes lerp evs st).
Proof.
  revert L.
  assert (Hmono : forall (a b : Z) l, (a <= b)%Z ->
            Forall (fun t => (b + 1500 < t)%Z) l ->
            Forall (fun t => (a + 1500 < t)%Z) l).
  { intros a b l Hab. apply Forall_impl. intros t. lia. }
  intros L evs. revert L.
  induction evs as [|[props ev] rest IH]; intros L st lo Hsorted Hlo Hinv Hfree.
  - cbn. split; constructor.
  - rewrite damageTimes_cons.
    destruct ev as [key|x y|x y h|now|delta now| |].
    1-3, 6-7:
      (match goal with
       | |- context [step lerp ?p ?e ?s] =>
           destruct (step_damage_cells p e s eq_refl) as [Ei El];
           rewrite (step_no_damage p e s eq_refl)
       end;
       cbn [app]; apply (IH L _ lo); try assumption;
       rewrite Ei, ?El; assumption).
    + (* a hit *)
      cbn [clocks flat_map snd clockOf app] in Hsorted, Hlo.
      fold (clocks rest) in Hsorted, Hlo.
      apply StronglySorted_inv in Hsorted as [Hsorted Hnow].
      inversion Hlo as [|? ? Hlonow Hlorest]; subst.
      cbn [step]. unfold checkHit.
      destruct (isInvincible st) eqn:Hi; cbn [orb fst snd existsb app].
      * apply (IH L st now); try assumption; intros E; rewrite Hi in E;
          first [discriminate E | now apply Hinv].
      * destruct (isImmortalityActive props); cbn [fst snd existsb app].
        -- apply (IH L st now); try assumption; intros E; rewrite Hi in E;
             first [discriminate E | specialize (Hfree eq_refl); lia].
        -- cbn [isPlayDamage orb clockOf app].
           specialize (Hfree eq_refl).
           destruct (IH now (setInvincible st true now) now Hsorted Hnow)
             as [H1 H2]; [reflexivity | intros E; discriminate E |].
           split.
           ++ constructor; assumption.
           ++ constructor; [lia|]. apply (Hmono L now); [lia | exact H2].
    + (* a frame *)
      cbn [clocks flat_map snd clockOf app] in Hsorted, Hlo.
      fold (clocks rest) in Hsorted, Hlo.
      apply StronglySorted_inv in Hsorted as [Hsorted Hnow].
      inversion Hlo as [|? ? Hlonow Hlorest]; subst.
      cbn [step fst snd existsb app].
      destruct (useFrame_damage_cells props delta now st)
        as [El [Ei|(Ht & Ef & Hgap)]].
      * apply (IH L _ now); try assumption.
        -- rewrite Ei, El. exact Hinv.
        -- rewrite Ei. intros E. specialize (Hfree E). lia.
      * apply (IH L _ now); try assumption.
        -- intros E. congruence.
        -- intros _. rewrite (Hinv Ht) in Hgap. exact Hgap.
Qed.

(** X18.  The damage sound respects the invincibility window.  Along any
    sequence of events whose clock readings never go back, whatever the
    store values of each: two plays of the damage sound are more than
    1500 ms apart, and when the run starts invincible no damage sound is
    played until more than 1500 ms after [lastDamageTime]. *)
Theorem damage_sounds_are_spaced :
  forall (evs : list (Props * Event)) (st : State),
    StronglySorted Z.le (clocks evs) ->
    StronglySorted (fun a b => (a + 1500 < b)%Z) (damageTimes lerp evs st)
    /\ (isInvincible st = true ->
        Forall (fun t => (lastDamageTime st + 1500 < t)%Z)
               (damageTimes lerp evs st)).
Proof.
  intros evs st Hsorted.
  assert (Hlo : exists lo, Forall (fun t => (lo <= t)%Z) (clocks evs)).
  { destruct (clocks evs) as [|t0 ts]; [exists 0%Z; constructor|].
    exists t0. apply StronglySorted_inv in Hsorted as [_ H].
    constructor; [lia | exact H]. }
  destruct Hlo as [lo Hlo].
  destruct (isInvincible st) eqn:Hi.
  - destruct (damage_gap (lastDamageTime st) evs st lo Hsorted Hlo)
      as [H1 H2]; [reflexivity | congruence |].
    split; [exact H1 | intros _; exact H2].
  - destruct (damage_gap (lo - 1501) evs st lo Hsorted Hlo) as [H1 H2];
      [congruence | intros _; lia |].
    split; [exact H1 | intros E; discriminate E].
Qed.


(** What a frame does to the jump cells while the game runs or the shop is
    open. *)
Lemma useFrame_jump_cells (props : Props) (delta : Q) (now : Z) (st : State) :
  status props = PLAYING \/ status props = SHOP ->
  let st' := useFrame lerp props delta now st in
  let y := positionY st + velocityY st * delta in
  if isJumping st then
    if Qle_bool y 0 then isJumping st' = false
    else isJumping st' = true /\ positionY st' = y
         /\ velocityY st' = velocityY st - GRAVITY * delta
  else isJumping st' = false.
Proof.
  intros Hs. unfold useFrame.
  assert (Hrun : negb (GameStatus_eqb (status props) PLAYING)
                 && negb (GameStatus_eqb (status props) SHOP) = false)
    by (destruct Hs as [-> | ->]; reflexivity).
  rewrite Hrun. cbv zeta.
  match goal with
  | |- context [flicker ?p ?n ?s] =>
      destruct (flicker_cells p n s) as (_ & Ey & Ej & Ev & _)
  end.
  rewrite Ey, Ej, Ev. unfold jumpPhysics. cbn [isJumping setX positionY velocityY].
  destruct (isJumping st) eqn:Hj; [|exact Hj].
  destruct (Qle_bool _ 0); [reflexivity|]. cbn. now repeat split.
Qed.

Lemma frames_grounded (props : Props) (delta : Q) :
  status props = PLAYING \/ status props = SHOP ->
  forall (nows : list Z) (st : State),
    isJumping st = false ->
    isJumping (frames lerp props delta nows st) = false.
Proof.
  intros Hs. induction nows as [|now rest IH]; intros st Hj; cbn [frames].
  - exact Hj.
  - apply IH. pose proof (useFrame_jump_cells props delta now st Hs) as H.
    cbv zeta in H. now rewrite Hj in H.
Qed.

Lemma frames_cells (props : Props) (delta : Q) :
  forall (nows : list Z) (st : State),
    jumpCellsOk st -> jumpCellsOk (frames lerp props delta nows st).
Proof.
  induction nows as [|now rest IH]; intros st H; cbn [frames].
  - exact H.
  - apply IH. exact (step_cells props (animationFrame delta now) st H).
Qed.

(** The flight of a hunter who is still in the air after the frames. *)
Lemma frames_airborne (props : Props) (delta : Q) :
  status props = PLAYING \/ status props = SHOP ->
  forall (nows : list Z) (st : State),
    isJumping (frames lerp props delta nows st) = true ->
    let n := inject_Z (Z.of_nat (List.length nows)) in
    let st' := frames lerp props delta nows st in
    positionY st'
    == positionY st + delta * n * velocityY st
       - 25 * delta * delta * n * (n - 1)
    /\ velocityY st' == velocityY st - 50 * delta * n
    /\ (nows <> [] -> 0 < positionY st').
Proof.
  intros Hs. induction nows as [|now rest IH]; intros st Hair.
  - cbn. split; [ring|]. split; [ring | congruence].
  - cbn [frames] in *.
    pose proof (useFrame_jump_cells props delta now st Hs) as H.
    cbv zeta in H.
    destruct (isJumping st) eqn:Hj.
    + destruct (Qle_bool _ 0) eqn:Hland.
      * rewrite (frames_grounded props delta Hs rest _ H) in Hair.
        discriminate Hair.
      * destruct H as (Hj1 & Hy1 & Hv1). apply Qle_bool_false in Hland.
        destruct (IH _ Hair) as (Ey & Ev & Hpos).
        rewrite Hy1, Hv1 in Ey. rewrite Hv1 in Ev. unfold GRAVITY in *.
        cbv zeta. cbn [List.length]. rewrite Nat2Z.inj_succ.
        unfold Z.succ. rewrite inject_Z_plus.
        set (k := inject_Z (Z.of_nat (List.length rest))) in *.
        split; [rewrite Ey; ring|]. split; [rewrite Ev; ring|].
        intros _. destruct rest as [|now' rest'].
        -- cbn [frames]. now rewrite Hy1.
        -- apply Hpos. discriminate.
    + rewrite (frames_grounded props delta Hs rest _ H) in Hair.
      discriminate Hair.
Qed.

(** X19.  What goes up comes down.  While the game runs or the shop is
    open, frames of one and the same positive [delta] with no event in
    between bring the hunter back to the ground: from any state that
    satisfies the invariant of the jump cells there is a number of frames
    after which, and from then on, the hunter is not jumping, at height 0,
    with no vertical speed and no jump counted, so that the next jump is a
    first jump again. *)
Theorem hunter_always_lands :
  forall (props : Props) (delta : Q) (st : State),
    status props = PLAYING \/ status props = SHOP ->
    0 < delta ->
    jumpCellsOk st ->
    exists n : nat,
      forall nows : list Z,
        (n <= List.length nows)%nat ->
        let st' := frames lerp props delta nows st in
        isJumping st' = false /\ positionY st' = 0
        /\ velocityY st' = 0 /\ jumpsPerformed st' = 0%Z.
Proof.
  intros props delta st Hs Hd Hcells.
  set (y := positionY st). set (v := velocityY st).
  set (c := (Qabs y + Qabs v * delta) / (25 * delta * delta)).
  exists (S (Z.to_nat (Qceiling c))). intros nows Hlen st'.
  assert (Hland : isJumping st' = false).
  { destruct (isJumping st') eqn:Hair; [exfalso | reflexivity].
    destruct (frames_airborne props delta Hs nows st Hair)
      as (Ey & _ & Hpos).
    fold st' y v in Ey, Hpos.
    assert (Hne : nows <> []) by (destruct nows; [cbn in Hlen; lia | discriminate]).
    specialize (Hpos Hne). rewrite Ey in Hpos.
    set (m := inject_Z (Z.of_nat (List.length nows))) in *.
    assert (Hc0 : 0 <= c).
    { unfold c. apply Qle_shift_div_l; [nra|].
      pose proof (Qabs_nonneg y). pose proof (Qabs_nonneg v). nra. }
    assert (Hcm : c <= m - 1).
    { eapply Qle_trans; [apply Qle_ceiling|].
      assert (Hz : (Qceiling c <= Z.of_nat (List.length nows) - 1)%Z).
      { assert (0 <= Qceiling c)%Z
          by (rewrite <- (Qceiling_Z 0); now apply Qceiling_resp_le).
        lia. }
      rewrite Zle_Qle in Hz. unfold m.
      eapply Qle_trans; [exact Hz|].
      unfold Zminus. rewrite inject_Z_plus.
      rewrite inject_Z_opp. change (inject_Z 1) with 1. lra. }
    assert (E : 25 * delta * delta * c == Qabs y + Qabs v * delta).
    { unfold c. field. nra. }
    pose proof (Qle_Qabs y) as Hy. pose proof (Qle_Qabs v) as Hv.
    pose proof (Qabs_nonneg y) as Hy0. pose proof (Qabs_nonneg v) as Hv0.
    clearbody c. set (ay := Qabs y) in *. set (av := Qabs v) in *.
    clearbody ay av.
    assert (Hm : 1 <= m) by lra.
    assert (P1 : 0 <= 25 * delta * delta * m * ((m - 1) - c)).
    { apply Qmult_le_0_compat; [|lra].
      apply Qmult_le_0_compat; [nra | lra]. }
    assert (P2 : 0 <= (m - 1) * ay) by (apply Qmult_le_0_compat; lra).
    assert (P3 : 0 <= m * delta * (av - v)).
    { apply Qmult_le_0_compat; [|lra]. apply Qmult_le_0_compat; lra. }
    assert (E' : 25 * delta * delta * m * c == m * (ay + av * delta))
      by (rewrite <- E; ring).
    nra. }
  split; [exact Hland|].
  destruct (frames_cells props delta nows st Hcells) as (_ & Hground & _).
  exact (Hground Hland).
Qed.



Lemma initial_cells : jumpCellsOk initial.
Proof.
  split; [apply Qle_refl|]. split; [intros _; now repeat split|].
  intros E. discriminate E.
Qed.

End PlayerProperties.

(** ** The hunter on concrete runs *)

(** X16, on a step to the left and a jump followed by a frame. *)
Lemma hunter_cells_invariant_witness :
  let st' := fst (Player.run Player.linearLerp Player.leapRun Player.initial) in
  Player.jumpCellsOk st' /\ (- 1 <= Player.lane st' <= 1)%Z.
Proof.
  refine (hunter_cells_invariant Player.linearLerp Player.leapRun
            Player.initial 1 initial_cells _ _).
  - cbn. lia.
  - unfold Player.leapRun.
    repeat first [apply Forall_cons | apply Forall_nil]; cbn; lia.
Defined.

(** X17, on two presses of the jump key without the upgrade. *)
Lemma no_double_jump_without_upgrade_witness :
  (Player.jumpsPerformed
     (fst (Player.run Player.linearLerp Player.leapRun Player.initial)) <= 1)%Z
  /\ ~ In (Player.playJump true)
          (snd (Player.run Player.linearLerp Player.leapRun Player.initial)).
Proof.
  refine (no_double_jump_without_upgrade Player.linearLerp Player.leapRun
            Player.initial initial_cells _ _).
  - cbn. lia.
  - unfold Player.leapRun.
    repeat first [apply Forall_cons | apply Forall_nil]; reflexivity.
Defined.

(** X18, on three hits of which the second falls into the window. *)
Lemma damage_sounds_are_spaced_witness :
  StronglySorted (fun a b => (a + 1500 < b)%Z)
    (Player.damageTimes Player.linearLerp Player.hitRun Player.initial)
  /\ Player.damageTimes Player.linearLerp Player.hitRun Player.initial
     = [1000; 2700]%Z.
Proof.
  split; [|concrete].
  refine (proj1 (damage_sounds_are_spaced Player.linearLerp Player.hitRun
                   Player.initial _)).
  unfold Player.hitRun, Player.clocks.
  cbn [flat_map Player.clockOf snd app].
  repeat first [apply SSorted_cons | apply SSorted_nil
               | apply Forall_cons | apply Forall_nil]; lia.
Defined.

(** X19, on the hunter right after a jump from the ground. *)
Lemma hunter_always_lands_witness :
  exists n : nat,
    forall nows : list Z,
      (n <= List.length nows)%nat ->
      let st' := Player.frames Player.linearLerp Player.playing 0.016 nows
                   (fst (Player.triggerJump Player.playing Player.initial)) in
      Player.isJumping st' = false /\ Player.positionY st' = 0
      /\ Player.velocityY st' = 0 /\ Player.jumpsPerformed st' = 0%Z.
Proof.
  refine (hunter_always_lands Player.linearLerp Player.playing 0.016
            (fst (Player.triggerJump Player.playing Player.initial))
            (or_introl eq_refl) _ _).
  - concrete.
  - split; [concrete|]. split; [intros E; discriminate E|].
    intros _. cbn. lia.
Defined.


(** * Properties of the particle pool *)

Section ParticleProperties.

Import Particles.

Variable random : nat -> Q.
Variables sin cos acos : Q -> Q.
Variable PI : Q.

Hypothesis random_range : forall k, 0 <= random k /\ random k < 1.

Local Abbreviation revive := (revive random sin cos acos PI).
Local Abbreviation reviveLoop := (reviveLoop random sin cos acos PI).
Local Abbreviation handleExplosion := (handleExplosion random sin cos acos PI).

Lemma isLive_isDead (p : Particle) : isLive p = negb (isDead p).
Proof. reflexivity. Qed.

Lemma revive_fresh (position : Vec3) (color : string) (c : nat) :
  fresh position color (revive position color c).
Proof.
  destruct (random_range c) as [H0 H1]. unfold fresh, Particles.revive.
  cbn [life pos tint]. repeat split; lra.
Qed.

Lemma fresh_live (position : Vec3) (color : string) (p : Particle) :
  fresh position color p -> isLive p = true.
Proof.
  intros (H & _). unfold isLive. apply Qgtb_true. lra.
Qed.

Lemma countLive_cons (p : Particle) (ps : list Particle) :
  countLive (p :: ps)
  = ((if isLive p then 1 else 0) + countLive ps)%nat.
Proof. unfold countLive. cbn [filter]. now destruct (isLive p). Qed.

Lemma countDead_cons (p : Particle) (ps : list Particle) :
  countDead (p :: ps)
  = ((if isDead p then 1 else 0) + countDead ps)%nat.
Proof. unfold countDead. cbn [filter]. now destruct (isDead p). Qed.

Lemma reviveLoop_count (position : Vec3) (color : string) (burstAmount : Z) :
  forall (ps : list Particle) (spawned : Z) (c : nat),
    let r := reviveLoop position color burstAmount ps spawned c in
    countLive (fst r)
    = (countLive ps + quota burstAmount spawned ps)%nat
    /\ snd r = (c + 10 * quota burstAmount spawned ps)%nat
    /\ List.length (fst r) = List.length ps.
Proof.
  unfold quota.
  induction ps as [|p rest IH]; intros spawned c; cbn [Particles.reviveLoop].
  - cbn. repeat split; lia.
  - rewrite !countLive_cons, countDead_cons, (isLive_isDead p).
    destruct (isDead p) eqn:Hdead; cbn [negb].
    + pose proof (fresh_live _ _ _ (revive_fresh position color c)) as Hlive.
      rewrite Z.geb_leb. destruct (Z.leb_spec burstAmount (spawned + 1)).
      * cbn [fst snd]. rewrite countLive_cons, Hlive. cbn [List.length].
        repeat split; lia.
      * specialize (IH (spawned + 1)%Z (c + 10)%nat). cbv zeta in IH.
        destruct (Particles.reviveLoop _ _ _ _ _ _ _ _ rest _ _)
          as [rest' c'].
        cbn [fst snd] in *. destruct IH as (IH1 & IH2 & IH3).
        rewrite countLive_cons, Hlive, IH1, IH2. cbn [List.length].
        repeat split; lia.
    + specialize (IH spawned c). cbv zeta in IH.
      destruct (Particles.reviveLoop _ _ _ _ _ _ _ _ rest _ _) as [rest' c'].
      cbn [fst snd] in *. destruct IH as (IH1 & IH2 & IH3).
      rewrite countLive_cons, (isLive_isDead p), Hdead, IH1, IH2.
      cbn [negb List.length]. repeat split; lia.
Qed.

Lemma reviveLoop_shape (position : Vec3) (color : string) (burstAmount : Z) :
  forall (ps : list Particle) (spawned : Z) (c : nat),
    Forall2 (fun p p' => if isDead p
                         then p' = p \/ fresh position color p'
                         else p' = p)
            ps (fst (reviveLoop position color burstAmount ps spawned c)).
Proof.
  assert (Hsame : forall ps : list Particle,
            Forall2 (fun p p' => if isDead p
                                 then p' = p \/ fresh position color p'
                                 else p' = p) ps ps).
  { induction ps as [|p ps IH]; constructor; [|exact IH].
    destruct (isDead p); auto. }
  induction ps as [|p rest IH]; intros spawned c; cbn [Particles.reviveLoop].
  - constructor.
  - destruct (isDead p) eqn:Hdead.
    + destruct (_ >=? _)%Z.
      * cbn [fst]. constructor; [|apply Hsame].
        rewrite Hdead. right. apply revive_fresh.
      * specialize (IH (spawned + 1)%Z (c + 10)%nat).
        destruct (Particles.reviveLoop _ _ _ _ _ _ _ _ rest _ _)
          as [rest' c'].
        cbn [fst] in *. constructor; [|exact IH].
        rewrite Hdead. right. apply revive_fresh.
    + specialize (IH spawned c).
      destruct (Particles.reviveLoop _ _ _ _ _ _ _ _ rest _ _) as [rest' c'].
      cbn [fst] in *. constructor; [|exact IH]. now rewrite Hdead.
Qed.



End ParticleProperties.

(** ** Frames of the particle pool *)

Section ParticleFrames.

Import Particles.

Lemma pool_safeDelta_nonneg (delta : Q) :
  0 <= delta -> 0 <= safeDeltaOf delta.
Proof. intros H. unfold safeDeltaOf. apply Q.min_glb; lra. Qed.

Lemma advance_dead (safeDelta : Q) (p : Particle) :
  isDead p = true -> advance safeDelta p = p.
Proof.
  intros H. unfold advance.
  change (isLive p) with (negb (isDead p)). now rewrite H.
Qed.

Lemma advance_life (safeDelta : Q) (p : Particle) :
  (isDead p = true /\ advance safeDelta p = p)
  \/ (isDead p = false
      /\ life (advance safeDelta p) = life p - safeDelta * 1.5).
Proof.
  unfold advance. change (isLive p) with (negb (isDead p)).
  destruct (isDead p); [left | right]; now split.
Qed.

Lemma frames_flight (deltas : list Q) :
  forall ps : list Particle, frames deltas ps = map (flight deltas) ps.
Proof.
  unfold frames, flight.
  induction deltas as [|d ds IH]; intros ps; cbn [fold_left].
  - now rewrite map_id.
  - rewrite IH. unfold useFrame. now rewrite map_map.
Qed.

Lemma flight_dead (deltas : list Q) (p : Particle) :
  isDead p = true -> flight deltas p = p.
Proof.
  intros H. unfold flight. induction deltas as [|d ds IH]; cbn [fold_left].
  - reflexivity.
  - now rewrite (advance_dead _ p H).
Qed.

Lemma flight_life (deltas : list Q) :
  forall p : Particle,
    isDead (flight deltas p) = true
    \/ life (flight deltas p) == life p - 1.5 * safeTime deltas.
Proof.
  induction deltas as [|d ds IH]; intros p.
  - right. cbn. ring.
  - change (flight (d :: ds) p)
      with (flight ds (advance (safeDeltaOf d) p)).
    destruct (advance_life (safeDeltaOf d) p) as [[Hd E]|[Hd E]].
    + left. rewrite E. now rewrite (flight_dead ds p Hd).
    + destruct (IH (advance (safeDeltaOf d) p)) as [H|H]; [now left|].
      right. rewrite H, E.
      change (safeTime (d :: ds)) with (safeDeltaOf d + safeTime ds). ring.
Qed.

Lemma flight_never_grows (deltas : list Q) :
  Forall (fun delta => 0 <= delta) deltas ->
  forall p : Particle, life (flight deltas p) <= Qmax (life p) 0
                       /\ life (flight deltas p) <= life p.
Proof.
  induction 1 as [|d ds Hd Hds IH]; intros p.
  - cbn. split; [apply Q.le_max_l | apply Qle_refl].
  - change (flight (d :: ds) p)
      with (flight ds (advance (safeDeltaOf d) p)).
    pose proof (pool_safeDelta_nonneg d Hd) as Hsd.
    destruct (IH (advance (safeDeltaOf d) p)) as [_ H].
    assert (Hstep : life (advance (safeDeltaOf d) p) <= life p).
    { destruct (advance_life (safeDeltaOf d) p) as [[_ ->]|[_ ->]];
        [apply Qle_refl | lra]. }
    assert (Hle : life (flight ds (advance (safeDeltaOf d) p)) <= life p)
      by (eapply Qle_trans; eassumption).
    split; [|exact Hle]. eapply Qle_trans; [exact Hle | apply Q.le_max_l].
Qed.


End ParticleFrames.

(** * Properties of the shop *)

Section ShopProperties.

Import Shop.

Variable randomSort : list ShopItem -> nat -> list ShopItem * nat.

(** X25.  What the trader offers.  Provided the engine's sort returns a
    permutation of the pool: the offer holds three items, or the two
    repeatable ones (MAX_LIFE and HEAL) when the hunter owns both one-time
    upgrades; no item is offered twice; every item is one of SHOP_ITEMS;
    DOUBLE_JUMP is not offered to a hunter who has it, nor IMMORTAL to one
    who has it. *)
Theorem shop_offer_is_sound :
  forall (hasDoubleJump hasImmortality : bool) (c : nat),
    (forall l k, Permutation (fst (randomSort l k)) l) ->
    let items := offer randomSort hasDoubleJump hasImmortality c in
    List.length items = (if hasDoubleJump && hasImmortality then 2 else 3)%nat
    /\ NoDup (map id items)
    /\ Forall (fun item =>
                 In item SHOP_ITEMS
                 /\ (id item = "DOUBLE_JUMP"%string -> hasDoubleJump = false)
                 /\ (id item = "IMMORTAL"%string -> hasImmortality = false))
              items
    /\ (hasDoubleJump = true -> hasImmortality = true ->
        Permutation (map id items) ["MAX_LIFE"; "HEAL"]%string).
Proof.
  intros hasDoubleJump hasImmortality c Hperm items. subst items.
  unfold offer.
  set (pool := filter (inPool hasDoubleJump hasImmortality) SHOP_ITEMS).
  pose proof (Hperm pool c) as Hp.
  set (sorted := fst (randomSort pool c)) in *.
  assert (Hlen : List.length pool
                 = (if hasDoubleJump && hasImmortality then 2 else 4 -
                    (if hasDoubleJump || hasImmortality then 1 else 0))%nat)
    by (subst pool; destruct hasDoubleJump, hasImmortality; reflexivity).
  assert (Hnd : NoDup (map id pool)).
  { subst pool. destruct hasDoubleJump, hasImmortality; cbn;
      repeat (constructor; [cbn; intuition discriminate|]); constructor. }
  split; [|split; [|split]].
  - rewrite length_firstn, (Permutation_length Hp), Hlen.
    destruct hasDoubleJump, hasImmortality; reflexivity.
  - rewrite <- firstn_map. apply firstn_NoDup.
    eapply Permutation_NoDup; [|exact Hnd].
    apply Permutation_map, Permutation_sym, Hp.
  - apply Forall_forall. intros item Hin. apply firstn_In in Hin.
    apply (Permutation_in _ Hp) in Hin. subst pool.
    apply filter_In in Hin. destruct Hin as [Hin Hpool].
    split; [exact Hin|]. unfold inPool in Hpool. split; intros E; rewrite E in Hpool.
    + cbn in Hpool. now destruct hasDoubleJump.
    + cbn in Hpool. now destruct hasImmortality.
  - intros -> ->. rewrite firstn_all2.
    + apply Permutation_map with (f := id) in Hp. exact Hp.
    + rewrite (Permutation_length Hp), Hlen. cbn. lia.
Qed.

End ShopProperties.

(** * Properties of the scenery *)

Section SceneryProperties.

Import Scenery.

Lemma treeFrame_band (speed delta z : Q) :
  0 <= delta -> -200 <= z -> -200 <= treeFrame speed delta z <= 20.
Proof.
  intros Hd Hz. unfold treeFrame.
  destruct (speed >? 0) eqn:Hs.
  - apply Qgtb_true in Hs.
    destruct (_ >? 20) eqn:Hw; [lra|]. apply Qgtb_false in Hw. nra.
  - destruct (_ >? 20) eqn:Hw; [lra|]. apply Qgtb_false in Hw. lra.
Qed.

Lemma treeFrame_still (speed delta z : Q) :
  speed <= 0 -> z <= 20 -> treeFrame speed delta z == z.
Proof.
  intros Hs Hz. unfold treeFrame.
  assert (E : (speed >? 0) = false) by (now apply Qgtb_false).
  rewrite E.
  assert (E' : (z + 0 * delta >? 20) = false) by (apply Qgtb_false; lra).
  rewrite E'. ring.
Qed.

Lemma fogFrame_band (speed delta speedMod z : Q) :
  0 <= delta -> 0 <= speedMod -> -250 <= z ->
  -250 <= fogFrame speed delta speedMod z <= 50.
Proof.
  intros Hd Hm Hz. unfold fogFrame.
  assert (Hmove : 0 <= (if speed >? 0 then speed else 2) * delta * speedMod).
  { apply Qmult_le_0_compat; [|exact Hm].
    apply Qmult_le_0_compat; [|exact Hd].
    destruct (speed >? 0) eqn:Hs; [apply Qgtb_true in Hs|]; lra. }
  destruct (_ >? 50) eqn:Hw; [lra|]. apply Qgtb_false in Hw. lra.
Qed.

(** X26.  The scenery loops in its band.  Over any frames with
    non-negative [delta], whatever the speeds: a tree or a bush that
    starts at a z of -200 or more stays within [-200, 20], and a fog patch
    with a non-negative [speedMod] that starts at -250 or more stays within
    [-250, 50].  While the speed of the store is not positive the trees and
    bushes stand still. *)
Theorem scenery_loops_in_its_band :
  forall (fs : list (Q * Q)) (speedMod z : Q),
    Forall (fun f => 0 <= snd f) fs ->
    (-200 <= z -> z <= 20 ->
     -200 <= treeFrames fs z <= 20)
    /\ (0 <= speedMod -> -250 <= z -> z <= 50 ->
        -250 <= fogFrames speedMod fs z <= 50)
    /\ (Forall (fun f => fst f <= 0) fs -> z <= 20 ->
        treeFrames fs z == z).
Proof.
  intros fs speedMod z Hfs. revert z.
  induction Hfs as [|[speed delta] fs Hd Hfs IH]; intros z.
  - cbn. repeat split; try lra.
  - cbn [snd] in Hd.
    split; [|split].
    + intros Hlo Hhi.
      destruct (treeFrame_band speed delta z Hd Hlo) as [H1 H2].
      exact (proj1 (IH (treeFrame speed delta z)) H1 H2).
    + intros Hm Hlo Hhi.
      destruct (fogFrame_band speed delta speedMod z Hd Hm Hlo) as [H1 H2].
      exact (proj1 (proj2 (IH (fogFrame speed delta speedMod z))) Hm H1 H2).
    + intros Hstill Hhi. inversion Hstill as [|? ? Hs Hrest]; subst.
      cbn [fst] in Hs.
      pose proof (treeFrame_still speed delta z Hs Hhi) as E.
      assert (Hhi' : treeFrame speed delta z <= 20) by (rewrite E; exact Hhi).
      change (treeFrames ((speed, delta) :: fs) z)
        with (treeFrames fs (treeFrame speed delta z)).
      rewrite (proj2 (proj2 (IH (treeFrame speed delta z))) Hrest Hhi').
      exact E.
Qed.

End SceneryProperties.

(** ** The pool, the shop and the scenery on concrete cases *)



(** X25, on a hunter who owns both one-time upgrades. *)
Lemma shop_offer_is_sound_witness :
  map Shop.id (Shop.offer Shop.keepItems true true 0)
  = ["MAX_LIFE"; "HEAL"]%string
  /\ NoDup (map Shop.id (Shop.offer Shop.keepItems true true 0)).
Proof.
  split; [concrete|].
  refine (proj1 (proj2 (shop_offer_is_sound Shop.keepItems true true 0%nat _))).
  intros l k. apply Permutation_refl.
Defined.

(** X26, on a tree that passes the camera in the first of two frames. *)
Lemma scenery_loops_in_its_band_witness :
  -200 <= Scenery.treeFrames [(22.5, 0.016); (0, 0.016)] 19.9 <= 20.
Proof.
  refine (proj1 (scenery_loops_in_its_band [(22.5, 0.016); (0, 0.016)]
                   1 19.9 _) _ _).
  - repeat first [apply Forall_cons | apply Forall_nil]; concrete.
  - concrete.
  - concrete.
Defined.

(** * The further properties of the frame callback on concrete scenes *)

(** A closed proposition made of comparisons of numbers. *)
Ltac numbers :=
  vm_compute; conjuncts;
  first [ reflexivity | let H := fresh in intro H; discriminate H ].

Lemma nearRock_touches : touches origin 0.36 0.016 nearRock.
Proof. numbers. Qed.

Lemma nearGem_touches : touches origin 0.36 0.016 nearGem.
Proof. numbers. Qed.



(** X3, on the rock of [rockScene], which passes the player in the frame. *)
Lemma damage_source_cannot_jump_over_player_witness :
  damages (objCalls origin 0.36 0.016 nearRock) = [10%Z].
Proof.
  pose proof (damage_source_cannot_jump_over_player origin 0.36 0.016 nearRock
                ltac:(concrete) ltac:(concrete) ltac:(numbers)
                ltac:(numbers) ltac:(numbers) ltac:(numbers)
                ltac:(numbers)) as H.
  exact (proj2 (proj2 H)).
Defined.

(** X4, on the rock of [rockScene] and a player above it. *)
Lemma dodged_entity_is_untouched_witness :
  objCalls inTheAir 0.36 0.016 nearRock = []
  /\ active (objAfter inTheAir 0.36 0.016 nearRock) = true.
Proof.
  refine (dodged_entity_is_untouched inTheAir 0.36 0.016 nearRock _ _).
  - concrete.
  - right. split; [concrete | numbers].
Defined.



(** X7, on [rockScene]. *)
Lemma unchanged_trigger_means_only_motion_witness :
  let st' := fst (useFrame zeroTape keepOrder level1Store 0.016 (Some origin)
                           rockScene) in
  renderTrigger st' = renderTrigger rockScene
  \/ renderTrigger st' = S (renderTrigger rockScene).
Proof.
  exact (proj1 (unchanged_trigger_means_only_motion zeroTape keepOrder
                  level1Store 0.016 (Some origin) rockScene
                  ltac:(concrete))).
Defined.

(** X8, on [rockScene]. *)
Lemma frame_step_is_clamped_witness :
  distanceTraveled (fst (useFrame zeroTape keepOrder level1Store 0.016
                                  (Some origin) rockScene))
  = distanceTraveled rockScene + speed level1Store * safeDeltaOf 0.016.
Proof.
  exact (proj1 (frame_step_is_clamped zeroTape keepOrder level1Store 0.016
                  (Some origin) rockScene ltac:(concrete) ltac:(numbers)
                  ltac:(numbers))).
Defined.

(** X9, on [rockScene] when the store reports level 2. *)
Lemma level_change_prunes_and_plants_portal_witness :
  roster (objectsRef (fst (useEffect level2Store rockScene)))
  = [(2%nat, OBSTACLE, true); (3%nat, SHOP_PORTAL, true)].
Proof.
  pose proof (level_change_prunes_and_plants_portal level2Store rockScene
                ltac:(concrete) ltac:(concrete) ltac:(concrete)) as H.
  cbv zeta in H. destruct H as (_ & _ & _ & _ & Hup & _).
  destruct (Hup ltac:(split; [concrete | reflexivity])) as (Hobjs & _).
  rewrite Hobjs. concrete.
Defined.

(** X10, on [rockScene] when the game ends. *)
Lemma game_over_reports_distance_and_keeps_world_witness :
  snd (run zeroTape keepOrder
           [effect gameOverStore; frame gameOverStore 0.016 (Some origin)]
           rockScene)
  = [setDistance 10].
Proof.
  pose proof (game_over_reports_distance_and_keeps_world zeroTape keepOrder
                gameOverStore rockScene [(0.016, Some origin)]
                (or_introl eq_refl)) as H.
  cbv zeta in H. exact (proj1 H).
Defined.


(** X13, on three lanes. *)
Lemma lanes_stay_within_bounds_witness :
  (- (3 / 2) <= laneOf 3 0.5 <= 3 / 2)%Z /\ NoDup (laneIndexes (3 / 2)).
Proof.
  pose proof (lanes_stay_within_bounds 3 0.5 ltac:(lia) ltac:(numbers)
                ltac:(numbers)) as H.
  cbv zeta in H. destruct H as (H1 & _ & _ & H2 & _). now split.
Defined.

(** X14, on a cluster of idle boars on level 2. *)
Lemma hazard_cluster_shape_witness :
  exists lanes : list Z,
    map (fun obj => vx (position obj))
        (fst (spawnCluster halfTape keepOrder level2Store ALIEN (-120)
                           (mkSupply 0 0)))
    = map laneX lanes
    /\ NoDup lanes.
Proof.
  pose proof (hazard_cluster_shape halfTape keepOrder level2Store ALIEN
                (-120) (mkSupply 0 0)
                (fun l c => Permutation_refl l)) as H.
  cbv zeta in H.
  specialize (H ltac:(numbers) ltac:(numbers) ltac:(cbn; lia)).
  destruct H as (lanes & H1 & H2 & _). exists lanes. now split.
Defined.

(** X21, on [openScene] with all six letters collected. *)
Lemma spawned_artifact_label_is_its_worth_witness :
  Forall artifactWorth
    (sp_pushed (fst (frameSpawn zeroTape keepOrder allLettersStore 0.016
                                (Some origin) openScene))).
Proof.
  refine (spawned_artifact_label_is_its_worth zeroTape keepOrder
            allLettersStore 0.016 (Some origin) openScene _).
  intros k. split; numbers.
Defined.

(** * The hunter and the hazards *)

Section JumpOverHazards.

Import Player.

Variable lerp : Q -> Q -> Q -> Q.

(** The flight, frame by frame, as long as the heights stay positive. *)
Lemma frames_rising (props : Props) (delta : Q) :
  status props = PLAYING \/ status props = SHOP ->
  forall (nows : list Z) (st : State),
    isJumping st = true ->
    (forall k : nat,
        (1 <= k <= List.length nows)%nat ->
        0 < positionY st + delta * inject_Z (Z.of_nat k) * velocityY st
            - 25 * delta * delta * inject_Z (Z.of_nat k)
              * (inject_Z (Z.of_nat k) - 1)) ->
    let n := inject_Z (Z.of_nat (List.length nows)) in
    let st' := Player.frames lerp props delta nows st in
    isJumping st' = true
    /\ positionY st'
       == positionY st + delta * n * velocityY st
          - 25 * delta * delta * n * (n - 1).
Proof.
  intros Hs. induction nows as [|now rest IH]; intros st Hj Hpos.
  - cbn. split; [exact Hj | ring].
  - cbn [Player.frames].
    pose proof (useFrame_jump_cells lerp props delta now st Hs) as H.
    cbv zeta in H. rewrite Hj in H.
    assert (H1 : 0 < positionY st + velocityY st * delta).
    { specialize (Hpos 1%nat ltac:(cbn [List.length]; lia)).
      change (inject_Z (Z.of_nat 1)) with 1 in Hpos. lra. }
    destruct (Qle_bool _ 0) eqn:Hland.
    + apply Qle_bool_iff in Hland. lra.
    + destruct H as (Hj1 & Hy1 & Hv1).
      destruct (IH (Player.useFrame lerp props delta now st) Hj1) as [Ha Ey].
      * intros k Hk. rewrite Hy1, Hv1. unfold GRAVITY.
        specialize (Hpos (S k) ltac:(cbn [List.length]; lia)).
        rewrite Nat2Z.inj_succ in Hpos. unfold Z.succ in Hpos.
        rewrite inject_Z_plus in Hpos.
        change (inject_Z 1) with 1 in Hpos.
        set (q := inject_Z (Z.of_nat k)) in *.
        setoid_replace
          (positionY st + velocityY st * delta
           + delta * q * (velocityY st - 50 * delta)
           - 25 * delta * delta * q * (q - 1))
          with (positionY st + delta * (q + 1) * velocityY st
                - 25 * delta * delta * (q + 1) * (q + 1 - 1)) by ring.
        exact Hpos.
      * split; [exact Ha|]. cbv zeta in Ey. rewrite Ey, Hy1, Hv1.
        unfold GRAVITY. cbn [List.length]. rewrite Nat2Z.inj_succ.
        unfold Z.succ. rewrite inject_Z_plus. change (inject_Z 1) with 1.
        ring.
Qed.

(** The frame count of [framesToClear] puts the time since the jump in
    the interval from 0.32 (exclusive) to 0.32 + delta. *)
Lemma framesToClear_time (delta : Q) :
  0 < delta ->
  let n := inject_Z (Z.of_nat (framesToClear delta)) in
  1 <= n /\ 0.32 < n * delta /\ (n - 1) * delta <= 0.32.
Proof.
  intros Hd. unfold framesToClear, JUMP_FORCE, GRAVITY.
  set (q := 16 / 50 / delta).
  assert (Hq : q * delta == 0.32) by (unfold q; field; lra).
  assert (Hq0 : 0 <= q).
  { apply Qmult_le_r with delta; [exact Hd|]. rewrite Hq. lra. }
  assert (Hf0 : (0 <= Qfloor q)%Z)
    by (change 0%Z with (Qfloor 0); now apply Qfloor_resp_le).
  cbv zeta. rewrite Nat2Z.inj_succ, Z2Nat.id by exact Hf0.
  unfold Z.succ. rewrite inject_Z_plus. change (inject_Z 1) with 1.
  pose proof (Qfloor_le q) as Hlo. pose proof (Qlt_floor q) as Hhi.
  rewrite inject_Z_plus in Hhi. change (inject_Z 1) with 1 in Hhi.
  assert (Hf : 0 <= inject_Z (Qfloor q))
    by (change 0 with (inject_Z 0); now rewrite <- Zle_Qle).
  set (f := inject_Z (Qfloor q)) in *.
  split; [lra|]. split; nra.
Qed.

(** X27.  A jump clears every hazard.  While the game runs or the shop is
    open, a hunter who jumps from the ground is, after [framesToClear
    delta] frames of any one positive [delta] (the first frame more than
    0.32 s after the jump), still in the air, at a height of at least
    2.56 + 8 * delta.  A player at that height is touched by no rock, no
    monster, no charging boar and no idle boar standing at 2.06 or lower
    (they are spawned at 0.6), wherever they are: they make no call and
    keep their active flag. *)
Theorem jump_clears_every_hazard :
  forall (props : Props) (delta : Q) (st : State) (nows : list Z),
    status props = PLAYING \/ status props = SHOP ->
    0 < delta ->
    isJumping st = false -> positionY st = 0 ->
    List.length nows = framesToClear delta ->
    let st' := Player.frames lerp props delta nows
                 (fst (triggerJump props st)) in
    isJumping st' = true
    /\ 2.56 + 8 * delta <= positionY st'
    /\ forall (playerPos : Vec3) (dist safeDelta : Q) (obj : GameObject),
         vy playerPos = positionY st' ->
         isDamageSource (type obj) = true ->
         (type obj = ALIEN -> vy (position obj) <= 2.06) ->
         objCalls playerPos dist safeDelta obj = []
         /\ active (objAfter playerPos dist safeDelta obj) = active obj.
Proof.
  intros props delta st nows Hs Hd Hground Hy0 Hlen st'.
  assert (Hjumped : fst (triggerJump props st) = setJump st true JUMP_FORCE 1)
    by (unfold triggerJump; now rewrite Hground).
  destruct (framesToClear_time delta Hd) as (Hn1 & Hlo & Hhi).
  cbv zeta in Hn1, Hlo, Hhi. rewrite <- Hlen in Hn1, Hlo, Hhi.
  destruct (frames_rising props delta Hs nows (fst (triggerJump props st)))
    as [Hair Ey].
  - now rewrite Hjumped.
  - intros k Hk. rewrite Hjumped. cbn [positionY velocityY setJump].
    rewrite Hy0. unfold JUMP_FORCE.
    assert (Hk1 : 1 <= inject_Z (Z.of_nat k)).
    { change 1 with (inject_Z 1). rewrite <- Zle_Qle. lia. }
    assert (Hkn : inject_Z (Z.of_nat k)
                  <= inject_Z (Z.of_nat (List.length nows))).
    { rewrite <- Zle_Qle. lia. }
    set (q := inject_Z (Z.of_nat k)) in *.
    set (n := inject_Z (Z.of_nat (List.length nows))) in *.
    assert (Hqd : (q - 1) * delta <= 0.32) by nra.
    assert (P : 0 < delta * q * (16 - 25 * ((q - 1) * delta))).
    { apply Qmult_lt_0_compat; [|lra].
      apply Qmult_lt_0_compat; lra. }
    nra.
  - fold st' in Hair, Ey. cbv zeta in Ey.
    rewrite Hjumped in Ey. cbn [positionY velocityY setJump] in Ey.
    rewrite Hy0 in Ey. unfold JUMP_FORCE in Ey.
    set (n := inject_Z (Z.of_nat (List.length nows))) in *.
    assert (Hheight : 2.56 + 8 * delta <= positionY st').
    { rewrite Ey.
      assert (P : 0 <= (n * delta - 0.32) * (delta - (n * delta - 0.32)))
        by (apply Qmult_le_0_compat; lra).
      nra. }
    split; [exact Hair|]. split; [exact Hheight|].
    intros playerPos dist safeDelta obj Hpy Hdmg Hboar.
    apply untouched_entity.
    + intros E. rewrite E in Hdmg. discriminate Hdmg.
    + intros (_ & _ & _ & Hov). rewrite Hdmg in Hov. destruct Hov as [Hov _].
      rewrite Hpy in Hov.
      assert (Hband : snd (verticalBand obj) <= 2.56).
      { unfold verticalBand.
        destruct (type obj) eqn:Hty; cbn [snd]; try lra;
          try discriminate Hdmg.
        specialize (Hboar eq_refl). lra. }
      lra.
Qed.

End JumpOverHazards.

(** X27, on a jump at sixty frames a second. *)
Lemma jump_clears_every_hazard_witness :
  2.56 + 8 * (1 # 60)
  <= Player.positionY
       (Player.frames Player.linearLerp Player.playing (1 # 60)
          (repeat 0%Z (Player.framesToClear (1 # 60)))
          (fst (Player.triggerJump Player.playing Player.initial))).
Proof.
  pose proof (jump_clears_every_hazard Player.linearLerp Player.playing
                (1 # 60) Player.initial
                (repeat 0%Z (Player.framesToClear (1 # 60)))
                (or_introl eq_refl) ltac:(concrete) eq_refl eq_refl
                ltac:(apply repeat_length)) as H.
  cbv zeta in H. exact (proj1 (proj2 H)).
Defined.

(** X28, on a row of rocks on three lanes. *)
Lemma rock_row_shape_witness :
  exists lanes : list Z,
    map (fun obj => vx (position obj))
        (filter (fun obj => ObjectType_eqb (type obj) OBSTACLE)
                (fst (spawnRocks zeroTape keepOrder level1Store (-120)
                                 (mkSupply 0 0))))
    = map laneX lanes
    /\ NoDup lanes.
Proof.
  pose proof (rock_row_shape zeroTape keepOrder level1Store (-120)
                (mkSupply 0 0) (fun l c => Permutation_refl l)
                ltac:(cbn; lia)) as H.
  cbv zeta in H. destruct H as (lanes & H1 & H2 & _).
  exists lanes. now split.
Defined.

(** X29, on [boarScene] over a frame in which the boar fires. *)
Lemma entity_ids_stay_distinct_witness :
  NoDup (map id (objectsRef
                   (fst (run zeroTape keepOrder
                             [frame level2Store 0.05 (Some origin)]
                             boarScene)))).
Proof.
  pose proof (entity_ids_stay_distinct zeroTape keepOrder
                [frame level2Store 0.05 (Some origin)] boarScene
                boarScene_uuidsFresh) as H.
  cbv zeta in H. refine (proj2 (H _)).
  cbn [boarScene objectsRef map id farRock idleBoar].
  repeat (apply NoDup_cons; [cbn [In]; intuition lia|]); apply NoDup_nil.
Defined.
